(** * thinkstats2: distributions, Bayesian suites, resampling tests, survival

    A shallow embedding of the parts of [soln/thinkstats2.py] that represent
    and combine empirical distributions:

    - [_DictWrapper], [Hist], [Pmf], [Suite] (a dictionary from values to
      weights, with bulk operations);
    - [Cdf] (parallel arrays [xs], [ps]);
    - [HypothesisTest] (the resampling engine);
    - [EstimateHazardFunction], [HazardFunction], [SurvivalFunction];
    - [Odds], [Probability], [Interpolator];
    - the arithmetic and the comparisons of [Pmf]s, [Pmf.Mean],
      [Pmf.Percentile], [Hist.IsSubset], [Joint];
    - [MakeCdf] and [Cdf.MakePmf], [SurvivalFunction.MakeHazardFunction];
    - [CoinTest], [Trim], [TrimmedMean], [Var], [Cov], [LeastSquares].

    Modelling conventions.

    - A Python number is a value of [num]: an exact rational, or one of the
      IEEE special values [inf], [-inf], [nan].  Arithmetic on finite values
      is exact: rounding, overflow and the sign of zero are not modelled.
      The special values follow IEEE 754 ([inf - inf = nan], [0 * inf = nan],
      [inf / inf = nan], every comparison with [nan] is false).
    - Where the magnitude or the rounding of a float decides what the code
      does (the products of [UpdateSet] that underflow, the product that
      [Trim] truncates), the float is a binary64 float of [PrimFloat], the
      arithmetic of Python's [float].
    - A Python [int] ([len], [Counter] counts, indices, iteration counts) is
      a [Z].
    - A Python [dict] is a [gmap].  Iterating over it is iterating over
      [map_to_list]; Python's insertion order is not modelled.  The sums
      below do not depend on the order ([pysum_perm]), and the other results
      are stated entry by entry.
    - A raised exception is the [Raise] outcome of [result].
    - The methods a subclass has to supply ([Likelihood], [TestStatistic],
      [RunModel], [MakeModel]) are the variables of a section.
    - What the code takes from the standard library, NumPy and pandas
      ([Counter], [sorted], [bisect], array indexing, [cumsum], [interp],
      [Series], [cumprod]) is modelled after the documented behaviour of
      these functions. *)

From Stdlib Require Import QArith Qcanon.
From Stdlib Require Import PrimFloat FloatOps SpecFloat Uint63.
From stdpp Require Import gmap list sorting numbers strings.

Local Open Scope Z_scope.

(** A decimal literal stands for the nearest binary64 float, as it does in
    Python. *)
Set Warnings "-inexact-float".

(** ** Exceptions and outcomes *)

Inductive exn : Set :=
| ValueError (msg : string)
| IndexError
| KeyError
| ZeroDivisionError
| OverflowError
| RuntimeError (msg : string).

Inductive result (A : Type) : Type :=
| Ok (a : A)
| Raise (e : exn).

Arguments Ok {A} a.
Arguments Raise {A} e.

Global Instance result_ret : MRet result := λ A a, Ok a.
Global Instance result_bind : MBind result := λ A B k r,
  match r with
  | Ok a => k a
  | Raise e => Raise e
  end.

Definition returns {A} (r : result A) : Prop := ∃ a, r = Ok a.
Definition raises {A} (r : result A) : Prop := ∃ e, r = Raise e.

(** ** Numbers *)

Inductive num : Set :=
| Fin (q : Qc)
| PInf
| NInf
| NaN.

Global Instance num_eq_dec : EqDecision num.
Proof. solve_decision. Defined.

Definition of_Z (n : Z) : num := Fin (Qc_of_Z n).

(** The numbers 0 and 1. *)
Definition num_zero : num := Fin 0%Qc.
Definition num_one : num := Fin 1%Qc.

Definition is_fin (x : num) : bool :=
  match x with Fin _ => true | _ => false end.

Definition nneg (x : num) : num :=
  match x with
  | Fin q => Fin (- q)%Qc
  | PInf => NInf
  | NInf => PInf
  | NaN => NaN
  end.

Definition nadd (x y : num) : num :=
  match x, y with
  | NaN, _ | _, NaN => NaN
  | Fin a, Fin b => Fin (a + b)%Qc
  | PInf, NInf | NInf, PInf => NaN
  | PInf, _ | _, PInf => PInf
  | NInf, _ | _, NInf => NInf
  end.

Definition nsub (x y : num) : num := nadd x (nneg y).

(** The sign of a finite value: [Lt], [Eq] or [Gt] with respect to zero. *)
Definition qsign (q : Qc) : comparison := (q ?= 0)%Qc.

Definition inf_of_sign (s : comparison) : num :=
  match s with Gt => PInf | Lt => NInf | Eq => NaN end.

Definition nmul (x y : num) : num :=
  match x, y with
  | NaN, _ | _, NaN => NaN
  | Fin a, Fin b => Fin (a * b)%Qc
  | Fin a, PInf | PInf, Fin a => inf_of_sign (qsign a)
  | Fin a, NInf | NInf, Fin a => inf_of_sign (CompOpp (qsign a))
  | PInf, PInf | NInf, NInf => PInf
  | PInf, NInf | NInf, PInf => NInf
  end.

(** IEEE division, as NumPy arrays perform it: dividing by zero gives an
    infinity or [nan] and raises nothing. *)
Definition ndiv (x y : num) : num :=
  match x, y with
  | NaN, _ | _, NaN => NaN
  | Fin a, Fin b =>
      if decide (b = 0%Qc) then inf_of_sign (qsign a) else Fin (a / b)%Qc
  | Fin _, (PInf | NInf) => num_zero
  | PInf, Fin b => match qsign b with Lt => NInf | _ => PInf end
  | NInf, Fin b => match qsign b with Lt => PInf | _ => NInf end
  | (PInf | NInf), (PInf | NInf) => NaN
  end.

(** [==], [<], [<=] on numbers; [nan] compares false with everything. *)
Definition neqb (x y : num) : bool :=
  match x, y with
  | Fin a, Fin b => bool_decide (a = b)
  | PInf, PInf | NInf, NInf => true
  | _, _ => false
  end.

Definition nltb (x y : num) : bool :=
  match x, y with
  | NaN, _ | _, NaN => false
  | Fin a, Fin b => bool_decide (a < b)%Qc
  | NInf, (Fin _ | PInf) => true
  | Fin _, PInf => true
  | _, _ => false
  end.

Definition nleb (x y : num) : bool := nltb x y || neqb x y.

(** Truth value of a number in a condition ([if p:]): everything but zero. *)
Definition truthy (x : num) : bool := negb (neqb x num_zero).

(** Division of Python scalars: a zero divisor raises. *)
Definition pydiv (x y : num) : result num :=
  if neqb y num_zero then Raise ZeroDivisionError else Ok (ndiv x y).

(** The builtin [sum]: starts from the integer 0 and adds from the left. *)
Definition pysum (l : list num) : num := foldl nadd num_zero l.

Notation "x +ₙ y" := (nadd x y) (at level 50, left associativity).
Notation "x *ₙ y" := (nmul x y) (at level 40, left associativity).
Notation "x -ₙ y" := (nsub x y) (at level 50, left associativity).
Notation "x /ₙ y" := (ndiv x y) (at level 40, left associativity).

(** ** [_DictWrapper], [Hist], [Pmf], [Suite] *)

(** The class of an object; [isinstance(self, Pmf)] holds for [Pmf] and for
    its subclass [Suite]. *)
Inductive kind : Set := KDictWrapper | KHist | KPmf | KSuite.

Definition is_Pmf (c : kind) : bool :=
  match c with KPmf | KSuite => true | _ => false end.

Definition DEFAULT_LABEL : string := "_nolegend_".

(** [Cdf]: the arrays [xs] and [ps] and the label. *)
Record Cdf (K : Type) : Type := mkCdf {
  xs : list K;
  ps : list num;
  clabel : string
}.

Arguments mkCdf {K} _ _ _.
Arguments xs {K} _.
Arguments ps {K} _.
Arguments clabel {K} _.

(** [collections.Counter(seq)]: the number of occurrences of each element. *)
Definition Counter `{Countable K} (l : list K) : gmap K Z :=
  foldl (λ m x, <[x := default 0 (m !! x) + 1]> m) ∅ l.

(** [c[x]] on a [Counter]: a missing key counts 0. *)
Definition count_of `{Countable K} (c : gmap K Z) (x : K) : Z :=
  default 0 (c !! x).

(** [c1 | c2] on two [Counter]s: the maximum of the counts, positive counts
    only. *)
Definition Counter_or `{Countable K} (c1 c2 : gmap K Z) : gmap K Z :=
  filter (λ kv, 0 < kv.2)
    (union_with (λ a b, Some (Z.max a b)) c1 c2).

(** [d.update(items)]. *)
Definition dict_update `{Countable K} {V} (m : gmap K V) (items : list (K * V))
    : gmap K V :=
  foldl (λ m kv, <[kv.1 := kv.2]> m) m items.

(** [Cdf.Items]: the values with the steps of [ps].  [np.roll(a, 1)] moves
    the last entry to the front, and [b[0] = 0] overwrites it, which is an
    index error on an empty array. *)
Definition Cdf_Items {K} (c : Cdf K) : result (list (K * num)) :=
  match ps c with
  | [] => Raise IndexError
  | _ :: _ =>
      let a := ps c in
      let b := num_zero :: removelast a in
      Ok (zip (xs c) (zip_with nsub a b))
  end.

Section dict_wrapper.
Context `{Countable K}.

Record DictWrapper : Type := mkDictWrapper {
  cls : kind;
  d : gmap K num;
  label : string;
  log : bool
}.

Definition with_d (self : DictWrapper) (m : gmap K num) : DictWrapper :=
  {| cls := cls self; d := m; label := label self; log := log self |}.

Definition with_label (self : DictWrapper) (l : string) : DictWrapper :=
  {| cls := cls self; d := d self; label := l; log := log self |}.

(** [len(self)] *)
Definition len (self : DictWrapper) : Z := Z.of_nat (size (d self)).

(** [self[value]], [Hist.Freq], [Pmf.Prob]: [self.d.get(value, 0)] *)
Definition getitem (self : DictWrapper) (value : K) : num :=
  default num_zero (d self !! value).

Definition Freq := getitem.
Definition Prob := getitem.

Definition Set_ (self : DictWrapper) (x : K) (y : num) : DictWrapper :=
  with_d self (<[x := y]> (d self)).

Definition Incr (self : DictWrapper) (x : K) (term : num) : DictWrapper :=
  with_d self (<[x := getitem self x +ₙ term]> (d self)).

Definition Mult (self : DictWrapper) (x : K) (factor : num) : DictWrapper :=
  with_d self (<[x := getitem self x *ₙ factor]> (d self)).

(** [del self.d[x]]: a missing key is a [KeyError]. *)
Definition Remove (self : DictWrapper) (x : K) : result DictWrapper :=
  match d self !! x with
  | Some _ => Ok (with_d self (delete x (d self)))
  | None => Raise KeyError
  end.

Definition Items (self : DictWrapper) : list (K * num) :=
  map_to_list (d self).

Definition Values (self : DictWrapper) : list K := (map_to_list (d self)).*1.

Definition Total (self : DictWrapper) : num :=
  pysum (map_to_list (d self)).*2.

(** The loop [for x in self.d: self.d[x] *= factor]. *)
Definition scale_all (factor : num) (m : gmap K num) : gmap K num :=
  foldl (λ m x, <[x := default num_zero (m !! x) *ₙ factor]> m) m
    (map_to_list m).*1.

(** [Pmf.Normalize(fraction)]: the object after the call and the returned
    total. *)
Definition Normalize (fraction : num) (self : DictWrapper)
    : result (DictWrapper * num) :=
  if log self then
    Raise (ValueError "Normalize: Pmf is under a log transform")
  else
    let total := Total self in
    if neqb total num_zero then
      Raise (ValueError "Normalize: total probability is zero.")
    else
      factor ← pydiv fraction total;
      Ok (with_d self (scale_all factor (d self)), total).

(** What a constructor can be given.  A pandas Series and a [Pdf] are
    outside this development. *)
Inductive source : Type :=
| SrcDict (m : gmap K num)
| SrcWrapper (w : DictWrapper)
| SrcCdf (c : Cdf K)
| SrcList (l : list K).

Definition source_items (o : source) : result (list (K * num)) :=
  match o with
  | SrcDict m => Ok (map_to_list m)
  | SrcWrapper w => Ok (Items w)
  | SrcCdf c => Cdf_Items c
  | SrcList l => Ok (map_to_list (of_Z <$> Counter l))
  end.

(** [_DictWrapper.__init__(self, obj, label)] for an object of class [c]. *)
Definition init (c : kind) (obj : option source) (lbl : option string)
    : result DictWrapper :=
  let self :=
    {| cls := c; d := ∅; label := default DEFAULT_LABEL lbl; log := false |}
  in
  match obj with
  | None => Ok self
  | Some o =>
      let self :=
        match o with
        | SrcWrapper w => with_label self (default (label w) lbl)
        | SrcCdf cdf => with_label self (default (clabel cdf) lbl)
        | _ => self
        end in
      items ← source_items o;
      let self := with_d self (dict_update (d self) items) in
      if bool_decide (0 < len self) && is_Pmf (cls self) then
        r ← Normalize num_one self; Ok r.1
      else Ok self
  end.

(** [Hist.Subtract] *)
Definition Subtract (self other : DictWrapper) : DictWrapper :=
  foldl (λ self vf, Incr self vf.1 (nneg vf.2)) self (Items other).

(** A [for] loop over the items of [self.d] whose body may change the
    dictionary; [items] are the items the dictionary has when the loop
    starts.  The dictionary iterator remembers the size the dictionary had
    then, and every request for the next item, the one that ends the loop
    included, raises [RuntimeError] when the size has changed.  (The bodies
    below overwrite the entry they visit or delete it, so up to the first
    deletion the keys are those of [items].) *)
Fixpoint for_items (n : nat) (items : list (K * num))
    (body : K → num → DictWrapper → result DictWrapper)
    (self : DictWrapper) : result DictWrapper :=
  if bool_decide (size (d self) = n) then
    match items with
    | [] => Ok self
    | (k, v) :: rest =>
        self' ← body k v self; for_items n rest body self'
    end
  else Raise (RuntimeError "dictionary changed size during iteration").

End dict_wrapper.

Arguments DictWrapper K {_ _}.
Arguments source K {_ _}.

(** The object a constructor works on once the items are copied. *)
Definition init_copy `{Countable K} (c : kind) (o : source K)
    (lbl : option string) (items : list (K * num)) : DictWrapper K :=
  {| cls := c; d := dict_update ∅ items;
     label := match o with
              | SrcWrapper w => default (label w) lbl
              | SrcCdf cdf => default (clabel cdf) lbl
              | _ => default DEFAULT_LABEL lbl
              end;
     log := false |}.

(** ** Odds and probabilities *)

(** [Odds(p)]: [inf] at [p == 1], otherwise [p / (1 - p)]. *)
Definition Odds (p : num) : result num :=
  if neqb p num_one then Ok PInf else pydiv p (num_one -ₙ p).

(** [Probability(o)]: [o / (o + 1)]. *)
Definition Probability (o : num) : result num :=
  pydiv o (o +ₙ num_one).

(** ** [Suite] *)

Section suite.
Context `{Countable K}.
Context {Data : Type}.

(** The likelihood function a concrete suite supplies. *)
Variable Likelihood : Data → K → num.

(** The loop [for hypo in self.Values(): self.Mult(hypo, like)]. *)
Definition mult_likelihoods (data : Data) (self : DictWrapper K)
    : DictWrapper K :=
  foldl (λ self hypo, Mult self hypo (Likelihood data hypo)) self
    (Values self).

Definition Update (data : Data) (self : DictWrapper K)
    : result (DictWrapper K * num) :=
  Normalize num_one (mult_likelihoods data self).

Definition UpdateSet (dataset : list Data) (self : DictWrapper K)
    : result (DictWrapper K * num) :=
  Normalize num_one (foldl (λ self data, mult_likelihoods data self) self dataset).

(** The caller's loop [for data in dataset: suite.Update(data)]: the first
    exception ends it. *)
Fixpoint Update_each (dataset : list Data) (self : DictWrapper K)
    : result (DictWrapper K) :=
  match dataset with
  | [] => Ok self
  | data :: rest => r ← Update data self; Update_each rest r.1
  end.

Definition MakeOdds (self : DictWrapper K) : result (DictWrapper K) :=
  for_items (size (d self)) (Items self)
    (λ hypo prob self,
       if truthy prob then o ← Odds prob; Ok (Set_ self hypo o)
       else Remove self hypo)
    self.

Definition MakeProbs (self : DictWrapper K) : result (DictWrapper K) :=
  for_items (size (d self)) (Items self)
    (λ hypo odds self, p ← Probability odds; Ok (Set_ self hypo p))
    self.

End suite.

(** ** [Suite] on binary64 floats *)

(** Exact rationals cannot underflow.  Where the magnitude of the weights
    decides whether [Normalize] raises, the weights are floats of the
    machine: this module repeats [Mult], [Total], [Normalize], [Update] and
    [UpdateSet] on [PrimFloat.float].  The integer 0 that [get] and [sum]
    start from is converted to the float 0 by the first operation, and the
    test [total == 0] is the IEEE comparison. *)
Module binary64.
Section suite.
Context `{Countable K}.
Context {Data : Type}.

Variable Likelihood : Data → K → float.

Record Suite : Type := mkSuite {
  d : gmap K float;
  log : bool
}.

Definition Values (self : Suite) : list K := (map_to_list (d self)).*1.

Definition Mult (self : Suite) (x : K) (factor : float) : Suite :=
  mkSuite (<[x := PrimFloat.mul (default 0%float (d self !! x)) factor]>
             (d self))
          (log self).

Definition Total (self : Suite) : float :=
  foldl PrimFloat.add 0%float (map_to_list (d self)).*2.

(** [total] is not zero where [fraction / total] is computed, so the
    division raises nothing. *)
Definition Normalize (fraction : float) (self : Suite)
    : result (Suite * float) :=
  if log self then
    Raise (ValueError "Normalize: Pmf is under a log transform")
  else
    let total := Total self in
    if PrimFloat.eqb total 0%float then
      Raise (ValueError "Normalize: total probability is zero.")
    else
      let factor := PrimFloat.div fraction total in
      Ok (mkSuite ((λ p, PrimFloat.mul p factor) <$> d self) (log self),
          total).

Definition mult_likelihoods (data : Data) (self : Suite) : Suite :=
  foldl (λ self hypo, Mult self hypo (Likelihood data hypo)) self
    (Values self).

Definition Update (data : Data) (self : Suite) : result (Suite * float) :=
  Normalize 1%float (mult_likelihoods data self).

Definition UpdateSet (dataset : list Data) (self : Suite)
    : result (Suite * float) :=
  Normalize 1%float
    (foldl (λ self data, mult_likelihoods data self) self dataset).

(** The caller's loop [for data in dataset: suite.Update(data)]. *)
Fixpoint Update_each (dataset : list Data) (self : Suite) : result Suite :=
  match dataset with
  | [] => Ok self
  | data :: rest => r ← Update data self; Update_each rest r.1
  end.

End suite.

Arguments Suite K {_ _}.

End binary64.

(** ** Distributions over numbers *)

(** A fresh [Pmf()]. *)
Definition Pmf_new : DictWrapper Qc :=
  {| cls := KPmf; d := ∅; label := DEFAULT_LABEL; log := false |}.

(** [pmf[k] += t], that is [pmf[k] = pmf[k] + t]. *)
Definition iadd_item (pmf : DictWrapper Qc) (k : Qc) (t : num) : DictWrapper Qc :=
  Set_ pmf k (getitem pmf k +ₙ t).

Definition AddPmf (self other : DictWrapper Qc) : DictWrapper Qc :=
  foldl (λ pmf vp1,
    foldl (λ pmf vp2, iadd_item pmf (vp1.1 + vp2.1)%Qc (vp1.2 *ₙ vp2.2))
      pmf (Items other))
    Pmf_new (Items self).

Definition SubPmf (self other : DictWrapper Qc) : DictWrapper Qc :=
  foldl (λ pmf vp1,
    foldl (λ pmf vp2, Incr pmf (vp1.1 - vp2.1)%Qc (vp1.2 *ₙ vp2.2))
      pmf (Items other))
    Pmf_new (Items self).

(** ** [Cdf] *)

(** [np.cumsum]: the running sums. *)
Fixpoint cumsum_from (acc : num) (l : list num) : list num :=
  match l with
  | [] => []
  | x :: r => let acc' := acc +ₙ x in acc' :: cumsum_from acc' r
  end.

Definition cumsum (l : list num) : list num := cumsum_from num_zero l.

(** [a[i]] on a NumPy array: a negative index counts from the end. *)
Definition np_index {A} (a : list A) (i : Z) : result A :=
  let n := Z.of_nat (length a) in
  let j := if bool_decide (i < 0) then n + i else i in
  if bool_decide (0 ≤ j < n) then
    match a !! Z.to_nat j with
    | Some x => Ok x
    | None => Raise IndexError
    end
  else Raise IndexError.

(** [sorted(dw.Items())]: the keys of a dictionary are distinct, so the order
    on the pairs is the order of their first components. *)
Definition item_le (a b : Qc * num) : Prop := (a.1 ≤ b.1)%Qc.

Global Instance item_le_dec : RelDecision item_le.
Proof. intros a b. unfold item_le. apply _. Defined.

Definition sorted_items (w : DictWrapper Qc) : list (Qc * num) :=
  merge_sort item_le (Items w).

(** The shapes of a call [Cdf(obj, ps, label)]: no object, the two arrays,
    or an object alone. *)
Inductive cdf_args : Type :=
| CdfNone
| CdfArrays (xs : list Qc) (ps : list num)
| CdfOf (obj : source Qc).

(** [Cdf.__init__(self, obj, ps, label)] *)
Definition Cdf_init (args : cdf_args) (lbl : option string) : result (Cdf Qc) :=
  let label0 :=
    match args with
    | CdfOf (SrcCdf c) => default (clabel c) lbl
    | CdfOf (SrcWrapper w) => default (label w) lbl
    | _ => default DEFAULT_LABEL lbl
    end in
  match args with
  | CdfNone => Ok (mkCdf [] [] label0)
  | CdfArrays xs' ps' => Ok (mkCdf xs' ps' label0)
  | CdfOf (SrcCdf c) => Ok (mkCdf (xs c) (ps c) label0)
  | CdfOf obj =>
      dw ← match obj with
           | SrcWrapper w => Ok w
           | _ => init KHist (Some obj) None
           end;
      if bool_decide (len dw = 0) then Ok (mkCdf [] [] label0)
      else
        let items := sorted_items dw in
        let cum := cumsum items.*2 in
        last_p ← np_index cum (-1);
        Ok (mkCdf items.*1 ((λ p, p /ₙ last_p) <$> cum) label0)
  end.

(** [bisect.bisect] (that is [bisect_right]) and [bisect.bisect_left]: the
    binary searches of the standard library, between [lo] and [hi].  The
    interval shrinks at every step, so one step more than its length is
    enough ([bisect_right_loop_steps], [bisect_left_loop_steps]). *)
Fixpoint bisect_right_loop {A} (lt : A → A → bool) (a : list A) (x : A)
    (steps lo hi : nat) : nat :=
  match steps with
  | O => lo
  | S steps' =>
      if bool_decide (lo < hi)%nat then
        let mid := ((lo + hi) / 2)%nat in
        match a !! mid with
        | Some am =>
            if lt x am then bisect_right_loop lt a x steps' lo mid
            else bisect_right_loop lt a x steps' (S mid) hi
        | None => lo
        end
      else lo
  end.

Fixpoint bisect_left_loop {A} (lt : A → A → bool) (a : list A) (x : A)
    (steps lo hi : nat) : nat :=
  match steps with
  | O => lo
  | S steps' =>
      if bool_decide (lo < hi)%nat then
        let mid := ((lo + hi) / 2)%nat in
        match a !! mid with
        | Some am =>
            if lt am x then bisect_left_loop lt a x steps' (S mid) hi
            else bisect_left_loop lt a x steps' lo mid
        | None => lo
        end
      else lo
  end.

Definition bisect {A} (lt : A → A → bool) (a : list A) (x : A) : Z :=
  Z.of_nat (bisect_right_loop lt a x (S (length a)) 0 (length a)).

Definition bisect_left {A} (lt : A → A → bool) (a : list A) (x : A) : Z :=
  Z.of_nat (bisect_left_loop lt a x (S (length a)) 0 (length a)).

Definition Qc_ltb (x y : Qc) : bool := bool_decide (x < y)%Qc.

(** [Cdf.Prob(x)] *)
Definition Cdf_Prob (self : Cdf Qc) (x : Qc) : result num :=
  x0 ← np_index (xs self) 0;
  if Qc_ltb x x0 then Ok num_zero
  else
    let index := bisect Qc_ltb (xs self) x in
    np_index (ps self) (index - 1).

(** [Cdf.Value(p)] *)
Definition Cdf_Value (self : Cdf Qc) (p : num) : result Qc :=
  if nltb p num_zero || nltb num_one p then
    Raise (ValueError "Probability p must be in range [0, 1]")
  else
    let index := bisect_left nltb (ps self) p in
    np_index (xs self) index.

(** ** [HypothesisTest] *)

Section hypothesis_test.
(** The data of a test, what [MakeModel] keeps on the object, and the
    state of the random generators that [RunModel] draws from. *)
Context {Data Model Rng : Type}.

(** The methods a concrete test supplies. *)
Variable MakeModel : Data → Model.
Variable TestStatistic : Model → Data → Qc.
Variable RunModel : Model → Data → Rng → Data * Rng.

Record HypothesisTest : Type := mkHypothesisTest {
  data : Data;
  model : Model;
  actual : Qc;
  test_stats : option (list Qc);
  test_cdf : option (Cdf Qc)
}.

(** [HypothesisTest.__init__(self, data)] *)
Definition HypothesisTest_init (dat : Data) : HypothesisTest :=
  let m := MakeModel dat in
  {| data := dat; model := m; actual := TestStatistic m dat;
     test_stats := None; test_cdf := None |}.

(** [[self.TestStatistic(self.RunModel()) for _ in range(iters)]];
    [range(iters)] is empty when [iters] is not positive. *)
Fixpoint run_tests (self : HypothesisTest) (n : nat) (g : Rng)
    : list Qc * Rng :=
  match n with
  | O => ([], g)
  | S n' =>
      let (sim, g') := RunModel (model self) (data self) g in
      let stat := TestStatistic (model self) sim in
      let (rest, g'') := run_tests self n' g' in
      (stat :: rest, g'')
  end.

(** [sum(1 for x in self.test_stats if x >= self.actual)] *)
Definition count_ge (stats : list Qc) (a : Qc) : Z :=
  Z.of_nat (length (filter (λ x, (a ≤ x)%Qc) stats)).

(** [PValue(iters)]: the outcome is the object after the call, the
    returned p-value and the generator state.  When the call raises, the
    object has already been updated; [PValue_state] is that object. *)
Definition PValue_state (iters : Z) (self : HypothesisTest) (g : Rng)
    : result (HypothesisTest * Rng) :=
  let (stats, g') := run_tests self (Z.to_nat iters) g in
  cdf ← Cdf_init (CdfOf (SrcList stats)) None;
  Ok ({| data := data self; model := model self; actual := actual self;
         test_stats := Some stats; test_cdf := Some cdf |}, g').

Definition PValue (iters : Z) (self : HypothesisTest) (g : Rng)
    : result (HypothesisTest * num * Rng) :=
  sg ← PValue_state iters self g;
  let stats := default [] (test_stats sg.1) in
  let count := count_ge stats (actual sg.1) in
  p ← pydiv (of_Z count) (of_Z iters);
  Ok (sg.1, p, sg.2).

End hypothesis_test.

(** ** Survival *)

(** A pandas [Series]: the index labels with their values, in order. *)
Definition Series : Type := list (Qc * num).

(** [pd.Series(index=ts)]: every value is missing ([nan]). *)
Definition Series_new (index : list Qc) : Series := (λ t, (t, NaN)) <$> index.

(** [s[t] = v]: sets the value at the label [t]; a new label is appended. *)
Definition Series_set (s : Series) (t : Qc) (v : num) : Series :=
  if bool_decide (t ∈ s.*1) then
    (λ p : Qc * num, if bool_decide (p.1 = t) then (p.1, v) else p) <$> s
  else s ++ [(t, v)].

(** [Series.cumprod()]: the running products; pandas skips a missing value,
    which stays missing in the result. *)
Fixpoint cumprod_from (acc : num) (l : list num) : list num :=
  match l with
  | [] => []
  | NaN :: r => NaN :: cumprod_from acc r
  | x :: r => let acc' := acc *ₙ x in acc' :: cumprod_from acc' r
  end.

Definition cumprod (l : list num) : list num := cumprod_from num_one l.

(** [np.interp(x, xp, fp, left=left)] at one point [x], for ascending [xp]:
    [left] below the first sample point, the last value above the last one,
    the value itself at a sample point, and the straight line between two
    neighbours otherwise. *)
Fixpoint interp_between (x : Qc) (pts : list (Qc * num)) : num :=
  match pts with
  | [] => NaN
  | (x0, y0) :: rest =>
      match rest with
      | [] => y0
      | (x1, y1) :: _ =>
          if Qc_ltb x x1 then
            if bool_decide (x = x0) then y0
            else (y1 -ₙ y0) /ₙ Fin (x1 - x0)%Qc *ₙ Fin (x - x0)%Qc +ₙ y0
          else interp_between x rest
      end
  end.

Definition np_interp (x : Qc) (xp : list Qc) (fp : list num) (left : num)
    : result num :=
  match xp, last xp, last fp with
  | x0 :: _, Some xn, Some yn =>
      if Qc_ltb x x0 then Ok left
      else if Qc_ltb xn x then Ok yn
      else Ok (interp_between x (zip xp fp))
  | _, _, _ => Raise (ValueError "array of sample points is empty")
  end.

Record SurvivalFunction : Type := mkSurvivalFunction {
  ts : list Qc;
  ss : list num;
  slabel : string
}.

(** [SurvivalFunction.Prob(t)] *)
Definition Survival_Prob (self : SurvivalFunction) (t : Qc) : result num :=
  np_interp t (ts self) (ss self) num_one.

Record HazardFunction : Type := mkHazardFunction {
  series : Series;
  hlabel : string
}.

(** [HazardFunction.MakeSurvival(label)] *)
Definition MakeSurvival (self : HazardFunction) (lbl : string)
    : SurvivalFunction :=
  {| ts := (series self).*1;
     ss := cumprod ((λ lam, num_one -ₙ lam) <$> (series self).*2);
     slabel := lbl |}.

(** The loop of [EstimateHazardFunction] over the remaining times. *)
Fixpoint hazard_loop (hist_complete hist_ongoing : gmap Qc Z) (times : list Qc)
    (at_risk : Z) (lams : Series) : result Series :=
  match times with
  | [] => Ok lams
  | t :: rest =>
      let ended := count_of hist_complete t in
      let censored := count_of hist_ongoing t in
      lam ← pydiv (of_Z ended) (of_Z at_risk);
      hazard_loop hist_complete hist_ongoing rest
        (at_risk - (ended + censored)) (Series_set lams t lam)
  end.

(** [EstimateHazardFunction(complete, ongoing, label)].  The lifetimes are
    rationals, so the two tests for [nan] at the top of the function never
    fire. *)
Definition EstimateHazardFunction (complete ongoing : list Qc) (lbl : string)
    : result HazardFunction :=
  let hist_complete := Counter complete in
  let hist_ongoing := Counter ongoing in
  let times :=
    merge_sort Qcle (map_to_list (Counter_or hist_complete hist_ongoing)).*1 in
  let at_risk := Z.of_nat (length complete) + Z.of_nat (length ongoing) in
  lams ← hazard_loop hist_complete hist_ongoing times at_risk
           (Series_new times);
  Ok {| series := lams; hlabel := lbl |}.

(** ** The sum that [AddPmf] and [SubPmf] are meant to compute *)

(** For every pair of an item [(v1, p1)] of the left operand and an item
    [(v2, p2)] of the right operand, the key [op v1 v2] with the product
    [p1 * p2]. *)
Definition pair_terms (op : Qc → Qc → Qc) (self other : DictWrapper Qc)
    : list (Qc * num) :=
  vp1 ← Items self; vp2 ← Items other; [(op vp1.1 vp2.1, vp1.2 *ₙ vp2.2)].

(** The products that belong to the key [k]. *)
Definition terms_at (k : Qc) (l : list (Qc * num)) : list num :=
  (filter (λ kt, kt.1 = k) l).*2.

(** The distribution that puts the weight 1 on the value [v]. *)
Definition point_mass (v : Qc) : DictWrapper Qc :=
  {| cls := KPmf; d := {[ v := num_one ]}; label := DEFAULT_LABEL; log := false |}.

(** ** What a [Cdf] is meant to satisfy *)

Definition nle (x y : num) : Prop := nleb x y = true.

(** [xs] strictly ascending, [ps] non-decreasing, as many [xs] as [ps], and
    the last of [ps] equal to 1. *)
Definition Cdf_invariant (c : Cdf Qc) : Prop :=
  StronglySorted Qclt (xs c) ∧
  Sorted nle (ps c) ∧
  length (xs c) = length (ps c) ∧
  last (ps c) = Some num_one.

(** The number of occurrences of [x] in a sequence. *)
Definition count_in `{EqDecision K} (x : K) (l : list K) : Z :=
  Z.of_nat (length (filter (λ y, y = x) l)).

(** ** The values of [Odds] and [Probability] when they return *)

Definition odds_of (p : num) : num :=
  if neqb p num_one then PInf else p /ₙ (num_one -ₙ p).

Definition prob_of (o : num) : num := o /ₙ (o +ₙ num_one).

(** ** Finite weights as a dictionary of rationals *)

(** The total of a dictionary of rationals. *)
Definition qtotal `{Countable K} (q : gmap K Qc) : Qc :=
  foldr Qcplus 0%Qc (map_to_list q).*2.

(** Every weight multiplied by [c]. *)
Definition qscale `{Countable K} (c : Qc) (q : gmap K Qc) : gmap K Qc :=
  (λ v, v * c)%Qc <$> q.

(** Every weight multiplied by the likelihood of its hypothesis. *)
Definition qlik `{Countable K} (lik : K → Qc) (q : gmap K Qc) : gmap K Qc :=
  map_imap (λ k v, Some (v * lik k)%Qc) q.

(** The rational a finite number stands for. *)
Definition fin_part (v : num) : Qc :=
  match v with Fin q => q | _ => 0%Qc end.

(** ** The Kaplan-Meier estimate, stated on the observations *)

Definition zsum (l : list Z) : Z := foldr Z.add 0 l.

(** The distinct observed times in ascending order, as
    [EstimateHazardFunction] forms them. *)
Definition observed_times (complete ongoing : list Qc) : list Qc :=
  merge_sort Qcle
    (map_to_list (Counter_or (Counter complete) (Counter ongoing))).*1.

(** The observations, complete or ongoing, that have not ended before [t]. *)
Definition at_risk_at (t : Qc) (complete ongoing : list Qc) : Z :=
  Z.of_nat (length (filter (λ x, (t ≤ x)%Qc) (complete ++ ongoing))).

(** The events and censorings at the time [t]. *)
Definition leaving_at (complete ongoing : list Qc) (t : Qc) : Z :=
  count_in t complete + count_in t ongoing.

(** The events at [t] over the observations at risk at [t]. *)
Definition km_hazard (complete ongoing : list Qc) (t : Qc) : num :=
  Fin (Qc_of_Z (count_in t complete)
       / Qc_of_Z (at_risk_at t complete ongoing))%Qc.

(** ** Concrete objects used in the examples *)

Definition pmf_1_3 : DictWrapper Qc :=
  {| cls := KPmf; d := {[ Qc_of_Z 1 := of_Z 1; Qc_of_Z 2 := of_Z 3 ]};
     label := DEFAULT_LABEL; log := false |}.

Definition hist_one : DictWrapper Qc :=
  {| cls := KHist; d := {[ Qc_of_Z 7 := of_Z 1 ]};
     label := DEFAULT_LABEL; log := false |}.

Definition hist_three : DictWrapper Qc :=
  {| cls := KHist; d := {[ Qc_of_Z 7 := of_Z 3 ]};
     label := DEFAULT_LABEL; log := false |}.

(** A small concrete test in the manner of [CoinTest]: the data are the
    numbers of heads and tails, the statistic is their distance, and the
    model flips as many coins as were observed, reading the flips off a list
    that stands for the random generator. *)
Definition coin_MakeModel (dat : Z * Z) : unit := tt.

Definition coin_TestStatistic (_ : unit) (dat : Z * Z) : Qc :=
  Qc_of_Z (Z.abs (dat.1 - dat.2)).

Definition coin_RunModel (_ : unit) (dat : Z * Z) (g : list bool)
    : (Z * Z) * list bool :=
  let n := Z.to_nat (dat.1 + dat.2) in
  let flips := take n g in
  let heads := Z.of_nat (length (filter (λ b, b = true) flips)) in
  ((heads, Z.of_nat n - heads), drop n g).

Definition coin_test : HypothesisTest (Data := Z * Z) (Model := unit) :=
  HypothesisTest_init coin_MakeModel coin_TestStatistic (3, 1).

Definition coin_flips : list bool :=
  [true; true; true; false; true; false; false; true; true; true; true; true].

(** A histogram with a negative frequency, as [Hist.Subtract] leaves them:
    it is what subtracting the histogram of [[2]] from the histogram of
    [[1; 1]] gives ([hist_neg_by_Subtract]). *)
Definition hist_1_1 : DictWrapper Qc :=
  {| cls := KHist; d := {[ Qc_of_Z 1 := of_Z 2 ]};
     label := DEFAULT_LABEL; log := false |}.

Definition hist_2 : DictWrapper Qc :=
  {| cls := KHist; d := {[ Qc_of_Z 2 := of_Z 1 ]};
     label := DEFAULT_LABEL; log := false |}.

Definition hist_neg : DictWrapper Qc :=
  {| cls := KHist; d := {[ Qc_of_Z 1 := of_Z 2; Qc_of_Z 2 := of_Z (-1) ]};
     label := DEFAULT_LABEL; log := false |}.

(** A suite that is certain of its only hypothesis, and a suite that has
    ruled one of its two hypotheses out. *)
Definition suite_certain : DictWrapper Z :=
  {| cls := KSuite; d := {[ 1 := num_one ]}; label := DEFAULT_LABEL; log := false |}.

Definition suite_ruled_out : DictWrapper Z :=
  {| cls := KSuite; d := {[ 1 := num_one; 2 := num_zero ]};
     label := DEFAULT_LABEL; log := false |}.

(** A suite of two hypotheses that was filled in by hand and not normalized,
    with a likelihood that favours the first hypothesis two to one. *)
Definition suite_flat : DictWrapper Z :=
  {| cls := KSuite; d := {[ 1 := of_Z 1; 2 := of_Z 1 ]};
     label := DEFAULT_LABEL; log := false |}.

Definition two_to_one (_ : unit) (hypo : Z) : num :=
  if bool_decide (hypo = 1) then of_Z 2 else of_Z 1.



(** The lifetimes 1, 2, 2, 3, all complete. *)
Definition four_lifetimes : list Qc :=
  [Qc_of_Z 1; Qc_of_Z 2; Qc_of_Z 2; Qc_of_Z 3].

(** ** Further parts of the library *)

(** [Probability2(yes, no)]: [yes / (yes + no)]. *)
Definition Probability2 (yes no : num) : result num :=
  pydiv yes (yes +ₙ no).

(** ** [Interpolator] *)

(** A mapping between two lists of finite numbers. *)
Record Interpolator : Type := mkInterpolator {
  ixs : list Qc;
  iys : list Qc
}.

(** Division of two finite Python numbers. *)
Definition Qc_div (a b : Qc) : result Qc :=
  if bool_decide (b = 0%Qc) then Raise ZeroDivisionError else Ok (a / b)%Qc.

(** [Interpolator._Bisect(x, xs, ys)]; a Python list is indexed like an
    array ([np_index]). *)
Definition Interpolator_Bisect (x : Qc) (xs ys : list Qc) : result Qc :=
  x0 ← np_index xs 0;
  if bool_decide (x ≤ x0)%Qc then np_index ys 0
  else
    xn ← np_index xs (-1);
    if bool_decide (xn ≤ x)%Qc then np_index ys (-1)
    else
      let i := bisect Qc_ltb xs x in
      a ← np_index xs (i - 1);
      b ← np_index xs i;
      a' ← np_index xs (i - 1);
      frac ← Qc_div (1 * (x - a)) (b - a');
      ya ← np_index ys (i - 1);
      yb ← np_index ys i;
      ya' ← np_index ys (i - 1);
      Ok (ya + frac * 1 * (yb - ya'))%Qc.

Definition Lookup (self : Interpolator) (x : Qc) : result Qc :=
  Interpolator_Bisect x (ixs self) (iys self).

Definition Reverse (self : Interpolator) (y : Qc) : result Qc :=
  Interpolator_Bisect y (iys self) (ixs self).

Global Instance nle_dec : RelDecision nle.
Proof. intros x y. unfold nle. apply _. Defined.

(** The distribution of a value that is 1, 2 or 3, with the cumulative
    probabilities 1/4, 1/2 and 1. *)
Definition cdf_quarters : Cdf Qc :=
  mkCdf [Qc_of_Z 1; Qc_of_Z 2; Qc_of_Z 3]
    [Fin (Qc_of_Z 1 / Qc_of_Z 4)%Qc; Fin (Qc_of_Z 1 / Qc_of_Z 2)%Qc; num_one]
    DEFAULT_LABEL.

(** The mapping between the lengths 0, 10, 20 and the weights 1, 3, 9. *)
Definition interp_example : Interpolator :=
  {| ixs := [Qc_of_Z 0; Qc_of_Z 10; Qc_of_Z 20];
     iys := [Qc_of_Z 1; Qc_of_Z 3; Qc_of_Z 9] |}.

(** ** Copies, subsets, shifts and scalings *)

(** [_DictWrapper.Copy(label)]: the same class and flag, a copy of the
    dictionary. *)
Definition Copy `{Countable K} (self : DictWrapper K) (lbl : option string)
    : DictWrapper K :=
  with_label self (default (label self) lbl).

(** The loop of [Hist.IsSubset]: the first value of [self] that is more
    frequent than in [other] ends it with [False]. *)
Fixpoint IsSubset_loop `{Countable K} (other : DictWrapper K)
    (items : list (K * num)) : bool :=
  match items with
  | [] => true
  | (val, freq) :: rest =>
      if nltb (Freq other val) freq then false else IsSubset_loop other rest
  end.

Definition IsSubset `{Countable K} (self other : DictWrapper K) : bool :=
  IsSubset_loop other (Items self).

(** [_DictWrapper.Scale(factor)] *)
Definition Scale (self : DictWrapper Qc) (factor : Qc) : DictWrapper Qc :=
  foldl (λ new vp, Set_ new (vp.1 * factor)%Qc vp.2)
    (with_d (Copy self None) ∅) (Items self).

(** [Pmf.AddConstant(other)] *)
Definition AddConstant (self : DictWrapper Qc) (other : Qc) : DictWrapper Qc :=
  if bool_decide (other = 0%Qc) then Copy self None
  else foldl (λ pmf vp, Set_ pmf (vp.1 + other)%Qc vp.2) Pmf_new (Items self).

(** [Pmf.MulConstant(other)] *)
Definition MulConstant (self : DictWrapper Qc) (other : Qc) : DictWrapper Qc :=
  foldl (λ pmf vp, Set_ pmf (vp.1 * other)%Qc vp.2) Pmf_new (Items self).

(** The right operand of [+], [-], [*], [/] on a [Pmf]: another [Pmf] or a
    number. *)
Inductive operand : Type :=
| OpPmf (other : DictWrapper Qc)
| OpNum (other : Qc).

(** [Pmf.__add__], [__sub__] and [__mul__] try the method for two [Pmf]s
    first and fall back on the method for a constant when that raises
    [AttributeError].  With a number as the right operand the attribute
    error comes from [other.Items()], in the first round of the loop over
    the items of [self]; when [self] has no item nothing is raised and the
    fresh [Pmf] is returned. *)
Definition Pmf_add (self : DictWrapper Qc) (other : operand) : DictWrapper Qc :=
  match other with
  | OpPmf o => AddPmf self o
  | OpNum c =>
      match Items self with [] => Pmf_new | _ => AddConstant self c end
  end.

Definition Pmf_sub (self : DictWrapper Qc) (other : operand) : DictWrapper Qc :=
  match other with
  | OpPmf o => SubPmf self o
  | OpNum c =>
      match Items self with [] => Pmf_new | _ => AddConstant self (- c)%Qc end
  end.

(** A histogram that counts the value 1 twice and the value 2 once, and one
    that counts 1 once. *)
Definition hist_1_1_2 : DictWrapper Qc :=
  {| cls := KHist; d := {[ Qc_of_Z 1 := of_Z 2; Qc_of_Z 2 := of_Z 1 ]};
     label := DEFAULT_LABEL; log := false |}.

Definition hist_1 : DictWrapper Qc :=
  {| cls := KHist; d := {[ Qc_of_Z 1 := of_Z 1 ]};
     label := DEFAULT_LABEL; log := false |}.

(** A loop whose body may raise: the first exception ends it. *)
Fixpoint for_each {A B} (body : A → B → result A) (l : list B) (a : A)
    : result A :=
  match l with
  | [] => Ok a
  | x :: rest => a' ← body a x; for_each body rest a'
  end.

(** [Pmf.MulPmf(other)] *)
Definition MulPmf (self other : DictWrapper Qc) : DictWrapper Qc :=
  foldl (λ pmf vp1,
    foldl (λ pmf vp2, Incr pmf (vp1.1 * vp2.1)%Qc (vp1.2 *ₙ vp2.2))
      pmf (Items other))
    Pmf_new (Items self).

(** [Pmf.DivPmf(other)]: the quotient of two values is computed first.  The
    values are Python numbers, whose quotient by 0 raises.  NumPy scalars as
    values, as a [Pmf] made by [Cdf.MakePmf] has them, divide by 0 to [inf]
    or [nan] with a warning; these are not values of this model, and the
    properties of [DivPmf] are stated for an [other] without the value 0,
    where the two kinds of values agree. *)
Definition DivPmf (self other : DictWrapper Qc) : result (DictWrapper Qc) :=
  for_each (λ pmf vp1,
    for_each (λ pmf vp2,
      v ← Qc_div vp1.1 vp2.1; Ok (Incr pmf v (vp1.2 *ₙ vp2.2)))
      (Items other) pmf)
    (Items self) Pmf_new.

(** [Pmf.__mul__] and [Pmf.__div__]; the latter computes [1 / other] before
    it calls [MulConstant]. *)
Definition Pmf_mul (self : DictWrapper Qc) (other : operand) : DictWrapper Qc :=
  match other with
  | OpPmf o => MulPmf self o
  | OpNum c =>
      match Items self with [] => Pmf_new | _ => MulConstant self c end
  end.

Definition Pmf_div (self : DictWrapper Qc) (other : operand)
    : result (DictWrapper Qc) :=
  match other with
  | OpPmf o => DivPmf self o
  | OpNum c =>
      match Items self with
      | [] => Ok Pmf_new
      | _ => r ← Qc_div 1 c; Ok (MulConstant self r)
      end
  end.

(** ** Comparing distributions *)

(** The two nested loops of [PmfProbLess], [PmfProbGreater] and
    [PmfProbEqual]: the products of the pairs that pass the test are added
    to [total]. *)
Definition pair_prob (test : Qc → Qc → bool) (pmf1 pmf2 : DictWrapper Qc)
    : num :=
  foldl (λ total vp1,
    foldl (λ total vp2,
      if test vp1.1 vp2.1 then total +ₙ vp1.2 *ₙ vp2.2 else total)
      total (Items pmf2))
    num_zero (Items pmf1).

Definition PmfProbLess : DictWrapper Qc → DictWrapper Qc → num :=
  pair_prob (λ v1 v2, Qc_ltb v1 v2).

Definition PmfProbGreater : DictWrapper Qc → DictWrapper Qc → num :=
  pair_prob (λ v1 v2, Qc_ltb v2 v1).

Definition PmfProbEqual : DictWrapper Qc → DictWrapper Qc → num :=
  pair_prob (λ v1 v2, bool_decide (v1 = v2)).

(** [Pmf.ProbGreater(x)], [Pmf.ProbLess(x)], [Pmf.ProbEqual(x)]: [x] is
    another distribution or a number. *)
Definition ProbGreater (self : DictWrapper Qc) (x : operand) : num :=
  match x with
  | OpPmf other => PmfProbGreater self other
  | OpNum x => pysum (filter (λ vp, (x < vp.1)%Qc) (Items self)).*2
  end.

Definition ProbLess (self : DictWrapper Qc) (x : operand) : num :=
  match x with
  | OpPmf other => PmfProbLess self other
  | OpNum x => pysum (filter (λ vp, (vp.1 < x)%Qc) (Items self)).*2
  end.

Definition ProbEqual (self : DictWrapper Qc) (x : operand) : num :=
  match x with
  | OpPmf other => PmfProbEqual self other
  | OpNum x => getitem self x
  end.

(** The products of the pairs that pass a test, on rational weights. *)
Definition qpair_sum (test : Qc → Qc → bool) (la lb : list (Qc * Qc)) : Qc :=
  foldr Qcplus 0%Qc
    (x ← la; y ← lb; if test x.1 y.1 then [(x.2 * y.2)%Qc] else []).

(** ** Means *)

(** [Pmf.Mean]: [sum(p * x for x, p in self.Items())]. *)
Definition Mean (self : DictWrapper Qc) : num :=
  pysum ((λ xp, xp.2 *ₙ Fin xp.1) <$> Items self).

(** The sum of the weights times a function of the values, on rational
    weights. *)
Definition qexpect (f : Qc → Qc) (q : gmap Qc Qc) : Qc :=
  foldr Qcplus 0%Qc ((λ xp, xp.2 * f xp.1)%Qc <$> map_to_list q).

(** The mean of rational weights. *)
Definition qmean (q : gmap Qc Qc) : Qc := qexpect id q.


(** The lifetimes that go beyond the time [t]. *)
Definition beyond (t : Qc) (lifetimes : list Qc) : Z :=
  Z.of_nat (length (filter (λ x, (t < x)%Qc) lifetimes)).


(** ** [CoinTest] *)

(** [CoinTest.TestStatistic]: the distance between heads and tails. *)
Definition CoinTest_TestStatistic (_ : unit) (dat : Z * Z) : Qc :=
  Qc_of_Z (Z.abs (dat.1 - dat.2)).

(** [CoinTest.RunModel]: as many tosses as were observed, counted in a
    [Hist].  The random generator is the unending sequence of the tosses it
    will produce ([true] for heads); the call uses the first [n] of them. *)
Definition CoinTest_RunModel (_ : unit) (dat : Z * Z) (g : nat → bool)
    : (Z * Z) * (nat → bool) :=
  let n := Z.to_nat (dat.1 + dat.2) in
  let sample := g <$> seq 0 n in
  let hist := Counter sample in
  ((count_of hist true, count_of hist false), λ i, g (n + i)%nat).

(** [CoinTest(data)] *)
Definition CoinTest (dat : Z * Z) : HypothesisTest (Data := Z * Z) (Model := unit) :=
  HypothesisTest_init (λ _, tt) CoinTest_TestStatistic dat.

(** A generator whose tosses alternate, heads first. *)
Definition alternating (i : nat) : bool := Nat.even i.

(** ** Trimming a sample *)

(** [int(x)] on a float: the integer part, rounded towards zero; [inf] and
    [nan] have none.  The messages are those of CPython. *)
Definition int_of_float (x : float) : result Z :=
  match Prim2SF x with
  | S754_zero _ => Ok 0
  | S754_finite s m e =>
      let a := Z.shiftl (Z.pos m) e in Ok (if s then - a else a)
  | S754_infinity _ => Raise OverflowError
  | S754_nan => Raise (ValueError "cannot convert float NaN to integer")
  end.

(** The float that [p * len(t)] makes of the length before it multiplies. *)
Definition float_of_len {A} (l : list A) : float :=
  PrimFloat.of_uint63 (Uint63.of_Z (Z.of_nat (length l))).

(** [l[start:stop]] on a Python list: a negative index counts from the end,
    an index beyond an end is moved to that end, and the slice is empty when
    it would end before it starts. *)
Definition py_slice {A} (l : list A) (start stop : Z) : list A :=
  let n := Z.of_nat (length l) in
  let clamp i := Z.max 0 (Z.min n (if bool_decide (i < 0) then i + n else i)) in
  take (Z.to_nat (clamp stop - clamp start)) (drop (Z.to_nat (clamp start)) l).

(** [Trim(t, p)].  The fraction [p] is a float and the product
    [p * len(t)] is the rounded product of floats: [0.29 * 100] is
    [28.999999999999996], whose integer part is 28. *)
Definition Trim (t : list Qc) (p : float) : result (list Qc) :=
  n ← int_of_float (PrimFloat.mul p (float_of_len t));
  Ok (py_slice (merge_sort Qcle t) n (- n)).

(** [np.mean] of a list of finite numbers; the mean of no number is [nan],
    with a warning and no exception. *)
Definition np_mean (xs : list Qc) : num :=
  match xs with
  | [] => NaN
  | _ => Fin (foldr Qcplus 0%Qc xs / Qc_of_Z (Z.of_nat (length xs)))%Qc
  end.

(** [TrimmedMean(t, p)] *)
Definition TrimmedMean (t : list Qc) (p : float) : result num :=
  t ← Trim t p; Ok (np_mean t).

(** The numbers 0, 1, ..., 99. *)
Definition hundred : list Qc := Qc_of_Z <$> seqZ 0 100.

(** ** [Pmf.Percentile] *)

(** The loop of [Pmf.Percentile] over the sorted items; when it ends
    without reaching [p] the method returns [None].  The running total is
    exact here; the total of rounded floats can stay below a [p] that the
    exact total reaches (ten weights of [0.1] add up to
    [0.9999999999999999]), so nothing is stated below about the [p] at
    which the loop ends without a value. *)
Fixpoint Percentile_loop (p total : num) (items : list (Qc * num))
    : option Qc :=
  match items with
  | [] => None
  | (val, prob) :: rest =>
      let total := total +ₙ prob in
      if nleb p total then Some val else Percentile_loop p total rest
  end.

Definition Percentile (self : DictWrapper Qc) (percentage : num) : option Qc :=
  Percentile_loop (percentage /ₙ of_Z 100) num_zero (sorted_items self).

(** ** [Joint] *)

(** A fresh [Joint()]: a [Pmf] whose values are tuples, here pairs. *)
Definition Joint_new : DictWrapper (Qc * Qc) :=
  {| cls := KPmf; d := ∅; label := DEFAULT_LABEL; log := false |}.

(** [MakeJoint(pmf1, pmf2)] *)
Definition MakeJoint (pmf1 pmf2 : DictWrapper Qc) : DictWrapper (Qc * Qc) :=
  foldl (λ joint vp1,
    foldl (λ joint vp2, Set_ joint (vp1.1, vp2.1) (vp1.2 *ₙ vp2.2))
      joint (Items pmf2))
    Joint_new (Items pmf1).

(** [vs[i]] on a pair: a tuple is indexed like a list. *)
Definition pair_index (vs : Qc * Qc) (i : Z) : result Qc :=
  np_index [vs.1; vs.2] i.

(** [Joint.Marginal(i, label)] *)
Definition Marginal (self : DictWrapper (Qc * Qc)) (i : Z)
    (lbl : option string) : result (DictWrapper Qc) :=
  for_each (λ pmf vsp, v ← pair_index vsp.1 i; Ok (Incr pmf v vsp.2))
    (Items self) (with_label Pmf_new (default DEFAULT_LABEL lbl)).

(** The pairs that [MakeJoint] sets, in the order of its loops. *)
Definition joint_pairs (la lb : list (Qc * num)) : list ((Qc * Qc) * num) :=
  x ← la; y ← lb; [((x.1, y.1), x.2 *ₙ y.2)].

(** [Joint.Conditional(i, j, val, label)]; what [Normalize] returns is
    dropped. *)
Definition Conditional (self : DictWrapper (Qc * Qc)) (i j : Z) (val : Qc)
    (lbl : option string) : result (DictWrapper Qc) :=
  pmf ← for_each (λ pmf vsp,
           vj ← pair_index vsp.1 j;
           if bool_decide (vj ≠ val) then Ok pmf
           else vi ← pair_index vsp.1 i; Ok (Incr pmf vi vsp.2))
         (Items self) (with_label Pmf_new (default DEFAULT_LABEL lbl));
  r ← Normalize num_one pmf;
  Ok r.1.

(** ** Variance, covariance and least squares *)

(** A NumPy array is a list of numbers.  [np.mean(xs)] and [xs.mean()]: the
    sum over the length, [nan] for the empty array. *)
Definition array_mean (xs : list num) : num :=
  pysum xs /ₙ of_Z (Z.of_nat (length xs)).

(** [np.dot] of two one-dimensional arrays, which must be of the same
    length.  The message of NumPy names the two lengths; it is shortened
    here. *)
Definition np_dot (a b : list num) : result num :=
  if decide (length a = length b) then Ok (pysum (zip_with nmul a b))
  else Raise (ValueError "shapes not aligned").

(** [a - b] on two arrays: an array of length 1 is stretched to the length
    of the other ("broadcast").  The message is shortened as well. *)
Definition array_sub (a b : list num) : result (list num) :=
  if decide (length a = length b) then Ok (zip_with nsub a b)
  else
    match a, b with
    | [x], _ => Ok ((λ y, x -ₙ y) <$> b)
    | _, [y] => Ok ((λ x, x -ₙ y) <$> a)
    | _, _ => Raise (ValueError "operands could not be broadcast together")
    end.

(** [Var(xs, mu, ddof)].  The entries of [xs] and [mu] are floats, as they
    are in [MeanVar], [LeastSquares] and [CoefDetermination], where [mu] is
    a mean; an array of integers with an integer [mu], whose products
    [np.dot] adds up in 64-bit integers that wrap around, is outside this
    definition. *)
Definition Var (xs : list num) (mu : option num) (ddof : Z) : result num :=
  let mu := default (array_mean xs) mu in
  let ds := (λ x, x -ₙ mu) <$> xs in
  dd ← np_dot ds ds;
  Ok (dd /ₙ of_Z (Z.of_nat (length xs) - ddof)).

(** [MeanVar(xs, ddof)] *)
Definition MeanVar (xs : list num) (ddof : Z) : result (num * num) :=
  let mean := array_mean xs in
  s2 ← Var xs (Some mean) ddof;
  Ok (mean, s2).

(** [Cov(xs, ys, meanx, meany)] *)
Definition Cov (xs ys : list num) (meanx meany : option num) : result num :=
  let meanx := default (array_mean xs) meanx in
  let meany := default (array_mean ys) meany in
  dp ← np_dot ((λ x, x -ₙ meanx) <$> xs) ((λ y, y -ₙ meany) <$> ys);
  Ok (dp /ₙ of_Z (Z.of_nat (length xs))).

(** [LeastSquares(xs, ys)]: the intercept and the slope. *)
Definition LeastSquares (xs ys : list num) : result (num * num) :=
  mv ← MeanVar xs 0;
  let meany := array_mean ys in
  cov ← Cov xs ys (Some mv.1) (Some meany);
  let slope := cov /ₙ mv.2 in
  let inter := meany -ₙ slope *ₙ mv.1 in
  Ok (inter, slope).

(** [Residuals(xs, ys, inter, slope)] *)
Definition Residuals (xs ys : list num) (inter slope : num)
    : result (list num) :=
  array_sub ys ((λ x, inter +ₙ slope *ₙ x) <$> xs).

(** [CoefDetermination(ys, res)] *)
Definition CoefDetermination (ys res : list num) : result num :=
  vres ← Var res None 0;
  vys ← Var ys None 0;
  Ok (num_one -ₙ vres /ₙ vys).

(** The sum of the products of two lists of rationals. *)
Definition qdot (u v : list Qc) : Qc :=
  foldr Qcplus 0%Qc (zip_with Qcmult u v).

(** The points of the line with intercept [a] and slope [b] over [xs]. *)
Definition on_line (a b : Qc) (xs : list Qc) : list Qc :=
  (λ x, a + b * x)%Qc <$> xs.

(** ** From a [Pmf] to a [Cdf] and back *)

(** [_DictWrapper.MakeCdf(label)] *)
Definition MakeCdf (self : DictWrapper Qc) (lbl : option string)
    : result (Cdf Qc) :=
  Cdf_init (CdfOf (SrcWrapper self)) (Some (default (label self) lbl)).

(** [Cdf.MakePmf(label)] *)
Definition Cdf_MakePmf (c : Cdf Qc) (lbl : option string)
    : result (DictWrapper Qc) :=
  init KPmf (Some (SrcCdf c)) (Some (default (clabel c) lbl)).

(** ** From a survival function to its hazard function *)

(** What the iteration over [ss] yields.  A pandas [Series], which is what
    [HazardFunction.MakeSurvival] stores in [ss], yields Python floats, and
    dividing them by zero raises [ZeroDivisionError]; a NumPy array, which
    is what [MakeSurvivalFromSeq] and [MakeSurvivalFromCdf] store, yields
    NumPy scalars, whose quotient by zero is [inf] or [nan]. *)
Inductive scalars : Set := PyFloats | NpFloats.

Definition scalar_div (k : scalars) (x y : num) : result num :=
  match k with
  | PyFloats => pydiv x y
  | NpFloats => Ok (x /ₙ y)
  end.

(** The loop of [SurvivalFunction.MakeHazardFunction].  The first divisor is
    the Python float [1.0]. *)
Fixpoint survival_hazard_loop (k : scalars) (items : list (Qc * num))
    (prev : num) (lams : Series) : result Series :=
  match items with
  | [] => Ok lams
  | (t, s) :: rest =>
      lam ← scalar_div k (prev -ₙ s) prev;
      survival_hazard_loop k rest s (Series_set lams t lam)
  end.

(** [SurvivalFunction.MakeHazardFunction(label)], for a survival function
    whose [ss] yields scalars of the kind [k]. *)
Definition MakeHazardFunction (k : scalars) (self : SurvivalFunction)
    (lbl : string) : result HazardFunction :=
  lams ← survival_hazard_loop k (zip (ts self) (ss self)) num_one
           (Series_new (ts self));
  Ok {| series := lams; hlabel := lbl |}.

(** The values the loop stores, one for each survival value. *)
Fixpoint hazard_values (prev : num) (ss : list num) : list num :=
  match ss with
  | [] => []
  | s :: rest => (prev -ₙ s) /ₙ prev :: hazard_values s rest
  end.

(** * Properties *)

(** ** Arithmetic on numbers *)

Lemma nadd_comm (x y : num) : x +ₙ y = y +ₙ x.
Proof. destruct x, y; simpl; try done. f_equal. ring. Qed.

Lemma nadd_assoc (x y z : num) : x +ₙ (y +ₙ z) = x +ₙ y +ₙ z.
Proof. destruct x, y, z; simpl; try done. f_equal. ring. Qed.

Lemma nadd_0_l (x : num) : num_zero +ₙ x = x.
Proof. destruct x; simpl; try done. f_equal. ring. Qed.

Lemma nadd_0_r (x : num) : x +ₙ num_zero = x.
Proof. by rewrite nadd_comm, nadd_0_l. Qed.

Lemma nadd_fin_inv (x y : num) (q : Qc) :
  x +ₙ y = Fin q → ∃ a b, x = Fin a ∧ y = Fin b ∧ q = (a + b)%Qc.
Proof. destruct x, y; simpl; try done. intros [= <-]. eauto. Qed.

Lemma neqb_eq_fin (x : num) (q : Qc) : neqb x (Fin q) = true ↔ x = Fin q.
Proof.
  destruct x; simpl; try (split; done).
  rewrite bool_decide_eq_true. split; congruence.
Qed.

Lemma pydiv_ok (x y : num) : neqb y num_zero = false → pydiv x y = Ok (x /ₙ y).
Proof. unfold pydiv. by intros ->. Qed.

(** ** The builtin [sum] *)

Lemma foldl_nadd_acc (a : num) (l : list num) :
  foldl nadd a l = a +ₙ pysum l.
Proof.
  unfold pysum. revert a. induction l as [|x l IH]; intros a; cbn [foldl].
  - by rewrite nadd_0_r.
  - rewrite (IH (a +ₙ x)), (IH (num_zero +ₙ x)), nadd_0_l. by rewrite !nadd_assoc.
Qed.

Lemma pysum_cons (x : num) (l : list num) : pysum (x :: l) = x +ₙ pysum l.
Proof. unfold pysum at 1. cbn [foldl]. by rewrite foldl_nadd_acc, nadd_0_l. Qed.

Lemma pysum_app (l k : list num) : pysum (l ++ k) = pysum l +ₙ pysum k.
Proof.
  induction l as [|x l IH]; cbn [app].
  - change (pysum []) with num_zero. by rewrite nadd_0_l.
  - by rewrite !pysum_cons, IH, nadd_assoc.
Qed.

Lemma pysum_perm (l k : list num) : l ≡ₚ k → pysum l = pysum k.
Proof.
  induction 1 as [|x l k _ IH|x y l|l k m _ IH1 _ IH2].
  - done.
  - by rewrite !pysum_cons, IH.
  - rewrite !pysum_cons, !nadd_assoc. f_equal. apply nadd_comm.
  - congruence.
Qed.

(** A finite sum has finite terms only. *)
Lemma pysum_fin_inv (l : list num) (q : Qc) :
  pysum l = Fin q → Forall (λ x, is_fin x = true) l.
Proof.
  revert q. induction l as [|x l IH]; intros q; [by constructor|].
  rewrite pysum_cons. intros (a & b & -> & Hb & _)%nadd_fin_inv.
  constructor; [done|]. by eapply IH.
Qed.

(** The sum of a list of rationals. *)
Lemma pysum_fin (l : list Qc) : pysum (Fin <$> l) = Fin (foldr Qcplus 0%Qc l).
Proof.
  induction l as [|x l IH]; [done|].
  rewrite fmap_cons, pysum_cons, IH. done.
Qed.

Lemma all_fin_fmap (l : list num) :
  Forall (λ x, is_fin x = true) l → ∃ ql : list Qc, l = Fin <$> ql.
Proof.
  induction 1 as [|x l Hx _ [ql ->]].
  - by exists [].
  - destruct x as [a| | |]; try done. by exists (a :: ql).
Qed.

(** ** Dictionaries *)

Section dict_wrapper_props.
Context `{Countable K}.
Implicit Types (m : gmap K num) (self : DictWrapper K) (k x : K).

Lemma values_insert_fresh m k (v : num) :
  m !! k = None → (map_to_list (<[k := v]> m)).*2 ≡ₚ v :: (map_to_list m).*2.
Proof. intros Hk. by rewrite map_to_list_insert. Qed.

Lemma msum_empty : pysum (map_to_list (∅ : gmap K num)).*2 = num_zero.
Proof. by rewrite map_to_list_empty. Qed.

Lemma msum_insert_fresh m k (v : num) :
  m !! k = None →
  pysum (map_to_list (<[k := v]> m)).*2 = v +ₙ pysum (map_to_list m).*2.
Proof.
  intros Hk. rewrite (pysum_perm _ _ (values_insert_fresh m k v Hk)).
  apply pysum_cons.
Qed.

Lemma msum_delete m k (v : num) :
  m !! k = Some v →
  pysum (map_to_list m).*2 = v +ₙ pysum (map_to_list (delete k m)).*2.
Proof.
  intros Hk. rewrite <-(insert_delete_id m k v Hk) at 1.
  apply msum_insert_fresh, lookup_delete_eq.
Qed.

(** Adding [t] to the entry at [k] (created at 0 when missing) adds [t] to
    the total. *)
Lemma msum_incr m k (t : num) :
  pysum (map_to_list (<[k := default num_zero (m !! k) +ₙ t]> m)).*2
  = pysum (map_to_list m).*2 +ₙ t.
Proof.
  destruct (m !! k) as [v|] eqn:Hk; cbn [default].
  - rewrite <-(insert_delete_eq m k), msum_insert_fresh by apply lookup_delete_eq.
    rewrite (msum_delete m k v Hk).
    rewrite <-!nadd_assoc. f_equal. apply nadd_comm.
  - rewrite msum_insert_fresh, nadd_0_l by done. apply nadd_comm.
Qed.

Lemma msum_fmap {A} (f : A → num) (m : gmap K A) :
  pysum (map_to_list (f <$> m)).*2 = pysum (f <$> (map_to_list m).*2).
Proof.
  apply pysum_perm. rewrite map_to_list_fmap.
  rewrite <-!list_fmap_compose. done.
Qed.

(** Every weight of a dictionary with a finite total is finite. *)
Lemma msum_fin_inv m (q : Qc) k (v : num) :
  pysum (map_to_list m).*2 = Fin q → m !! k = Some v → is_fin v = true.
Proof.
  intros Hq%pysum_fin_inv Hk. rewrite Forall_forall in Hq. apply Hq.
  apply list_elem_of_fmap. exists (k, v). split; [done|].
  by apply elem_of_map_to_list.
Qed.

(** A loop that rewrites the entry of each key of a duplicate-free list. *)
Lemma foldl_update_lookup (f : K → num → num) m (l : list K) k :
  NoDup l →
  foldl (λ m x, <[x := f x (default num_zero (m !! x))]> m) m l !! k
  = if bool_decide (k ∈ l) then Some (f k (default num_zero (m !! k)))
    else m !! k.
Proof.
  intros Hl. revert m. induction Hl as [|x l Hx _ IH]; intros m; cbn [foldl].
  - done.
  - rewrite IH. destruct (decide (k = x)) as [->|Hne].
    + rewrite (bool_decide_eq_false_2 _ Hx), lookup_insert_eq.
      by rewrite bool_decide_eq_true_2 by left.
    + rewrite lookup_insert_ne by done.
      destruct (decide (k ∈ l)) as [Hin|Hnin].
      * rewrite !bool_decide_eq_true_2; [done|by right|done].
      * rewrite !bool_decide_eq_false_2; [done| |done].
        by intros [?|?]%elem_of_cons.
Qed.

Lemma scale_all_fmap (factor : num) m :
  scale_all factor m = (λ p, p *ₙ factor) <$> m.
Proof.
  apply map_eq. intros k. unfold scale_all.
  rewrite (foldl_update_lookup (λ _ p, p *ₙ factor))
    by apply NoDup_fst_map_to_list.
  rewrite lookup_fmap. destruct (m !! k) as [v|] eqn:Hk; cbn.
  - rewrite bool_decide_eq_true_2; [done|].
    apply list_elem_of_fmap. exists (k, v). split; [done|].
    by apply elem_of_map_to_list.
  - rewrite bool_decide_eq_false_2; [done|].
    intros ([k' v] & -> & Hin%elem_of_map_to_list)%list_elem_of_fmap.
    cbn in Hk. congruence.
Qed.

End dict_wrapper_props.

(** ** [Pmf.Normalize] *)

Lemma pysum_scale_fin (c : Qc) (ql : list Qc) :
  pysum ((λ p, p *ₙ Fin c) <$> (Fin <$> ql))
  = Fin (foldr Qcplus 0%Qc ql * c)%Qc.
Proof.
  induction ql as [|a ql IH].
  - change (pysum _) with num_zero. unfold num_zero. f_equal. cbn [foldr]. ring.
  - rewrite !fmap_cons, pysum_cons, IH. cbn [foldr nmul nadd]. f_equal. ring.
Qed.

Section normalize_props.
Context `{Countable K}.
Implicit Types (self : DictWrapper K).

Lemma Normalize_unfold (fraction : num) self :
  log self = false → neqb (Total self) num_zero = false →
  Normalize fraction self
  = Ok (with_d self ((λ p, p *ₙ (fraction /ₙ Total self)) <$> d self),
        Total self).
Proof.
  intros Hlog Hz. unfold Normalize. rewrite Hlog, Hz, pydiv_ok by done.
  cbn. by rewrite scale_all_fmap.
Qed.

Lemma Normalize_raises (fraction : num) self :
  raises (Normalize fraction self) ↔ log self = true ∨ Total self = num_zero.
Proof.
  unfold raises, Normalize. destruct (log self) eqn:Hlog.
  { split; [by left|]. intros _. eauto. }
  destruct (neqb (Total self) num_zero) eqn:Hz.
  { split; [|intros _; eauto]. intros _. right. by apply neqb_eq_fin. }
  rewrite pydiv_ok by done. cbn. split.
  - by intros [e ?].
  - intros [?|Hz']; [done|]. apply neqb_eq_fin in Hz'. unfold num_zero in *. congruence.
Qed.

(** The weights of a finite dictionary, as rationals. *)
Lemma all_fin_values (m : gmap K num) :
  (∀ k v, m !! k = Some v → is_fin v = true) →
  ∃ ql : list Qc, (map_to_list m).*2 = Fin <$> ql.
Proof.
  intros Hfin. apply all_fin_fmap, Forall_forall.
  intros v ([k v'] & -> & Hin%elem_of_map_to_list)%list_elem_of_fmap.
  by eapply Hfin.
Qed.

Lemma Normalize_total (f : Qc) self self' (total : num) :
  (∀ k v, d self !! k = Some v → is_fin v = true) →
  Normalize (Fin f) self = Ok (self', total) →
  Total self' = Fin f.
Proof.
  intros Hfin Hn.
  destruct (log self) eqn:Hlog; [by unfold Normalize in Hn; rewrite Hlog in Hn|].
  destruct (neqb (Total self) num_zero) eqn:Hz;
    [by unfold Normalize in Hn; rewrite Hlog, Hz in Hn|].
  rewrite Normalize_unfold in Hn by done. injection Hn as <- <-.
  destruct (all_fin_values _ Hfin) as [ql Hql].
  unfold Total in *. cbn [d with_d]. rewrite msum_fmap, Hql in *.
  rewrite pysum_fin in *. cbn in Hz. apply bool_decide_eq_false in Hz.
  cbn [ndiv]. rewrite decide_False by done.
  rewrite pysum_scale_fin. f_equal. field. done.
Qed.

(** C5.  [Normalize(fraction)] raises exactly when the object is under a
    log transform or its total is zero.  Otherwise it returns the total as
    it was, multiplies every weight by [fraction / total], leaves the rest
    of the object alone, and (for a finite fraction and finite weights) the
    new total is [fraction]. *)
Theorem Normalize_spec (fraction : num) self :
  (raises (Normalize fraction self)
     ↔ log self = true ∨ Total self = num_zero) ∧
  (∀ self' total, Normalize fraction self = Ok (self', total) →
     total = Total self ∧
     d self' = (λ p, p *ₙ (fraction /ₙ total)) <$> d self ∧
     cls self' = cls self ∧ label self' = label self ∧
     log self' = log self ∧
     (is_fin fraction = true →
      (∀ k v, d self !! k = Some v → is_fin v = true) →
      Total self' = fraction)).
Proof.
  split; [apply Normalize_raises|].
  intros self' total Hn.
  assert (Hfinal : is_fin fraction = true →
      (∀ k v, d self !! k = Some v → is_fin v = true) →
      Total self' = fraction).
  { destruct fraction as [f| | |]; try done. intros _ Hfin.
    by eapply Normalize_total. }
  destruct (log self) eqn:Hlog; [by unfold Normalize in Hn; rewrite Hlog in Hn|].
  destruct (neqb (Total self) num_zero) eqn:Hz;
    [by unfold Normalize in Hn; rewrite Hlog, Hz in Hn|].
  rewrite Normalize_unfold in Hn by done. injection Hn as <- <-.
  by repeat split.
Qed.

End normalize_props.

Lemma Normalize_spec_witness :
  match Normalize num_one pmf_1_3 with
  | Ok (self', total) => total = Total pmf_1_3 ∧ Total self' = num_one
  | Raise _ => False
  end.
Proof.
  destruct (Normalize num_one pmf_1_3) as [[self' total]|e] eqn:Hn.
  - destruct (proj2 (Normalize_spec num_one pmf_1_3) _ _ Hn)
      as (Ht & _ & _ & _ & _ & Hone).
    split; [done|]. apply Hone; [done|].
    intros k v. unfold pmf_1_3. cbn [d].
    intros [[_ <-]|[_ [_ <-]%lookup_singleton_Some]]%lookup_insert_Some; done.
  - vm_compute in Hn. discriminate.
Defined.

(** ** [Hist.Subtract] *)

Section subtract_props.
Context `{Countable K}.
Implicit Types (self h g : DictWrapper K).

Lemma foldl_Incr_lookup (f : num → num) self (l : list (K * num)) (v : K) :
  NoDup l.*1 →
  d (foldl (λ s vf, Incr s vf.1 (f vf.2)) self l) !! v
  = match (list_to_map l : gmap K num) !! v with
    | Some t => Some (getitem self v +ₙ f t)
    | None => d self !! v
    end.
Proof.
  revert self. induction l as [|[k t] l IH]; intros self Hl; [done|].
  apply NoDup_cons in Hl as [Hk Hl]. cbn [foldl fst snd].
  rewrite IH by done. cbn [list_to_map foldr fst snd].
  destruct (decide (v = k)) as [->|Hne].
  - rewrite lookup_insert_eq, (not_elem_of_list_to_map_1 _ _ Hk).
    unfold Incr. cbn [d with_d]. by rewrite lookup_insert_eq.
  - rewrite lookup_insert_ne by done. unfold getitem, Incr. cbn [d with_d].
    by rewrite lookup_insert_ne by done.
Qed.

Lemma Subtract_lookup h g (v : K) :
  d (Subtract h g) !! v
  = match d g !! v with
    | Some f => Some (Freq h v -ₙ f)
    | None => d h !! v
    end.
Proof.
  unfold Subtract, Items.
  rewrite foldl_Incr_lookup by apply NoDup_fst_map_to_list.
  by rewrite list_to_map_to_list.
Qed.

(** C9.  [h.Subtract(g)] sets the frequency of every value of [g] to the
    frequency [h] had (0 when [h] has no entry) minus the frequency in [g],
    and leaves the other entries alone; the result has an entry for every
    value of [h] and of [g], also where the difference is zero.  Nothing
    keeps the result above zero: where [g] counts more than [h] did, the
    new frequency is negative.  The statement is on the dictionaries
    themselves. *)
Theorem Hist_Subtract_spec h g :
  (∀ v, d (Subtract h g) !! v
        = match d g !! v with
          | Some f => Some (default num_zero (d h !! v) -ₙ f)
          | None => d h !! v
          end) ∧
  (∀ v a b, d h !! v = Some a → d g !! v = Some b →
        d (Subtract h g) !! v = Some (a -ₙ b)) ∧
  (∀ v b, d h !! v = None → d g !! v = Some b →
        d (Subtract h g) !! v = Some (num_zero -ₙ b)) ∧
  (∀ v, is_Some (d (Subtract h g) !! v)
        ↔ is_Some (d h !! v) ∨ is_Some (d g !! v)) ∧
  (∀ v (a b : Qc),
        default num_zero (d h !! v) = Fin a → d g !! v = Some (Fin b) →
        (a < b)%Qc →
        ∃ c, d (Subtract h g) !! v = Some (Fin c) ∧ (c < 0)%Qc).
Proof.
  assert (Hlk : ∀ v, d (Subtract h g) !! v
                     = match d g !! v with
                       | Some f => Some (default num_zero (d h !! v) -ₙ f)
                       | None => d h !! v
                       end) by exact (Subtract_lookup h g).
  split; [done|]. split; [|split; [|split]].
  - intros v a b Ha Hb. by rewrite Hlk, Hb, Ha.
  - intros v b Ha Hb. by rewrite Hlk, Hb, Ha.
  - intros v. rewrite Hlk. destruct (d g !! v) as [f|].
    + split; [intros _; right; by eexists|intros _; by eexists].
    + split; [by left|]. by intros [?|[? ?]].
  - intros v a b Ha Hb Hlt. exists (a + - b)%Qc. rewrite Hlk, Hb, Ha.
    split; [reflexivity|]. apply (proj2 (Qclt_minus_iff _ _)).
    replace (0 + - (a + - b))%Qc with (b + - a)%Qc by ring.
    by apply (proj1 (Qclt_minus_iff a b)).
Qed.

End subtract_props.

(** [{7: 1}] minus [{7: 3}] is [{7: -2}]. *)
Lemma Hist_Subtract_spec_witness :
  d (Subtract hist_one hist_three) !! Qc_of_Z 7 = Some (of_Z 1 -ₙ of_Z 3) ∧
  ∃ c, d (Subtract hist_one hist_three) !! Qc_of_Z 7 = Some (Fin c) ∧ (c < 0)%Qc.
Proof.
  destruct (Hist_Subtract_spec hist_one hist_three) as (_ & Hsub & _ & _ & Hneg).
  split.
  - apply Hsub; reflexivity.
  - apply (Hneg (Qc_of_Z 7) (Qc_of_Z 1) (Qc_of_Z 3)).
    + reflexivity.
    + reflexivity.
    + by apply Z2Qc_inj_lt.
Defined.

(** ** Lookups in an empty [Cdf] *)

(** C10.  The constructor makes the empty [Cdf] from nothing, from an empty
    sequence and from an empty dictionary.  On a [Cdf] whose arrays are empty,
    [Prob] raises an index error at every [x], [Value] raises an index error
    at every [p] of [[0,1]], and [Value] returns at no [p] at all. *)
Theorem empty_Cdf_lookups_raise :
  (∀ lbl, Cdf_init CdfNone lbl = Ok (mkCdf [] [] (default DEFAULT_LABEL lbl))) ∧
  (∀ lbl, Cdf_init (CdfOf (SrcList [])) lbl
          = Ok (mkCdf [] [] (default DEFAULT_LABEL lbl))) ∧
  (∀ lbl, Cdf_init (CdfOf (SrcDict ∅)) lbl
          = Ok (mkCdf [] [] (default DEFAULT_LABEL lbl))) ∧
  (∀ lbl x, Cdf_Prob (mkCdf [] [] lbl) x = Raise IndexError) ∧
  (∀ lbl p, nleb num_zero p && nleb p num_one = true →
            Cdf_Value (mkCdf [] [] lbl) p = Raise IndexError) ∧
  (∀ lbl p, raises (Cdf_Value (mkCdf [] [] lbl) p)).
Proof.
  split; [done|]. split; [intros lbl; by vm_compute|].
  split; [intros lbl; by vm_compute|].
  split; [done|].
  assert (Hv : ∀ lbl p, nltb p num_zero || nltb num_one p = false →
            Cdf_Value (mkCdf [] [] lbl) p = Raise IndexError).
  { intros lbl p Hp. unfold Cdf_Value. by rewrite Hp. }
  split.
  - intros lbl p Hp. apply Hv.
    destruct p as [q| | |]; try done.
    unfold nleb, nltb, neqb, num_zero, num_one in *.
    apply andb_true_iff in Hp as [H0 H1].
    apply orb_true_iff in H0, H1. apply orb_false_iff.
    rewrite !bool_decide_eq_false. rewrite !bool_decide_eq_true in H0, H1.
    split; apply Qcle_not_lt.
    + destruct H0 as [? | <-]; [by apply Qclt_le_weak|apply Qcle_refl].
    + destruct H1 as [? | ->]; [by apply Qclt_le_weak|apply Qcle_refl].
  - intros lbl p. destruct (nltb p num_zero || nltb num_one p) eqn:Hp.
    + unfold Cdf_Value. rewrite Hp. by eexists.
    + rewrite Hv by done. by eexists.
Qed.

Lemma empty_Cdf_lookups_raise_witness :
  Cdf_Value (mkCdf [] [] DEFAULT_LABEL) (Fin (Qc_of_Z 1 / Qc_of_Z 2)%Qc)
  = Raise IndexError.
Proof.
  apply (proj1 (proj2 (proj2 (proj2 (proj2 empty_Cdf_lookups_raise))))).
  by vm_compute.
Defined.

(** ** The constructors never fail on a sequence *)

Lemma dict_update_lookup `{Countable K} {V} (m : gmap K V) (l : list (K * V)) k :
  NoDup l.*1 →
  dict_update m l !! k
  = match (list_to_map l : gmap K V) !! k with
    | Some v => Some v
    | None => m !! k
    end.
Proof.
  unfold dict_update. revert m.
  induction l as [|[k' v] l IH]; intros m Hl;
    [cbn; by rewrite lookup_empty|].
  apply NoDup_cons in Hl as [Hk Hl]. cbn [foldl fst snd].
  rewrite IH by done. cbn [list_to_map foldr fst snd].
  destruct (decide (k = k')) as [->|Hne].
  - by rewrite lookup_insert_eq, (not_elem_of_list_to_map_1 _ _ Hk),
      lookup_insert_eq.
  - by rewrite !lookup_insert_ne by done.
Qed.

Lemma dict_update_empty `{Countable K} {V} (m : gmap K V) :
  dict_update ∅ (map_to_list m) = m.
Proof.
  apply map_eq. intros k.
  rewrite dict_update_lookup by apply NoDup_fst_map_to_list.
  rewrite list_to_map_to_list, lookup_empty. by destruct (m !! k).
Qed.

Lemma init_not_Pmf `{Countable K} (c : kind) (o : source K) lbl :
  is_Pmf c = false →
  init c (Some o) lbl
  = items ← source_items o;
    Ok {| cls := c; d := dict_update ∅ items;
          label := match o with
                   | SrcWrapper w => default (label w) lbl
                   | SrcCdf cdf => default (clabel cdf) lbl
                   | _ => default DEFAULT_LABEL lbl
                   end;
          log := false |}.
Proof.
  intros Hc. unfold init. destruct (source_items o) as [items|e]; [|done].
  destruct o; cbn; by rewrite Hc, andb_false_r.
Qed.

Lemma Hist_of_list `{Countable K} (l : list K) lbl :
  init KHist (Some (SrcList l)) lbl
  = Ok {| cls := KHist; d := of_Z <$> Counter l;
          label := default DEFAULT_LABEL lbl; log := false |}.
Proof. rewrite init_not_Pmf by done. cbn. by rewrite dict_update_empty. Qed.

Lemma cumsum_from_length (acc : num) (l : list num) :
  length (cumsum_from acc l) = length l.
Proof. revert acc. induction l; intros acc; cbn; [done|]. by rewrite IHl. Qed.

Lemma np_index_last {A} (l : list A) :
  l ≠ [] → ∃ x, np_index l (-1) = Ok x ∧ last l = Some x.
Proof.
  intros Hl. unfold np_index. cbv zeta.
  assert (0 < length l)%nat by (destruct l; [done|cbn; lia]).
  rewrite (bool_decide_eq_true_2 (-1 < 0)) by lia.
  rewrite bool_decide_eq_true_2 by lia.
  replace (Z.to_nat (Z.of_nat (length l) + -1)) with (pred (length l)) by lia.
  rewrite <-last_lookup. destruct (last l) as [x|] eqn:Hx; [eauto|].
  by apply last_None in Hx.
Qed.

Lemma sorted_items_length (w : DictWrapper Qc) :
  length (sorted_items w) = size (d w).
Proof.
  unfold sorted_items, Items.
  by rewrite (Permutation_length (merge_sort_Permutation _ _)), length_map_to_list.
Qed.

(** A [Cdf] of an object that is given as it is (a [Hist], a [Pmf]) is
    always made. *)
Lemma Cdf_of_wrapper (w : DictWrapper Qc) lbl :
  ∃ c, Cdf_init (CdfOf (SrcWrapper w)) lbl = Ok c ∧
       xs c = (sorted_items w).*1 ∧
       (size (d w) = 0%nat → ps c = []) ∧
       (size (d w) ≠ 0%nat →
          ∃ total, last (cumsum (sorted_items w).*2) = Some total ∧
                   ps c = (λ p, p /ₙ total) <$> cumsum (sorted_items w).*2).
Proof.
  unfold Cdf_init. cbn. unfold len. case_bool_decide as Hlen.
  - assert (Hs : size (d w) = 0%nat) by lia.
    eexists. split; [done|]. cbn.
    assert (sorted_items w = []) as ->
      by (apply length_zero_iff_nil; by rewrite sorted_items_length).
    split; [done|]. split; done.
  - assert (Hne : cumsum (sorted_items w).*2 ≠ []).
    { intros Hnil%length_zero_iff_nil. unfold cumsum in Hnil.
      rewrite cumsum_from_length, length_fmap, sorted_items_length in Hnil. lia. }
    destruct (np_index_last _ Hne) as (total & -> & Hlast).
    eexists. split; [done|]. cbn. split; [done|]. split; [lia|]. eauto.
Qed.

Lemma Cdf_of_list (l : list Qc) lbl :
  Cdf_init (CdfOf (SrcList l)) lbl
  = Cdf_init (CdfOf (SrcWrapper
      {| cls := KHist; d := of_Z <$> Counter l;
         label := DEFAULT_LABEL; log := false |})) (Some (default DEFAULT_LABEL lbl)).
Proof. unfold Cdf_init. by rewrite Hist_of_list. Qed.

Lemma Cdf_of_list_returns (l : list Qc) lbl :
  returns (Cdf_init (CdfOf (SrcList l)) lbl).
Proof.
  rewrite Cdf_of_list. destruct (Cdf_of_wrapper
    {| cls := KHist; d := of_Z <$> Counter l;
       label := DEFAULT_LABEL; log := false |} (Some (default DEFAULT_LABEL lbl)))
    as (c & -> & _). by exists c.
Qed.

(** ** [HypothesisTest.PValue] *)

Section hypothesis_test_props.
Context {Data Model Rng : Type}.
Variable MakeModel : Data → Model.
Variable TestStatistic : Model → Data → Qc.
Variable RunModel : Model → Data → Rng → Data * Rng.

Local Abbreviation run := (run_tests TestStatistic RunModel).
Local Abbreviation pvalue := (PValue TestStatistic RunModel).

Lemma run_tests_length (self : HypothesisTest) (n : nat) (g : Rng) :
  length (run self n g).1 = n.
Proof.
  revert g. induction n as [|n IH]; intros g; cbn; [done|].
  destruct (RunModel _ _ g) as [sim g']. specialize (IH g').
  destruct (run self n g') as [rest g'']. cbn in *. by rewrite IH.
Qed.

(** No iterations: the division [count / iters] is a division by zero. *)
Lemma PValue_zero (self : HypothesisTest) (g : Rng) :
  pvalue 0 self g = Raise ZeroDivisionError.
Proof.
  unfold PValue, PValue_state. change (Z.to_nat 0) with O.
  cbn [run_tests].
  destruct (Cdf_of_list_returns [] None) as [c ->]. done.
Qed.

(** C3, for at least one iteration.  The statistic of the data is
    computed by the constructor, and [PValue(iters)] leaves it as it is,
    stores [iters] simulated statistics (each the statistic of one run of
    the model) and returns the number of them that reach the actual
    statistic, divided by [iters]. *)
Theorem PValue_spec (iters : Z) (self : HypothesisTest) (g : Rng) :
  0 < iters →
  let stats := (run self (Z.to_nat iters) g).1 in
  (∀ dat, actual (HypothesisTest_init MakeModel TestStatistic dat)
          = TestStatistic (MakeModel dat) dat) ∧
  ∃ self' g',
    pvalue iters self g
    = Ok (self',
          Fin (Qc_of_Z (count_ge stats (actual self)) / Qc_of_Z iters)%Qc,
          g') ∧
    actual self' = actual self ∧
    data self' = data self ∧
    model self' = model self ∧
    test_stats self' = Some stats ∧
    Z.of_nat (length stats) = iters.
Proof.
  intros Hpos stats. split; [done|].
  assert (Hlen : Z.of_nat (length stats) = iters).
  { unfold stats. rewrite run_tests_length. lia. }
  unfold PValue, PValue_state. fold stats.
  destruct (run self (Z.to_nat iters) g) as [stats' g'] eqn:Hrun.
  cbn [fst] in stats. subst stats.
  destruct (Cdf_of_list_returns stats' None) as [c ->]. cbn.
  assert (Hnz : Qc_of_Z iters ≠ 0%Qc).
  { rewrite <-Z2Qc_inj_0. intros ->%Z2Qc_inj. lia. }
  unfold pydiv, of_Z, num_zero. cbn [neqb ndiv].
  rewrite bool_decide_eq_false_2 by done. rewrite decide_False by done.
  cbn. eexists _, _. split; [reflexivity|]. done.
Qed.

End hypothesis_test_props.

Lemma PValue_spec_witness :
  ∃ self' p g',
    PValue coin_TestStatistic coin_RunModel 3 coin_test coin_flips
    = Ok (self', p, g') ∧
    actual self' = Qc_of_Z 2 ∧
    (length <$> test_stats self') = Some 3%nat.
Proof.
  destruct (PValue_spec coin_MakeModel coin_TestStatistic coin_RunModel
              3 coin_test coin_flips) as (_ & self' & g' & Hp & Ha & _ & _ & Hs & Hl);
    [lia|].
  eexists self', _, g'. split; [exact Hp|]. split; [by rewrite Ha|].
  rewrite Hs. reflexivity.
Defined.

(** With no iterations [PValue] raises instead of returning a p-value. *)
Lemma PValue_zero_iterations_raises :
  PValue coin_TestStatistic coin_RunModel 0 coin_test coin_flips
  = Raise ZeroDivisionError ∧
  ¬ returns (PValue coin_TestStatistic coin_RunModel 0 coin_test coin_flips).
Proof.
  rewrite PValue_zero. split; [done|]. by intros [a ?].
Qed.


(** ** [AddPmf] and [SubPmf] *)

Section accumulate.
Implicit Types (pmf self other : DictWrapper Qc) (l : list (Qc * num)).

Lemma terms_at_cons k k' (t : num) l :
  terms_at k ((k', t) :: l)
  = if decide (k' = k) then t :: terms_at k l else terms_at k l.
Proof. unfold terms_at. rewrite filter_cons. cbn. by destruct (decide (k' = k)). Qed.

(** A run of [Incr]: the entry at [k] receives, from the left, the terms
    that belong to [k]; an entry that receives no term is left as it was. *)
Lemma foldl_Incr_terms pmf l (k : Qc) :
  d (foldl (λ pmf kt, Incr pmf kt.1 kt.2) pmf l) !! k
  = match terms_at k l with
    | [] => d pmf !! k
    | ts => Some (foldl nadd (getitem pmf k) ts)
    end.
Proof.
  revert pmf. induction l as [|[k' t] l IH]; intros pmf; [done|].
  cbn [foldl fst snd]. rewrite IH, terms_at_cons.
  unfold getitem, Incr. cbn [d with_d].
  destruct (decide (k' = k)) as [->|Hne].
  - rewrite lookup_insert_eq. cbn [default foldl].
    by destruct (terms_at k l).
  - by rewrite lookup_insert_ne by done.
Qed.

(** The order in which the pairs are visited does not matter to the sum an
    entry receives. *)
Lemma terms_at_perm k l l' :
  l ≡ₚ l' → pysum (terms_at k l) = pysum (terms_at k l').
Proof. intros Hl. apply pysum_perm. unfold terms_at. by rewrite Hl. Qed.

Lemma foldl_Incr_Total pmf l :
  Total (foldl (λ pmf kt, Incr pmf kt.1 kt.2) pmf l) = Total pmf +ₙ pysum l.*2.
Proof.
  revert pmf. induction l as [|[k t] l IH]; intros pmf.
  - change (pysum _) with num_zero. by rewrite nadd_0_r.
  - cbn [foldl fst snd]. rewrite IH, fmap_cons, pysum_cons. cbn [snd].
    unfold Total, Incr, getitem. cbn [d with_d].
    by rewrite msum_incr, nadd_assoc.
Qed.

Lemma foldl_Incr_fields pmf l :
  cls (foldl (λ pmf kt, Incr pmf kt.1 kt.2) pmf l) = cls pmf ∧
  label (foldl (λ pmf kt, Incr pmf kt.1 kt.2) pmf l) = label pmf ∧
  log (foldl (λ pmf kt, Incr pmf kt.1 kt.2) pmf l) = log pmf.
Proof.
  revert pmf. induction l as [|[k t] l IH]; intros pmf; [done|].
  cbn [foldl]. by destruct (IH (Incr pmf (k, t).1 (k, t).2)) as (-> & -> & ->).
Qed.

(** The two nested loops visit the pairs in the order of [pair_terms]. *)
Lemma nested_loops (op : Qc → Qc → Qc) (la lb : list (Qc * num)) pmf :
  foldl (λ pmf vp1,
    foldl (λ pmf vp2, Incr pmf (op vp1.1 vp2.1) (vp1.2 *ₙ vp2.2)) pmf lb)
    pmf la
  = foldl (λ pmf kt, Incr pmf kt.1 kt.2) pmf
      (vp1 ← la; vp2 ← lb; [(op vp1.1 vp2.1, vp1.2 *ₙ vp2.2)]).
Proof.
  revert pmf. induction la as [|vp1 la IH]; intros pmf; [done|].
  cbn [foldl]. rewrite bind_cons, foldl_app, IH. f_equal.
  clear IH. revert pmf. induction lb as [|vp2 lb IH]; intros pmf; [done|].
  cbn [foldl]. by rewrite bind_cons, IH.
Qed.

Lemma AddPmf_fold self other :
  AddPmf self other
  = foldl (λ pmf kt, Incr pmf kt.1 kt.2) Pmf_new (pair_terms Qcplus self other).
Proof. unfold AddPmf, pair_terms. by rewrite <-nested_loops. Qed.

Lemma SubPmf_fold self other :
  SubPmf self other
  = foldl (λ pmf kt, Incr pmf kt.1 kt.2) Pmf_new (pair_terms Qcminus self other).
Proof. unfold SubPmf, pair_terms. by rewrite <-nested_loops. Qed.

Lemma pysum_scale_l_fin (a : Qc) (lb : list (Qc * num)) (qb : list Qc)
    (op : Qc → Qc) :
  lb.*2 = Fin <$> qb →
  pysum (vp2 ← lb; [(op vp2.1, Fin a *ₙ vp2.2)]).*2
  = Fin (a * foldr Qcplus 0%Qc qb)%Qc.
Proof.
  revert qb. induction lb as [|[v p] lb IH]; intros [|b qb] Hq; try done.
  - change (pysum _) with num_zero. unfold num_zero. f_equal. cbn [foldr]. ring.
  - cbn in Hq. injection Hq as -> Hq.
    rewrite bind_cons, fmap_app, pysum_app, (IH qb Hq).
    cbn. unfold pysum. cbn. f_equal. ring.
Qed.

(** The products of two lists of finite weights add up to the product of
    their sums. *)
Lemma pysum_pairs_fin (op : Qc → Qc → Qc) (la lb : list (Qc * num))
    (qa qb : list Qc) :
  la.*2 = Fin <$> qa → lb.*2 = Fin <$> qb →
  pysum (vp1 ← la; vp2 ← lb; [(op vp1.1 vp2.1, vp1.2 *ₙ vp2.2)]).*2
  = Fin (foldr Qcplus 0%Qc qa * foldr Qcplus 0%Qc qb)%Qc.
Proof.
  intros Ha Hb. revert qa Ha.
  induction la as [|[v p] la IH]; intros [|a qa] Ha; try done.
  - change (pysum _) with num_zero. unfold num_zero. f_equal. cbn [foldr]. ring.
  - cbn in Ha. injection Ha as -> Ha.
    rewrite bind_cons, fmap_app, pysum_app, (IH qa Ha). cbn [fst snd].
    rewrite (pysum_scale_l_fin a lb qb (op v) Hb).
    cbn. f_equal. ring.
Qed.

Lemma Total_fin_values self (q : Qc) :
  Total self = Fin q →
  ∃ ql, (Items self).*2 = Fin <$> ql ∧ foldr Qcplus 0%Qc ql = q.
Proof.
  intros Hq. unfold Total in Hq. destruct (all_fin_values (d self)) as [ql Hql].
  { intros k v. by eapply msum_fin_inv. }
  exists ql. split; [done|]. rewrite Hql, pysum_fin in Hq. congruence.
Qed.

Lemma Total_pairs (op : Qc → Qc → Qc) self other (a b : Qc) :
  Total self = Fin a → Total other = Fin b →
  Total (foldl (λ pmf kt, Incr pmf kt.1 kt.2) Pmf_new (pair_terms op self other))
  = Fin (a * b)%Qc.
Proof.
  intros (qa & Ha & <-)%Total_fin_values (qb & Hb & <-)%Total_fin_values.
  rewrite foldl_Incr_Total. unfold pair_terms.
  rewrite (pysum_pairs_fin op _ _ qa qb Ha Hb).
  unfold Total, Pmf_new. cbn [d]. by rewrite msum_empty, nadd_0_l.
Qed.

End accumulate.

Lemma Items_singleton `{Countable K} (w : DictWrapper K) (k : K) (x : num) :
  d w = {[ k := x ]} → Items w = [(k, x)].
Proof. unfold Items. intros ->. apply map_to_list_singleton. Qed.

Lemma Total_point_mass (v : Qc) : Total (point_mass v) = num_one.
Proof.
  unfold Total, point_mass. cbn [d]. rewrite map_to_list_singleton.
  cbn [fmap list_fmap snd]. by rewrite pysum_cons, nadd_0_r.
Qed.

(** C1.  [AddPmf] and [SubPmf] return a fresh [Pmf] whose entry at a key [k]
    is the sum, from 0 and in the order of the two loops, of the products
    [p1 * p2] of all the pairs with [v1 + v2 = k] (with [v1 - v2 = k]); a
    key that no pair reaches is absent.  Nothing is normalized: finite
    totals [a] and [b] give the total [a * b].  So the point masses at 0 and
    at [v] give the point mass at [v] (at [-v]), and two operands that sum
    to 1 give a result that sums to 1. *)
Theorem AddPmf_SubPmf_spec (self other : DictWrapper Qc) :
  (∀ k, d (AddPmf self other) !! k
        = match terms_at k (pair_terms Qcplus self other) with
          | [] => None
          | ts => Some (pysum ts)
          end) ∧
  (∀ k, d (SubPmf self other) !! k
        = match terms_at k (pair_terms Qcminus self other) with
          | [] => None
          | ts => Some (pysum ts)
          end) ∧
  (cls (AddPmf self other) = KPmf ∧ log (AddPmf self other) = false ∧
   cls (SubPmf self other) = KPmf ∧ log (SubPmf self other) = false) ∧
  (∀ a b : Qc, Total self = Fin a → Total other = Fin b →
     Total (AddPmf self other) = Fin (a * b)%Qc ∧
     Total (SubPmf self other) = Fin (a * b)%Qc) ∧
  (∀ v : Qc, d self = {[ 0%Qc := num_one ]} → d other = {[ v := num_one ]} →
     d (AddPmf self other) = {[ v := num_one ]} ∧
     d (SubPmf self other) = {[ (- v)%Qc := num_one ]}) ∧
  (Total self = num_one → Total other = num_one →
     Total (AddPmf self other) = num_one ∧ Total (SubPmf self other) = num_one).
Proof.
  assert (Htot : ∀ a b : Qc, Total self = Fin a → Total other = Fin b →
     Total (AddPmf self other) = Fin (a * b)%Qc ∧
     Total (SubPmf self other) = Fin (a * b)%Qc).
  { intros a b Ha Hb. rewrite AddPmf_fold, SubPmf_fold.
    split; by apply Total_pairs. }
  split; [|split; [|split; [|split; [done|split]]]].
  - intros k. rewrite AddPmf_fold, foldl_Incr_terms.
    by destruct (terms_at k _).
  - intros k. rewrite SubPmf_fold, foldl_Incr_terms.
    by destruct (terms_at k _).
  - rewrite AddPmf_fold, SubPmf_fold.
    destruct (foldl_Incr_fields Pmf_new (pair_terms Qcplus self other))
      as (-> & _ & ->).
    by destruct (foldl_Incr_fields Pmf_new (pair_terms Qcminus self other))
      as (-> & _ & ->).
  - intros v Hself Hother. split.
    + unfold AddPmf.
      rewrite (Items_singleton self _ _ Hself), (Items_singleton other _ _ Hother).
      cbn [foldl fst snd]. unfold iadd_item, Set_, getitem, Pmf_new.
      cbn [d with_d]. rewrite lookup_empty, insert_empty. cbn [default].
      replace (0 + v)%Qc with v by ring.
      f_equal; try (unfold num_one, num_zero; cbn; f_equal; ring).
    + unfold SubPmf.
      rewrite (Items_singleton self _ _ Hself), (Items_singleton other _ _ Hother).
      cbn [foldl fst snd]. unfold Incr, getitem, Pmf_new.
      cbn [d with_d]. rewrite lookup_empty, insert_empty. cbn [default].
      replace (0 - v)%Qc with (- v)%Qc by ring.
      f_equal; try (unfold num_one, num_zero; cbn; f_equal; ring).
  - intros Hself Hother.
    destruct (Htot 1%Qc 1%Qc Hself Hother) as [-> ->].
    unfold num_one. split; f_equal; ring.
Qed.

Lemma AddPmf_SubPmf_spec_witness :
  (d (AddPmf (point_mass 0%Qc) (point_mass (Qc_of_Z 5)))
     = {[ Qc_of_Z 5 := num_one ]} ∧
   d (SubPmf (point_mass 0%Qc) (point_mass (Qc_of_Z 5)))
     = {[ (- Qc_of_Z 5)%Qc := num_one ]}) ∧
  (Total (AddPmf (point_mass 0%Qc) (point_mass (Qc_of_Z 5))) = num_one ∧
   Total (SubPmf (point_mass 0%Qc) (point_mass (Qc_of_Z 5))) = num_one).
Proof.
  destruct (AddPmf_SubPmf_spec (point_mass 0%Qc) (point_mass (Qc_of_Z 5)))
    as (_ & _ & _ & _ & Hpoint & Hone).
  split.
  - apply Hpoint; reflexivity.
  - apply Hone; apply Total_point_mass.
Defined.

(** ** The constructor of a [Pmf] *)

Section init_props.
Context `{Countable K}.
Implicit Types (self src w : DictWrapper K) (o : source K).

Lemma of_Z_add (a b : Z) : of_Z (a + b) = of_Z a +ₙ of_Z b.
Proof. unfold of_Z. cbn. f_equal. apply Z2Qc_inj_add. Qed.

Lemma of_Z_0 : of_Z 0 = num_zero.
Proof. unfold of_Z, num_zero. f_equal. apply Z2Qc_inj_0. Qed.

(** The counts of a [Counter] add up to the length of the sequence. *)
Lemma Counter_fold_total (l : list K) (m : gmap K Z) :
  pysum (map_to_list (of_Z <$>
           foldl (λ m x, <[x := default 0 (m !! x) + 1]> m) m l)).*2
  = pysum (map_to_list (of_Z <$> m)).*2 +ₙ of_Z (Z.of_nat (length l)).
Proof.
  revert m. induction l as [|x l IH]; intros m.
  - cbn [foldl length]. change (Z.of_nat 0) with 0. by rewrite of_Z_0, nadd_0_r.
  - cbn [foldl length]. rewrite IH, fmap_insert.
    replace (of_Z (default 0 (m !! x) + 1))
      with (default num_zero ((of_Z <$> m) !! x) +ₙ of_Z 1).
    + rewrite msum_incr, <-nadd_assoc, <-of_Z_add. do 2 f_equal. lia.
    + rewrite lookup_fmap, of_Z_add.
      destruct (m !! x); [done|].
      cbn [default fmap option_fmap option_map]. by rewrite of_Z_0.
Qed.

Lemma Counter_total (l : list K) :
  pysum (map_to_list (of_Z <$> Counter l)).*2 = of_Z (Z.of_nat (length l)).
Proof.
  unfold Counter. rewrite Counter_fold_total, fmap_empty, msum_empty.
  apply nadd_0_l.
Qed.

Lemma of_Z_neq_0 (n : Z) : n ≠ 0 → neqb (of_Z n) num_zero = false.
Proof.
  intros Hn. unfold of_Z, num_zero. cbn. apply bool_decide_eq_false.
  rewrite <-Z2Qc_inj_0. by intros ?%Z2Qc_inj.
Qed.

Lemma dict_update_elem {V} (m : gmap K V) (l : list (K * V)) k (v : V) :
  dict_update m l !! k = Some v → (k, v) ∈ l ∨ m !! k = Some v.
Proof.
  unfold dict_update. revert m.
  induction l as [|[k' v'] l IH]; intros m; [by right|].
  cbn [foldl fst snd]. intros [?|Hm]%IH; [left; by right|].
  apply lookup_insert_Some in Hm as [[-> ->]|[_ ?]]; [left; by left|by right].
Qed.

Lemma init_unfold (c : kind) o lbl (items : list (K * num)) :
  source_items o = Ok items →
  init c (Some o) lbl
  = if bool_decide (0 < len (init_copy c o lbl items)) && is_Pmf c
    then r ← Normalize num_one (init_copy c o lbl items); Ok r.1
    else Ok (init_copy c o lbl items).
Proof. intros Hitems. unfold init. rewrite Hitems. by destruct o. Qed.

End init_props.

Section init_spec.
Context `{Countable K}.
Implicit Types (self src w : DictWrapper K) (o : source K).

Lemma init_copy_fin (c : kind) o lbl (items : list (K * num)) :
  Forall (λ kv, is_fin kv.2 = true) items →
  ∀ k v, d (init_copy c o lbl items) !! k = Some v → is_fin v = true.
Proof.
  intros Hfin k v [Hin|Hemp]%dict_update_elem.
  - rewrite Forall_forall in Hfin. by apply (Hfin (k, v)).
  - by rewrite lookup_empty in Hemp.
Qed.

Lemma init_Pmf_list (l : list K) lbl :
  l ≠ [] →
  ∃ w, init KPmf (Some (SrcList l)) lbl = Ok w ∧ Total w = num_one ∧
       d w = (λ p, p *ₙ (num_one /ₙ of_Z (Z.of_nat (length l))))
               <$> (of_Z <$> Counter l).
Proof.
  intros Hl.
  assert (Hlen : Z.of_nat (length l) ≠ 0) by (destruct l; [done|cbn; lia]).
  set (self := init_copy KPmf (SrcList l) lbl
                 (map_to_list (of_Z <$> Counter l))).
  assert (Hd : d self = of_Z <$> Counter l) by apply dict_update_empty.
  assert (Htot : Total self = of_Z (Z.of_nat (length l))).
  { unfold Total. rewrite Hd. apply Counter_total. }
  assert (Hnz : neqb (Total self) num_zero = false)
    by (rewrite Htot; by apply of_Z_neq_0).
  assert (Hsize : 0 < len self).
  { unfold len. destruct (size (d self)) eqn:Hs; [|lia].
    apply map_size_empty_inv in Hs. unfold Total in Hnz.
    by rewrite Hs, msum_empty in Hnz. }
  rewrite (init_unfold KPmf (SrcList l) lbl
             (map_to_list (of_Z <$> Counter l)) eq_refl). fold self.
  rewrite bool_decide_eq_true_2 by done. cbn [is_Pmf andb].
  rewrite Normalize_unfold by done. cbn [mbind result_bind fst].
  eexists. split; [reflexivity|]. split.
  - eapply (Normalize_total 1%Qc self); [|by apply Normalize_unfold].
    intros k v. rewrite Hd, lookup_fmap.
    destruct (Counter l !! k); cbn; [|done]. by intros [= <-].
  - cbn [d with_d]. by rewrite Htot, Hd.
Qed.

(** C4, as the constructor behaves.  A [Pmf] made from a non-empty sequence
    is normalized: its weights are the counts divided by the length and they
    sum to 1.  So is a [Pmf] made from any other source that is not empty, a
    dictionary or another [Hist], [Pmf] or [Cdf] included: whenever the
    constructor returns a non-empty [Pmf] (from finite weights), it sums to
    1, and a non-empty source whose total is zero makes the constructor
    raise.  Only a [Pmf] made from nothing or from an empty source is left
    as it is; and an object that is not a [Pmf] is never normalized. *)
Theorem Pmf_init_spec :
  (∀ (l : list K) lbl, l ≠ [] →
     ∃ w, init KPmf (Some (SrcList l)) lbl = Ok w ∧ Total w = num_one ∧
          d w = (λ p, p *ₙ (num_one /ₙ of_Z (Z.of_nat (length l))))
                  <$> (of_Z <$> Counter l)) ∧
  (∀ c o lbl items w,
     is_Pmf c = true → source_items o = Ok items →
     Forall (λ kv, is_fin kv.2 = true) items →
     init c (Some o) lbl = Ok w → d w ≠ ∅ → Total w = num_one) ∧
  (∀ c src lbl,
     is_Pmf c = true → d src ≠ ∅ → Total src = num_zero →
     init c (Some (SrcWrapper src)) lbl
     = Raise (ValueError "Normalize: total probability is zero.")) ∧
  (∀ c lbl,
     init c None lbl
     = Ok {| cls := c; d := (∅ : gmap K num);
             label := default DEFAULT_LABEL lbl; log := false |}) ∧
  (∀ c o lbl, source_items o = Ok [] →
     ∃ w, init c (Some o) lbl = Ok w ∧ d w = ∅) ∧
  (∀ c o lbl items, is_Pmf c = false → source_items o = Ok items →
     ∃ w, init c (Some o) lbl = Ok w ∧ d w = dict_update ∅ items).
Proof.
  split; [apply init_Pmf_list|]. split; [|split; [|split; [done|split]]].
  - intros c o lbl items w Hc Hitems Hfin Hinit Hne.
    rewrite (init_unfold _ _ _ _ Hitems), Hc, andb_true_r in Hinit.
    case_bool_decide as Hlen.
    + destruct (Normalize num_one (init_copy c o lbl items)) as [[w' t]|e] eqn:Hn;
        [|done].
      injection Hinit as <-. eapply (Normalize_total 1%Qc); [|exact Hn].
      by apply init_copy_fin.
    + injection Hinit as <-. exfalso. apply Hne.
      apply map_size_empty_inv. unfold len in Hlen. lia.
  - intros c src lbl Hc Hne Hz.
    rewrite (init_unfold c (SrcWrapper src) lbl (Items src) eq_refl), Hc,
      andb_true_r.
    assert (Hd : d (init_copy c (SrcWrapper src) lbl (Items src)) = d src)
      by apply dict_update_empty.
    rewrite bool_decide_eq_true_2.
    + unfold Normalize. cbn [log init_copy].
      unfold Total in *. rewrite Hd, Hz. done.
    + unfold len. rewrite Hd.
      apply map_size_non_empty_iff in Hne. lia.
  - intros c o lbl Hitems. rewrite (init_unfold _ _ _ _ Hitems).
    rewrite bool_decide_eq_false_2; [by eexists|].
    unfold len. cbn. rewrite map_size_empty. lia.
  - intros c o lbl items Hc Hitems.
    rewrite (init_unfold _ _ _ _ Hitems), Hc, andb_false_r. by eexists.
Qed.

End init_spec.

Lemma Pmf_init_spec_witness :
  ∃ w, init KPmf (Some (SrcList [Qc_of_Z 1; Qc_of_Z 2; Qc_of_Z 2])) None = Ok w ∧
       Total w = num_one.
Proof.
  destruct (proj1 (Pmf_init_spec (K := Qc))
              [Qc_of_Z 1; Qc_of_Z 2; Qc_of_Z 2] None) as (w & Hw & Ht & _);
    [done|].
  by exists w.
Defined.

(** A [Pmf] made from another [Pmf] is normalized again: the weights 1 and 3
    of the source become 1/4 and 3/4. *)
Lemma Pmf_of_Pmf_is_renormalized :
  ∃ w, init KPmf (Some (SrcWrapper pmf_1_3)) None = Ok w ∧
       getitem pmf_1_3 (Qc_of_Z 1) = of_Z 1 ∧
       getitem w (Qc_of_Z 1) = Fin (Qc_of_Z 1 / Qc_of_Z 4)%Qc ∧
       d w ≠ d pmf_1_3.
Proof.
  assert (Hc : match init KPmf (Some (SrcWrapper pmf_1_3)) None with
               | Ok w => neqb (getitem w (Qc_of_Z 1))
                           (Fin (Qc_of_Z 1 / Qc_of_Z 4)%Qc)
               | Raise _ => false
               end = true) by (vm_compute; reflexivity).
  destruct (init KPmf (Some (SrcWrapper pmf_1_3)) None) as [w|e]; [|done].
  apply neqb_eq_fin in Hc. exists w. split; [done|]. split; [done|].
  split; [done|]. intros Heq. unfold getitem in Hc. rewrite Heq in Hc.
  vm_compute in Hc. discriminate.
Qed.


(** ** [Counter] *)

Section counter_props.
Context `{Countable K}.
Implicit Types (l : list K) (m : gmap K Z) (x : K).

Lemma count_in_cons x y l :
  count_in x (y :: l) = (if decide (y = x) then 1 else 0) + count_in x l.
Proof.
  unfold count_in. rewrite filter_cons.
  destruct (decide (y = x)); cbn [length]; lia.
Qed.

Lemma count_in_nonneg x l : 0 ≤ count_in x l.
Proof. unfold count_in. lia. Qed.

Lemma count_in_pos x l : x ∈ l → 0 < count_in x l.
Proof.
  induction 1 as [x l|x y l _ IH]; rewrite count_in_cons.
  - rewrite decide_True by done. pose proof (count_in_nonneg x l). lia.
  - destruct (decide (y = x)); lia.
Qed.

Lemma count_in_notin x l : x ∉ l → count_in x l = 0.
Proof.
  induction l as [|y l IH]; [done|].
  intros [Hne Hnin]%not_elem_of_cons. rewrite count_in_cons, IH by done.
  by rewrite decide_False.
Qed.

Lemma Counter_fold_lookup l m x :
  foldl (λ m x, <[x := default 0 (m !! x) + 1]> m) m l !! x
  = if decide (x ∈ l) then Some (default 0 (m !! x) + count_in x l)
    else m !! x.
Proof.
  revert m. induction l as [|y l IH]; intros m.
  - cbn [foldl]. by rewrite decide_False by apply not_elem_of_nil.
  - cbn [foldl]. rewrite IH, count_in_cons.
    destruct (decide (y = x)) as [->|Hne].
    + rewrite lookup_insert_eq, (decide_True (P := x ∈ x :: l)) by left.
      cbn [default from_option id]. destruct (decide (x ∈ l)) as [Hin|Hnin].
      * f_equal; lia.
      * rewrite (count_in_notin x l Hnin). f_equal; lia.
    + rewrite lookup_insert_ne by done.
      destruct (decide (x ∈ l)) as [Hin|Hnin].
      * rewrite decide_True by (by right). f_equal; lia.
      * rewrite decide_False; [done|]. by intros [?|?]%elem_of_cons.
Qed.

(** A [Counter] holds exactly the elements of the sequence, each with the
    number of its occurrences. *)
Lemma Counter_lookup l x :
  Counter l !! x = if decide (x ∈ l) then Some (count_in x l) else None.
Proof.
  unfold Counter. rewrite Counter_fold_lookup, lookup_empty.
  destruct (decide (x ∈ l)); [|done]. cbn [default from_option id]. f_equal; lia.
Qed.

Lemma count_of_Counter l x : count_of (Counter l) x = count_in x l.
Proof.
  unfold count_of. rewrite Counter_lookup.
  destruct (decide (x ∈ l)); [done|]. by rewrite count_in_notin.
Qed.

Lemma Counter_lookup_pos l x (c : Z) : Counter l !! x = Some c → 0 < c.
Proof.
  rewrite Counter_lookup. destruct (decide (x ∈ l)); [|done].
  intros [= <-]. by apply count_in_pos.
Qed.

Lemma elem_of_dom_Counter l x : x ∈ dom (Counter l) ↔ x ∈ l.
Proof.
  rewrite elem_of_dom, Counter_lookup.
  destruct (decide (x ∈ l)); split; try done; by intros [? ?].
Qed.

End counter_props.

(** ** The constructor of a [Cdf] *)

Global Instance item_le_total : base.Total item_le.
Proof. intros a b. unfold item_le. apply (total Qcle). Qed.

Global Instance item_le_trans : Transitive item_le.
Proof. intros a b c. unfold item_le. apply Qcle_trans. Qed.

Lemma StronglySorted_le_lt (l : list Qc) :
  StronglySorted Qcle l → NoDup l → StronglySorted Qclt l.
Proof.
  induction 1 as [|x l _ IH Hx]; intros Hnd; [constructor|].
  apply NoDup_cons in Hnd as [Hnin Hnd]. constructor; [by apply IH|].
  rewrite Forall_forall in *. intros y Hy.
  destruct (Qcle_lt_or_eq _ _ (Hx y Hy)) as [?| ->]; done.
Qed.

Lemma sorted_items_perm (w : DictWrapper Qc) : sorted_items w ≡ₚ Items w.
Proof. apply merge_sort_Permutation. Qed.

Lemma sorted_items_keys (w : DictWrapper Qc) :
  StronglySorted Qclt (sorted_items w).*1.
Proof.
  apply StronglySorted_le_lt.
  - apply (StronglySorted_fmap _ item_le); [done|].
    apply StronglySorted_merge_sort; apply _.
  - rewrite sorted_items_perm. apply NoDup_fst_map_to_list.
Qed.

Lemma sorted_items_elem (w : DictWrapper Qc) (k : Qc) (v : num) :
  (k, v) ∈ sorted_items w ↔ d w !! k = Some v.
Proof. rewrite sorted_items_perm. apply elem_of_map_to_list. Qed.

Lemma items_weights (w : DictWrapper Qc) (l : list (Qc * num)) :
  (∀ k v, (k, v) ∈ l → d w !! k = Some v) → l.*2 = getitem w <$> l.*1.
Proof.
  induction l as [|[k v] l IH]; intros Hl; [done|].
  rewrite !fmap_cons. cbn [fst snd]. f_equal.
  - unfold getitem. by rewrite (Hl k v) by left.
  - apply IH. intros k' v' ?. apply Hl. by right.
Qed.

Lemma last_cumsum_from (acc : num) (l : list num) :
  l ≠ [] → last (cumsum_from acc l) = Some (foldl nadd acc l).
Proof.
  revert acc. induction l as [|x l IH]; intros acc Hl; [done|].
  cbn [cumsum_from foldl]. destruct l as [|y l]; [reflexivity|].
  rewrite <-(IH (acc +ₙ x)) by done. apply last_cons_cons.
Qed.

(** Weights that are finite and not negative. *)
Lemma cumsum_from_sorted (a : Qc) (l : list num) :
  Forall (λ v, ∃ q, v = Fin q ∧ (0 ≤ q)%Qc) l →
  Sorted nle (cumsum_from (Fin a) l) ∧ HdRel nle (Fin a) (cumsum_from (Fin a) l).
Proof.
  intros Hl. revert a. induction Hl as [|v l (q & -> & Hq) _ IH]; intros a.
  - split; constructor.
  - cbn [cumsum_from nadd]. destruct (IH (a + q)%Qc) as [Hs Hh].
    split; constructor; try done.
    unfold nle, nleb. cbn [nltb neqb].
    apply orb_true_iff. rewrite !bool_decide_eq_true.
    assert (a ≤ a + q)%Qc as [?|Heq]%Qcle_lt_or_eq; [|by left|by right].
    rewrite <-(Qcplus_0_r a) at 1. by apply Qcplus_le_mono_l.
Qed.


Lemma pysum_nonneg (l : list num) :
  Forall (λ v, ∃ q, v = Fin q ∧ (0 ≤ q)%Qc) l →
  ∃ T, pysum l = Fin T ∧ (0 ≤ T)%Qc.
Proof.
  induction 1 as [|v l (q & -> & Hq) _ (T & HT & HT0)].
  - exists 0%Qc. split; [done|apply Qcle_refl].
  - exists (q + T)%Qc. rewrite pysum_cons, HT. split; [done|].
    replace 0%Qc with (0 + 0)%Qc by ring. by apply Qcplus_le_compat.
Qed.

Lemma qsign_pos (T : Qc) : (0 < T)%Qc → qsign T = Gt.
Proof. intros HT. unfold qsign. by apply Qcgt_alt. Qed.

Lemma nle_fin (a b : Qc) : nle (Fin a) (Fin b) ↔ (a ≤ b)%Qc.
Proof.
  unfold nle, nleb. cbn [nltb neqb].
  rewrite orb_true_iff, !bool_decide_eq_true. split.
  - intros [?| ->]; [by apply Qclt_le_weak|apply Qcle_refl].
  - intros [?| ->]%Qcle_lt_or_eq; auto.
Qed.

(** Dividing by a positive number keeps the order. *)
Lemma ndiv_mono (T : Qc) (x y : num) :
  (0 < T)%Qc → nle x y → nle (x /ₙ Fin T) (y /ₙ Fin T).
Proof.
  intros HT Hxy.
  assert (HT0 : T ≠ 0%Qc) by (intros ->; by apply (Qclt_not_eq 0 0)%Qc in HT).
  destruct x as [a| | |], y as [b| | |]; try done;
    cbn [ndiv]; rewrite ?decide_False, ?qsign_pos by done; try done.
  apply nle_fin in Hxy. apply nle_fin.
  unfold Qcdiv. apply Qcmult_le_compat_r; [done|].
  apply Qclt_le_weak. by apply Qcinv_pos.
Qed.

Lemma Total_sorted_items (w : DictWrapper Qc) :
  pysum (sorted_items w).*2 = Total w.
Proof. unfold Total. apply pysum_perm. by rewrite sorted_items_perm. Qed.

Lemma Total_empty_dict `{Countable K} (w : DictWrapper K) :
  size (d w) = 0%nat → Total w = num_zero.
Proof.
  intros Hs%map_size_empty_inv. unfold Total. rewrite Hs. apply msum_empty.
Qed.

Lemma elem_of_Values `{Countable K} (w : DictWrapper K) (x : K) :
  x ∈ Values w ↔ is_Some (d w !! x).
Proof.
  unfold Values. rewrite list_elem_of_fmap. split.
  - intros ([k v] & -> & Hkv%elem_of_map_to_list). by eexists.
  - intros [v Hv]. exists (x, v). split; [done|]. by apply elem_of_map_to_list.
Qed.

(** A [Cdf] of non-negative weights whose total is not zero. *)
Lemma Cdf_of_weights (w : DictWrapper Qc) lbl :
  (∀ k v, d w !! k = Some v → ∃ q, v = Fin q ∧ (0 ≤ q)%Qc) →
  Total w ≠ num_zero →
  ∃ c, Cdf_init (CdfOf (SrcWrapper w)) lbl = Ok c ∧ Cdf_invariant c ∧
       xs c ≡ₚ Values w ∧
       ps c = (λ p, p /ₙ Total w) <$> cumsum (getitem w <$> xs c).
Proof.
  intros Hnn Hz.
  assert (Hw : Forall (λ v, ∃ q, v = Fin q ∧ (0 ≤ q)%Qc) (sorted_items w).*2).
  { apply Forall_fmap, Forall_forall. intros [k v] Hkv%sorted_items_elem.
    by eapply Hnn. }
  destruct (pysum_nonneg _ Hw) as (T & HT & HT0).
  rewrite Total_sorted_items in HT.
  assert (HTne : T ≠ 0%Qc) by (intros ->; by apply Hz).
  assert (HTpos : (0 < T)%Qc).
  { by destruct (Qcle_lt_or_eq _ _ HT0) as [?|?]. }
  assert (Hsize : size (d w) ≠ 0%nat)
    by (intros ?; by apply Hz, Total_empty_dict).
  destruct (Cdf_of_wrapper w lbl) as (c & Hc & Hxs & _ & Hps).
  destruct (Hps Hsize) as (total & Hlast & Hpc). clear Hps.
  assert (Hne : (sorted_items w).*2 ≠ []).
  { intros Hnil%length_zero_iff_nil.
    by rewrite length_fmap, sorted_items_length in Hnil. }
  unfold cumsum in Hlast. rewrite last_cumsum_from in Hlast by done.
  fold (pysum (sorted_items w).*2) in Hlast.
  rewrite Total_sorted_items in Hlast. injection Hlast as <-.
  exists c. split; [done|]. split; [|split].
  - unfold Cdf_invariant. rewrite Hxs, Hpc. split; [|split; [|split]].
    + apply sorted_items_keys.
    + apply (Sorted_fmap _ nle nle).
      * intros x y. rewrite HT. by apply ndiv_mono.
      * by apply (cumsum_from_sorted 0%Qc).
    + unfold cumsum. by rewrite !length_fmap, cumsum_from_length, length_fmap.
    + rewrite fmap_last. unfold cumsum. rewrite last_cumsum_from by done.
      fold (pysum (sorted_items w).*2). rewrite Total_sorted_items, HT.
      cbn. rewrite decide_False by done. unfold num_one. do 2 f_equal.
      by field.
  - rewrite Hxs. unfold Values. by rewrite sorted_items_perm.
  - rewrite Hpc, Hxs. do 2 f_equal. apply items_weights.
    intros k v. apply sorted_items_elem.
Qed.

Lemma Cdf_of_sequence (l : list Qc) lbl :
  l ≠ [] →
  ∃ c, Cdf_init (CdfOf (SrcList l)) lbl = Ok c ∧ Cdf_invariant c ∧
       (∀ x, x ∈ xs c ↔ x ∈ l) ∧
       ps c = (λ p, p /ₙ of_Z (Z.of_nat (length l)))
                <$> cumsum ((λ x, of_Z (count_in x l)) <$> xs c).
Proof.
  intros Hl. rewrite Cdf_of_list.
  set (w := {| cls := KHist; d := of_Z <$> Counter l;
               label := DEFAULT_LABEL; log := false |}).
  assert (Htot : Total w = of_Z (Z.of_nat (length l))) by apply Counter_total.
  destruct (Cdf_of_weights w (Some (default DEFAULT_LABEL lbl)))
    as (c & Hc & Hinv & Hxs & Hps).
  { intros k v. cbn [d w]. rewrite lookup_fmap.
    destruct (Counter l !! k) as [n|] eqn:Hn; [|done]. intros [= <-].
    eexists. split; [reflexivity|]. rewrite <-Z2Qc_inj_0.
    apply (proj1 (Z2Qc_inj_le 0 n)). apply Counter_lookup_pos in Hn. lia. }
  { rewrite Htot. intros Hz%neqb_eq_fin.
    rewrite of_Z_neq_0 in Hz; [done|]. destruct l; [done|cbn; lia]. }
  exists c. split; [done|]. split; [done|]. split.
  - intros x. rewrite Hxs, elem_of_Values. cbn [d w].
    by rewrite <-elem_of_dom_Counter, <-(dom_fmap_L of_Z), elem_of_dom.
  - rewrite Hps, Htot. do 2 f_equal. apply list_fmap_ext. intros _ x _.
    unfold getitem. cbn [d w]. rewrite lookup_fmap, <-count_of_Counter.
    unfold count_of. destruct (Counter l !! x); [done|].
    cbn. by rewrite of_Z_0.
Qed.

Lemma Cdf_of_dict (m : gmap Qc num) lbl :
  Cdf_init (CdfOf (SrcDict m)) lbl
  = Cdf_init (CdfOf (SrcWrapper
      {| cls := KHist; d := m; label := DEFAULT_LABEL; log := false |}))
      (Some (default DEFAULT_LABEL lbl)).
Proof.
  unfold Cdf_init. rewrite init_not_Pmf by done. cbn.
  by rewrite dict_update_empty.
Qed.

(** C6, for weights that are not negative.  A [Cdf] made from a [Hist] or
    [Pmf], from a dictionary or from a sequence has strictly ascending [xs]
    (each value once, a repeated value of a sequence with the number of its
    occurrences as its weight), and [ps] are the running sums of the weights
    in that order divided by the total: they do not decrease, there are as
    many as [xs], and the last one is 1.  This needs finite weights that are
    not negative and a total that is not zero, which always holds for a
    sequence that is not empty. *)
Theorem Cdf_init_spec :
  (∀ (w : DictWrapper Qc) lbl,
     (∀ k v, d w !! k = Some v → ∃ q, v = Fin q ∧ (0 ≤ q)%Qc) →
     Total w ≠ num_zero →
     ∃ c, Cdf_init (CdfOf (SrcWrapper w)) lbl = Ok c ∧ Cdf_invariant c ∧
          xs c ≡ₚ Values w ∧
          ps c = (λ p, p /ₙ Total w) <$> cumsum (getitem w <$> xs c)) ∧
  (∀ (m : gmap Qc num) lbl,
     (∀ k v, m !! k = Some v → ∃ q, v = Fin q ∧ (0 ≤ q)%Qc) →
     pysum (map_to_list m).*2 ≠ num_zero →
     ∃ c, Cdf_init (CdfOf (SrcDict m)) lbl = Ok c ∧ Cdf_invariant c ∧
          (∀ x, x ∈ xs c ↔ is_Some (m !! x))) ∧
  (∀ (l : list Qc) lbl, l ≠ [] →
     ∃ c, Cdf_init (CdfOf (SrcList l)) lbl = Ok c ∧ Cdf_invariant c ∧
          (∀ x, x ∈ xs c ↔ x ∈ l) ∧
          ps c = (λ p, p /ₙ of_Z (Z.of_nat (length l)))
                   <$> cumsum ((λ x, of_Z (count_in x l)) <$> xs c)).
Proof.
  split; [apply Cdf_of_weights|]. split; [|apply Cdf_of_sequence].
  intros m lbl Hnn Hz. rewrite Cdf_of_dict.
  destruct (Cdf_of_weights
    {| cls := KHist; d := m; label := DEFAULT_LABEL; log := false |}
    (Some (default DEFAULT_LABEL lbl)) Hnn Hz) as (c & Hc & Hinv & Hxs & _).
  exists c. split; [done|]. split; [done|].
  intros x. by rewrite Hxs, elem_of_Values.
Qed.

Lemma Cdf_init_spec_witness :
  ∃ c, Cdf_init (CdfOf (SrcList [Qc_of_Z 3; Qc_of_Z 1; Qc_of_Z 3])) None = Ok c ∧
       Cdf_invariant c.
Proof.
  destruct (proj2 (proj2 Cdf_init_spec) [Qc_of_Z 3; Qc_of_Z 1; Qc_of_Z 3] None)
    as (c & Hc & Hinv & _); [done|].
  by exists c.
Defined.

Lemma nltb_not_nle (a b : num) : nltb b a = true → ¬ nle a b.
Proof.
  unfold nle, nleb. destruct a as [x| | |], b as [y| | |]; try done.
  cbn [nltb neqb]. rewrite orb_true_iff, !bool_decide_eq_true.
  intros Hlt [Hlt'| ->].
  - by apply (Qclt_not_le _ _ Hlt), Qclt_le_weak.
  - by apply (Qclt_not_eq _ _ Hlt).
Qed.

Lemma hist_neg_by_Subtract :
  init KHist (Some (SrcList [Qc_of_Z 1; Qc_of_Z 1])) None = Ok hist_1_1 ∧
  init KHist (Some (SrcList [Qc_of_Z 2])) None = Ok hist_2 ∧
  d (Subtract hist_1_1 hist_2) = d hist_neg.
Proof.
  split; [by rewrite Hist_of_list|]. split; [by rewrite Hist_of_list|].
  apply (bool_decide_unpack _). by vm_compute.
Qed.

(** A [Cdf] of a histogram with a negative frequency: the frequencies 2 and
    -1 give the cumulative probabilities 2 and 1, which decrease. *)
Lemma Cdf_of_negative_weight_decreases :
  ∃ c, Cdf_init (CdfOf (SrcWrapper hist_neg)) None = Ok c ∧
       ps c = [of_Z 2; of_Z 1] ∧
       ¬ Cdf_invariant c.
Proof.
  assert (Hc : match Cdf_init (CdfOf (SrcWrapper hist_neg)) None with
               | Ok c => match ps c with
                         | [a; b] => neqb a (of_Z 2) && neqb b (of_Z 1)
                         | _ => false
                         end
               | Raise _ => false
               end = true) by (vm_compute; reflexivity).
  destruct (Cdf_init (CdfOf (SrcWrapper hist_neg)) None) as [c|e]; [|done].
  exists c. split; [done|].
  destruct (ps c) as [|a [|b [|? ?]]] eqn:Hps; try done.
  apply andb_true_iff in Hc as [->%neqb_eq_fin ->%neqb_eq_fin].
  split; [done|]. intros (_ & Hsorted & _). rewrite Hps in Hsorted.
  apply Sorted_inv in Hsorted as [_ Hhd]. apply HdRel_inv in Hhd.
  revert Hhd. apply nltb_not_nle. by vm_compute.
Qed.


(** ** [MakeOdds] and [MakeProbs] *)

Lemma one_minus_ne (a : Qc) : a ≠ 1%Qc → (1 - a)%Qc ≠ 0%Qc.
Proof.
  intros Ha Hz. apply Ha. rewrite <-(Qcplus_0_r a), <-Hz. ring.
Qed.

Lemma odds_plus_one_ne (a : Qc) : a ≠ 1%Qc → (a / (1 - a) + 1)%Qc ≠ 0%Qc.
Proof.
  intros Ha Hz. pose proof (one_minus_ne a Ha) as Hd.
  assert (Hone : ((a / (1 - a) + 1) * (1 - a) = 1)%Qc) by (by field).
  rewrite Hz, Qcmult_0_l in Hone. discriminate.
Qed.

Lemma odds_of_fin (a : Qc) :
  a ≠ 1%Qc → odds_of (Fin a) = Fin (a / (1 - a))%Qc.
Proof.
  intros Ha. unfold odds_of, num_one. cbn [neqb].
  rewrite bool_decide_eq_false_2 by done.
  cbn [nsub nneg nadd ndiv]. by rewrite decide_False by by apply one_minus_ne.
Qed.

Lemma Odds_returns (p : num) : Odds p = Ok (odds_of p).
Proof.
  unfold Odds, odds_of. destruct (neqb p num_one) eqn:Hp; [done|].
  apply pydiv_ok. destruct p as [a| | |]; try done.
  cbn in *. apply bool_decide_eq_false. apply bool_decide_eq_false in Hp.
  by apply one_minus_ne.
Qed.

Lemma odds_plus_one (p : num) : neqb (odds_of p +ₙ num_one) num_zero = false.
Proof.
  destruct p as [a| | |]; try done.
  destruct (decide (a = 1%Qc)) as [->|Ha]; [done|].
  rewrite odds_of_fin by done. unfold num_one, num_zero. cbn [nadd neqb].
  apply bool_decide_eq_false.
  by apply odds_plus_one_ne.
Qed.

Lemma Probability_of_odds (p : num) :
  Probability (odds_of p) = Ok (prob_of (odds_of p)).
Proof. unfold Probability. apply pydiv_ok, odds_plus_one. Qed.

(** Odds to probability undoes probability to odds, except at 1. *)
Lemma prob_of_odds_of (a : Qc) : a ≠ 1%Qc → prob_of (odds_of (Fin a)) = Fin a.
Proof.
  intros Ha. rewrite odds_of_fin by done. unfold prob_of, num_one.
  cbn [nadd ndiv]. rewrite decide_False by by apply odds_plus_one_ne.
  f_equal. field. split; [by apply one_minus_ne|].
  assert (Hx : ∀ x : Qc, (a + (x - a))%Qc = x) by (intros; ring).
  rewrite Hx. intros Hz. apply (f_equal this) in Hz. by vm_compute in Hz.
Qed.

Lemma prob_of_odds_of_one : prob_of (odds_of num_one) = NaN.
Proof. by vm_compute. Qed.

Section make_odds.
Context `{Countable K}.
Implicit Types (self s : DictWrapper K) (items : list (K * num)).

Lemma Set_size self (k : K) (v : num) :
  is_Some (d self !! k) → size (d (Set_ self k v)) = size (d self).
Proof. intros [x Hx]. cbn [d Set_ with_d]. by eapply map_size_insert_Some. Qed.

(** A loop over the items whose body only overwrites the entry it visits
    runs to its end. *)
Lemma for_items_Set (f : num → num)
    (body : K → num → DictWrapper K → result (DictWrapper K)) items self n :
  (∀ k v s, (k, v) ∈ items → body k v s = Ok (Set_ s k (f v))) →
  (∀ k v, (k, v) ∈ items → is_Some (d self !! k)) →
  size (d self) = n →
  for_items n items body self
  = Ok (foldl (λ s kv, Set_ s kv.1 (f kv.2)) self items).
Proof.
  intros Hbody. revert self.
  induction items as [|[k v] items IH]; intros self Hin Hn; cbn [for_items].
  - by rewrite bool_decide_eq_true_2.
  - rewrite bool_decide_eq_true_2 by done.
    rewrite Hbody by left. cbn [mbind result_bind foldl fst snd].
    apply IH.
    + intros k' v' s ?. apply Hbody. by right.
    + intros k' v' ?. cbn [d Set_ with_d]. apply lookup_insert_is_Some'.
      right. eapply Hin. by right.
    + rewrite Set_size; [done|]. eapply Hin. by left.
Qed.

Lemma foldl_Set_lookup (f : num → num) self items (k : K) :
  NoDup items.*1 →
  d (foldl (λ s kv, Set_ s kv.1 (f kv.2)) self items) !! k
  = match (list_to_map items : gmap K num) !! k with
    | Some v => Some (f v)
    | None => d self !! k
    end.
Proof.
  revert self. induction items as [|[k' v] items IH]; intros self Hnd;
    [cbn; by rewrite lookup_empty|].
  apply NoDup_cons in Hnd as [Hk Hnd]. cbn [foldl fst snd].
  rewrite IH by done. cbn [list_to_map foldr fst snd d Set_ with_d].
  destruct (decide (k = k')) as [->|Hne].
  - by rewrite lookup_insert_eq, (not_elem_of_list_to_map_1 _ _ Hk),
      lookup_insert_eq.
  - by rewrite !lookup_insert_ne by done.
Qed.

Lemma foldl_Set_Items (f : num → num) self :
  d (foldl (λ s kv, Set_ s kv.1 (f kv.2)) self (Items self)) = f <$> d self.
Proof.
  apply map_eq. intros k. unfold Items.
  rewrite foldl_Set_lookup by apply NoDup_fst_map_to_list.
  rewrite list_to_map_to_list, lookup_fmap. by destruct (d self !! k).
Qed.

Lemma Items_present self (k : K) (v : num) :
  (k, v) ∈ Items self → is_Some (d self !! k).
Proof. intros ?%elem_of_map_to_list. by eexists. Qed.

(** Without a zero probability [MakeOdds] replaces every probability by its
    odds. *)
Lemma MakeOdds_no_zero self :
  (∀ k v, d self !! k = Some v → truthy v = true) →
  ∃ s1, MakeOdds self = Ok s1 ∧ d s1 = odds_of <$> d self.
Proof.
  intros Hnz. unfold MakeOdds.
  rewrite (for_items_Set odds_of); [| |apply Items_present|done].
  - eexists. split; [done|]. apply foldl_Set_Items.
  - intros k v s Hkv%elem_of_map_to_list.
    by rewrite (Hnz k v Hkv), Odds_returns.
Qed.

(** [MakeProbs] on odds that [MakeOdds] made replaces each by its
    probability, and does not raise. *)
Lemma MakeProbs_of_odds s1 (m : gmap K num) :
  d s1 = odds_of <$> m →
  ∃ s2, MakeProbs s1 = Ok s2 ∧ d s2 = prob_of <$> d s1.
Proof.
  intros Hd. unfold MakeProbs.
  rewrite (for_items_Set prob_of); [| |apply Items_present|done].
  - eexists. split; [done|]. apply foldl_Set_Items.
  - intros k o s Hko%elem_of_map_to_list.
    rewrite Hd, lookup_fmap in Hko.
    destruct (m !! k) as [p|]; [|done].
    injection Hko as <-. by rewrite Probability_of_odds.
Qed.

(** A zero probability: the body deletes the entry, and the next step of the
    loop finds the dictionary smaller than it was. *)
Lemma for_items_delete_raises
    (body : K → num → DictWrapper K → result (DictWrapper K)) items self n :
  (∀ k v s, truthy v = true → body k v s = Ok (Set_ s k (odds_of v))) →
  (∀ k v s, truthy v = false → body k v s = Remove s k) →
  NoDup items.*1 →
  (∀ k v, (k, v) ∈ items → d self !! k = Some v) →
  size (d self) = n →
  Exists (λ kv, truthy kv.2 = false) items →
  for_items n items body self
  = Raise (RuntimeError "dictionary changed size during iteration").
Proof.
  intros Hset Hdel. revert self.
  induction items as [|[k v] items IH]; intros self Hnd Hin Hn Hex;
    [by apply Exists_nil in Hex|].
  apply NoDup_cons in Hnd as [Hk Hnd]. cbn [for_items].
  rewrite bool_decide_eq_true_2 by done.
  pose proof (Hin k v ltac:(left)) as Hkv.
  destruct (truthy v) eqn:Hv.
  - rewrite Hset by done. cbn [mbind result_bind]. apply IH; [done| | |].
    + intros k' v' Hin'. cbn [d Set_ with_d]. rewrite lookup_insert_ne.
      * apply Hin. by right.
      * intros ->. apply Hk. apply list_elem_of_fmap. by exists (k', v').
    + by rewrite Set_size by done.
    + apply Exists_cons in Hex as [Hex|Hex]; [|done]. cbn in Hex. congruence.
  - rewrite Hdel by done. unfold Remove. rewrite Hkv.
    cbn [mbind result_bind].
    assert (Hsome : is_Some (d self !! k)) by (by eexists).
    destruct items as [|kv items]; cbn [for_items];
      rewrite bool_decide_eq_false_2; try done;
      cbn [d with_d]; rewrite (map_size_delete_Some _ _ Hsome);
      apply map_size_ne_0_lookup_2 in Hsome; lia.
Qed.

Lemma MakeOdds_zero_raises self :
  (∃ k v, d self !! k = Some v ∧ truthy v = false) →
  MakeOdds self
  = Raise (RuntimeError "dictionary changed size during iteration").
Proof.
  intros (k & v & Hkv & Hv). unfold MakeOdds.
  apply for_items_delete_raises; try done.
  - intros k' v' s Hv'. by rewrite Hv', Odds_returns.
  - intros k' v' s Hv'. by rewrite Hv'.
  - apply NoDup_fst_map_to_list.
  - intros k' v'. apply elem_of_map_to_list.
  - apply Exists_exists. exists (k, v). split; [|done].
    by apply elem_of_map_to_list.
Qed.

End make_odds.

(** C8, as the code behaves on a suite without a zero probability.
    [MakeOdds] returns and maps a probability [p] other than 1 to
    [p / (1 - p)] and the probability 1 to [inf]; [MakeProbs] then returns
    as well and gives every hypothesis with [p] other than 1 its probability
    back.  The hypothesis with probability 1 is not recovered: its odds
    [inf] become [inf / (inf + 1)], which is [nan]. *)
Theorem MakeOdds_MakeProbs_spec `{Countable K} (self : DictWrapper K) :
  (∀ k v, d self !! k = Some v → truthy v = true) →
  ∃ s1 s2,
    MakeOdds self = Ok s1 ∧ MakeProbs s1 = Ok s2 ∧
    dom (d s1) = dom (d self) ∧ dom (d s2) = dom (d self) ∧
    (∀ h (p : Qc), d self !! h = Some (Fin p) → p ≠ 1%Qc →
       d s1 !! h = Some (Fin (p / (1 - p))%Qc) ∧ d s2 !! h = Some (Fin p)) ∧
    (∀ h, d self !! h = Some num_one →
       d s1 !! h = Some PInf ∧ d s2 !! h = Some NaN).
Proof.
  intros Hnz.
  destruct (MakeOdds_no_zero self Hnz) as (s1 & Hs1 & Hd1).
  destruct (MakeProbs_of_odds s1 _ Hd1) as (s2 & Hs2 & Hd2).
  exists s1, s2. split; [done|]. split; [done|].
  rewrite Hd2, Hd1. rewrite !dom_fmap_L. split; [done|]. split; [done|].
  split.
  - intros h p Hh Hp. rewrite !lookup_fmap, Hh. cbn [fmap option_fmap option_map].
    by rewrite prob_of_odds_of, odds_of_fin.
  - intros h Hh. rewrite !lookup_fmap, Hh. cbn [fmap option_fmap option_map].
    by rewrite prob_of_odds_of_one.
Qed.

Lemma MakeOdds_MakeProbs_spec_witness :
  ∃ s1 s2,
    MakeOdds pmf_1_3 = Ok s1 ∧ MakeProbs s1 = Ok s2 ∧
    d s1 !! Qc_of_Z 2 = Some (Fin (Qc_of_Z 3 / (1 - Qc_of_Z 3))%Qc) ∧
    d s2 !! Qc_of_Z 2 = Some (of_Z 3).
Proof.
  destruct (MakeOdds_MakeProbs_spec pmf_1_3)
    as (s1 & s2 & Hs1 & Hs2 & _ & _ & Hfin & _).
  - intros k v. unfold pmf_1_3. cbn [d].
    intros [[_ <-]|[_ [_ <-]%lookup_singleton_Some]]%lookup_insert_Some;
      by vm_compute.
  - exists s1, s2. split; [done|]. split; [done|].
    apply (Hfin (Qc_of_Z 2) (Qc_of_Z 3)); [reflexivity|].
    rewrite <-Z2Qc_inj_1. by intros ?%Z2Qc_inj.
Defined.

(** The round trip of a hypothesis that is certain: probability 1, odds
    [inf], probability [nan]. *)
Lemma MakeProbs_loses_certainty :
  ∃ s1 s2 : DictWrapper Z,
    d suite_certain !! 1 = Some num_one ∧
    MakeOdds suite_certain = Ok s1 ∧ d s1 !! 1 = Some PInf ∧
    MakeProbs s1 = Ok s2 ∧ d s2 !! 1 = Some NaN ∧
    d s2 !! 1 ≠ d suite_certain !! 1.
Proof.
  destruct (MakeOdds_no_zero suite_certain) as (s1 & Hs1 & Hd1).
  { intros k v. unfold suite_certain. cbn [d].
    intros [_ <-]%lookup_singleton_Some. by vm_compute. }
  destruct (MakeProbs_of_odds s1 _ Hd1) as (s2 & Hs2 & Hd2).
  exists s1, s2. split; [done|]. split; [done|].
  assert (H1 : d s1 !! 1 = Some PInf) by (by rewrite Hd1).
  assert (H2 : d s2 !! 1 = Some NaN) by (by rewrite Hd2, lookup_fmap, H1).
  rewrite H2. by repeat split.
Qed.

(** A hypothesis with probability zero: [MakeOdds] raises. *)
Lemma MakeOdds_ruled_out_raises :
  MakeOdds suite_ruled_out
  = Raise (RuntimeError "dictionary changed size during iteration").
Proof. apply MakeOdds_zero_raises. by exists 2, num_zero. Qed.


(** ** [Update] one observation at a time, and [UpdateSet] *)

Section finite_weights.
Context `{Countable K}.
Implicit Types (q : gmap K Qc) (w : DictWrapper K).

Lemma Total_fin w q : d w = Fin <$> q → Total w = Fin (qtotal q).
Proof.
  intros Hd. unfold Total, qtotal. rewrite Hd, msum_fmap. apply pysum_fin.
Qed.

Lemma fin_qscale (c : Qc) q :
  (λ p, p *ₙ Fin c) <$> (Fin <$> q) = Fin <$> qscale c q.
Proof. unfold qscale. rewrite <-!map_fmap_compose. by apply map_fmap_ext. Qed.

Lemma qtotal_qscale (c : Qc) q : qtotal (qscale c q) = (qtotal q * c)%Qc.
Proof.
  assert (Fin (qtotal (qscale c q)) = Fin (qtotal q * c)%Qc) as [= ->]; [|done].
  unfold qtotal. rewrite <-pysum_fin, <-pysum_scale_fin.
  apply pysum_perm. unfold qscale. rewrite map_to_list_fmap.
  rewrite <-!list_fmap_compose. done.
Qed.

Lemma qscale_qscale (c c' : Qc) q : qscale c' (qscale c q) = qscale (c * c') q.
Proof.
  unfold qscale. rewrite <-map_fmap_compose. apply map_fmap_ext.
  intros k v _. cbn. ring.
Qed.








(** [Normalize()] on finite weights. *)
Lemma Normalize_fin w q :
  d w = Fin <$> q → log w = false →
  Normalize num_one w
  = if decide (qtotal q = 0%Qc) then
      Raise (ValueError "Normalize: total probability is zero.")
    else Ok (with_d w (Fin <$> qscale (1 / qtotal q) q), Fin (qtotal q)).
Proof.
  intros Hd Hlog. pose proof (Total_fin w q Hd) as Ht.
  destruct (decide (qtotal q = 0%Qc)) as [Hz|Hz].
  - unfold Normalize. rewrite Hlog, Ht, Hz. done.
  - rewrite Normalize_unfold, Ht, Hd; [|done|].
    + unfold num_one. cbn [ndiv]. rewrite decide_False by done.
      by rewrite fin_qscale.
    + rewrite Ht. unfold num_zero. cbn [neqb]. by apply bool_decide_eq_false.
Qed.

End finite_weights.


Section update_props.
Context `{Countable K} {Data : Type}.
Variable Likelihood : Data → K → num.
Variable Lq : Data → K → Qc.
Hypothesis Lq_spec : ∀ data k, Likelihood data k = Fin (Lq data k).
Implicit Types (s u w : DictWrapper K) (q : gmap K Qc) (ds : list Data).

Local Abbreviation mult := (mult_likelihoods Likelihood).

Lemma Mult_fold_d (f : K → num) w (l : list K) :
  d (foldl (λ s hypo, Mult s hypo (f hypo)) w l)
  = foldl (λ m x, <[x := default num_zero (m !! x) *ₙ f x]> m) (d w) l ∧
  log (foldl (λ s hypo, Mult s hypo (f hypo)) w l) = log w.
Proof.
  revert w. induction l as [|x l IH]; intros w; [done|].
  cbn [foldl]. by destruct (IH (Mult w x (f x))) as [-> ->].
Qed.

Lemma mult_likelihoods_fin (data : Data) w q :
  d w = Fin <$> q →
  d (mult data w) = Fin <$> qlik (Lq data) q ∧ log (mult data w) = log w.
Proof.
  intros Hd. unfold mult_likelihoods.
  destruct (Mult_fold_d (Likelihood data) w (Values w)) as [-> ->].
  split; [|done]. apply map_eq. intros k. unfold Values.
  rewrite (foldl_update_lookup (λ x p, p *ₙ Likelihood data x))
    by apply NoDup_fst_map_to_list.
  fold (Values w). unfold qlik.
  rewrite lookup_fmap, map_lookup_imap, Hd, lookup_fmap.
  destruct (q !! k) as [a|] eqn:Ha; cbn.
  - rewrite bool_decide_eq_true_2.
    + by rewrite Lq_spec.
    + apply elem_of_Values. rewrite Hd, lookup_fmap, Ha. by eexists.
  - rewrite bool_decide_eq_false_2; [done|].
    intros [v Hv]%elem_of_Values. by rewrite Hd, lookup_fmap, Ha in Hv.
Qed.



End update_props.

Section update_spec.
Context `{Countable K} {Data : Type}.
Variable Likelihood : Data → K → num.
Implicit Types (self : DictWrapper K) (ds : list Data).



Lemma qscale_1 (c : Qc) (q : gmap K Qc) : c = 1%Qc → qscale c q = q.
Proof.
  intros ->. unfold qscale. rewrite <-(map_fmap_id q) at 2.
  apply map_fmap_ext. intros k v _. cbn. ring.
Qed.






End update_spec.



(** ** [EstimateHazardFunction] *)

Section counting.
Context `{EqDecision A}.
Implicit Types (l obs : list A) (x : A).

Lemma zsum_app (l1 l2 : list Z) : zsum (l1 ++ l2) = zsum l1 + zsum l2.
Proof. induction l1 as [|a l1 IH]; cbn; [done|]. unfold zsum in *. lia. Qed.

Lemma zsum_zero {B} (f : B → Z) (l : list B) :
  (∀ b, b ∈ l → f b = 0) → zsum (f <$> l) = 0.
Proof.
  induction l as [|b l IH]; intros Hf; [done|].
  rewrite fmap_cons. cbn. rewrite (Hf b) by left.
  unfold zsum in IH. rewrite IH; [done|]. intros b' ?. apply Hf. by right.
Qed.

Lemma zsum_plus {B} (f g : B → Z) (l : list B) :
  zsum ((λ b, f b + g b) <$> l) = zsum (f <$> l) + zsum (g <$> l).
Proof. induction l as [|b l IH]; cbn; [done|]. unfold zsum in *. lia. Qed.

Lemma zsum_ext {B} (f g : B → Z) (l : list B) :
  (∀ b, b ∈ l → f b = g b) → zsum (f <$> l) = zsum (g <$> l).
Proof.
  intros Hfg. f_equal. apply list_fmap_ext. intros i b Hb.
  apply Hfg. by eapply list_elem_of_lookup_2.
Qed.

(** In a duplicate-free list the element [x] is met once. *)
Lemma zsum_indicator (a : Z) x l :
  NoDup l → x ∈ l → zsum ((λ y, if decide (x = y) then a else 0) <$> l) = a.
Proof.
  induction 1 as [|y l Hy Hl IH]; intros Hx; [by apply elem_of_nil in Hx|].
  rewrite fmap_cons. cbn [zsum foldr]. fold (zsum ((λ y, if decide (x = y) then a else 0) <$> l)).
  apply elem_of_cons in Hx as [->|Hx].
  - rewrite decide_True by done. rewrite zsum_zero; [lia|].
    intros b Hb. rewrite decide_False; [done|]. by intros ->.
  - rewrite decide_False by (by intros ->). rewrite IH by done. lia.
Qed.

(** Adding, over the distinct values that satisfy [P], the number of their
    occurrences counts the observations that satisfy [P]. *)
Lemma zsum_count_in (P : A → Prop) `{∀ x, Decision (P x)} l obs :
  NoDup l → (∀ x, x ∈ obs → x ∈ l) →
  zsum ((λ y, if decide (P y) then count_in y obs else 0) <$> l)
  = Z.of_nat (length (filter P obs)).
Proof.
  intros Hl. induction obs as [|x obs IH]; intros Hobs.
  - apply zsum_zero. intros b _. by destruct (decide (P b)).
  - rewrite filter_cons.
    rewrite (zsum_ext _ (λ y, (if decide (x = y)
                               then (if decide (P x) then 1 else 0) else 0)
                              + (if decide (P y) then count_in y obs else 0))).
    + rewrite zsum_plus, zsum_indicator, IH; [| |done|].
      * destruct (decide (P x)); cbn [length]; lia.
      * intros y ?. apply Hobs. by right.
      * apply Hobs. by left.
    + intros y _. rewrite count_in_cons.
      destruct (decide (x = y)) as [->|?]; destruct (decide (P y)); lia.
Qed.

End counting.

Section hazard.
Implicit Types (complete ongoing : list Qc) (t : Qc) (lams : Series).

Lemma Counter_or_is_Some complete ongoing t :
  is_Some (Counter_or (Counter complete) (Counter ongoing) !! t)
  ↔ t ∈ complete ∨ t ∈ ongoing.
Proof.
  unfold Counter_or, is_Some.
  setoid_rewrite map_lookup_filter_Some.
  setoid_rewrite lookup_union_with. rewrite !Counter_lookup.
  destruct (decide (t ∈ complete)) as [Hc|Hc],
           (decide (t ∈ ongoing)) as [Ho|Ho]; cbn.
  - split; [by left|]. intros _. eexists. split; [done|]. cbn.
    apply count_in_pos in Hc. lia.
  - split; [by left|]. intros _. eexists. split; [done|]. cbn.
    by apply count_in_pos.
  - split; [by right|]. intros _. eexists. split; [done|]. cbn.
    by apply count_in_pos.
  - split; [by intros (? & ? & _)|]. by intros [?|?].
Qed.

Lemma observed_times_elem complete ongoing t :
  t ∈ observed_times complete ongoing ↔ t ∈ complete ∨ t ∈ ongoing.
Proof.
  unfold observed_times. rewrite merge_sort_Permutation.
  rewrite <-Counter_or_is_Some, list_elem_of_fmap. split.
  - intros ([k v] & -> & Hkv%elem_of_map_to_list). by eexists.
  - intros [v Hv]. exists (t, v). split; [done|]. by apply elem_of_map_to_list.
Qed.

Lemma observed_times_sorted complete ongoing :
  StronglySorted Qclt (observed_times complete ongoing).
Proof.
  apply StronglySorted_le_lt.
  - apply StronglySorted_merge_sort; apply _.
  - unfold observed_times. rewrite merge_sort_Permutation.
    apply NoDup_fst_map_to_list.
Qed.

Lemma StronglySorted_lt_NoDup (l : list Qc) : StronglySorted Qclt l → NoDup l.
Proof.
  induction 1 as [|x l _ IH Hx]; constructor; [|done].
  intros Hin. rewrite Forall_forall in Hx.
  by apply (Qclt_not_eq x x (Hx x Hin)).
Qed.

Lemma count_in_app t complete ongoing :
  count_in t (complete ++ ongoing) = leaving_at complete ongoing t.
Proof.
  unfold leaving_at, count_in. rewrite filter_app, length_app. lia.
Qed.

(** What is left at risk when the loop reaches [t]: the observations at [t]
    and at the later times, which are the observations not before [t]. *)
Lemma suffix_at_risk complete ongoing (pre post : list Qc) t :
  StronglySorted Qclt (pre ++ t :: post) →
  (∀ x, x ∈ complete ++ ongoing → x ∈ pre ++ t :: post) →
  zsum (leaving_at complete ongoing <$> (t :: post))
  = at_risk_at t complete ongoing.
Proof.
  intros Hsorted Hcover. unfold at_risk_at.
  rewrite <-(zsum_count_in (λ x, (t ≤ x)%Qc) (pre ++ t :: post))
    by (try done; by apply StronglySorted_lt_NoDup).
  rewrite fmap_app, zsum_app, (zsum_zero _ pre), Z.add_0_l.
  - apply zsum_ext. intros y Hy. rewrite decide_True; [by rewrite count_in_app|].
    apply StronglySorted_app_1_r, StronglySorted_cons in Hsorted as [Hle _].
    apply elem_of_cons in Hy as [->|Hy]; [apply Qcle_refl|].
    rewrite Forall_forall in Hle. by apply Qclt_le_weak, Hle.
  - intros y Hy. rewrite decide_False; [done|]. apply Qclt_not_le.
    eapply (StronglySorted_app_1_elem_of _ _ _ _ _ Hsorted); [done|by left].
Qed.

Lemma leaving_at_pos complete ongoing t :
  t ∈ complete ++ ongoing → 0 < leaving_at complete ongoing t.
Proof. intros Ht. rewrite <-count_in_app. by apply count_in_pos. Qed.

Lemma zsum_leaving_nonneg complete ongoing (l : list Qc) :
  0 ≤ zsum (leaving_at complete ongoing <$> l).
Proof.
  induction l as [|t l IH]; [done|]. rewrite fmap_cons. cbn [zsum foldr].
  unfold zsum in IH. unfold leaving_at at 1.
  pose proof (count_in_nonneg t complete).
  pose proof (count_in_nonneg t ongoing). lia.
Qed.

Lemma Series_new_index (l : list Qc) : (Series_new l).*1 = l.
Proof.
  unfold Series_new. rewrite <-list_fmap_compose.
  rewrite <-(list_fmap_id l) at 2. by apply list_fmap_ext.
Qed.

(** Setting the value at a label that occurs once. *)
Lemma Series_set_mid (pre rest : Series) t (v0 v : num) :
  t ∉ pre.*1 → t ∉ rest.*1 →
  Series_set (pre ++ (t, v0) :: rest) t v = pre ++ (t, v) :: rest.
Proof.
  intros Hpre Hrest. unfold Series_set.
  rewrite bool_decide_eq_true_2.
  - rewrite fmap_app, fmap_cons. cbn [fst].
    rewrite bool_decide_eq_true_2 by done. f_equal; [|f_equal].
    + rewrite <-(list_fmap_id pre) at 2. apply list_fmap_ext.
      intros i [k x] Hk. cbn. rewrite bool_decide_eq_false_2; [done|].
      intros ->. apply Hpre, list_elem_of_fmap. exists (t, x). split; [done|].
      by eapply list_elem_of_lookup_2.
    + rewrite <-(list_fmap_id rest) at 2. apply list_fmap_ext.
      intros i [k x] Hk. cbn. rewrite bool_decide_eq_false_2; [done|].
      intros ->. apply Hrest, list_elem_of_fmap. exists (t, x). split; [done|].
      by eapply list_elem_of_lookup_2.
  - rewrite fmap_app, fmap_cons. apply elem_of_app. right. by left.
Qed.

(** The loop over the times that are left, with the values of the earlier
    times already in place. *)
Lemma hazard_loop_spec complete ongoing (pre post : list Qc)
    (lams_pre : Series) :
  StronglySorted Qclt (pre ++ post) →
  (∀ x, x ∈ complete ++ ongoing ↔ x ∈ pre ++ post) →
  lams_pre.*1 = pre →
  hazard_loop (Counter complete) (Counter ongoing) post
    (zsum (leaving_at complete ongoing <$> post))
    (lams_pre ++ Series_new post)
  = Ok (lams_pre ++ ((λ t, (t, km_hazard complete ongoing t)) <$> post)).
Proof.
  revert pre lams_pre. induction post as [|t post IH];
    intros pre lams_pre Hsorted Hcover Hpre; [done|].
  cbn [hazard_loop]. rewrite !count_of_Counter.
  pose proof (suffix_at_risk complete ongoing pre post t Hsorted
                (λ x, proj1 (Hcover x))) as Hrisk.
  assert (Ht : 0 < leaving_at complete ongoing t).
  { apply leaving_at_pos, Hcover, elem_of_app. right. by left. }
  assert (Hpos : 0 < at_risk_at t complete ongoing).
  { rewrite <-Hrisk, fmap_cons. cbn [zsum foldr].
    pose proof (zsum_leaving_nonneg complete ongoing post) as Hnn.
    unfold zsum in Hnn. lia. }
  rewrite Hrisk. rewrite pydiv_ok by (apply of_Z_neq_0; lia).
  cbn [mbind result_bind]. unfold of_Z at 1 2. cbn [ndiv].
  rewrite decide_False
    by (rewrite <-Z2Qc_inj_0; intros ?%Z2Qc_inj; lia).
  fold (km_hazard complete ongoing t).
  pose proof (StronglySorted_lt_NoDup _ Hsorted) as Hnd.
  apply NoDup_app in Hnd as (_ & Hdisj & Hnd_post).
  apply NoDup_cons in Hnd_post as [Htpost _].
  change (Series_new (t :: post)) with ((t, NaN) :: Series_new post).
  rewrite Series_set_mid.
  - replace (at_risk_at t complete ongoing
             - (count_in t complete + count_in t ongoing))
      with (zsum (leaving_at complete ongoing <$> post)).
    + rewrite (cons_middle (t, km_hazard complete ongoing t)), app_assoc.
      rewrite (IH (pre ++ [t])).
      * by rewrite <-app_assoc.
      * by rewrite <-app_assoc.
      * intros x. by rewrite <-app_assoc.
      * rewrite fmap_app, Hpre. done.
    + rewrite <-Hrisk, fmap_cons. cbn [zsum foldr]. unfold leaving_at at 2.
      unfold zsum. lia.
  - rewrite Hpre. intros Hin. by apply (Hdisj t Hin); left.
  - by rewrite Series_new_index.
Qed.

End hazard.

Lemma result_num_eq (r : result num) (q : Qc) :
  match r with Ok v => neqb v (Fin q) | Raise _ => false end = true →
  r = Ok (Fin q).
Proof. destruct r as [v|e]; [|done]. by intros ->%neqb_eq_fin. Qed.

Lemma filter_True_length {A} (l : list A) :
  length (filter (λ _, True) l) = length l.
Proof.
  induction l as [|x l IH]; [done|]. rewrite filter_cons.
  destruct (decide True); [|done]. cbn [length]. by rewrite IH.
Qed.

Lemma total_leaving (complete ongoing : list Qc) :
  zsum (leaving_at complete ongoing <$> observed_times complete ongoing)
  = Z.of_nat (length complete) + Z.of_nat (length ongoing).
Proof.
  rewrite (zsum_ext _ (λ y, if decide ((λ _, True) y)
                            then count_in y (complete ++ ongoing) else 0)).
  - rewrite (zsum_count_in (λ _, True)).
    + rewrite filter_True_length, length_app. lia.
    + apply StronglySorted_lt_NoDup, observed_times_sorted.
    + intros x Hx. apply observed_times_elem. by apply elem_of_app.
  - intros y _. rewrite decide_True by done. by rewrite count_in_app.
Qed.

(** The survival curve of the lifetimes 1, 2, 2, 3 without censoring. *)
Lemma four_lifetimes_survival :
  ∃ hf, EstimateHazardFunction four_lifetimes [] "" = Ok hf ∧
        Survival_Prob (MakeSurvival hf "") (Qc_of_Z 0) = Ok (of_Z 1) ∧
        Survival_Prob (MakeSurvival hf "") (Qc_of_Z 1)
          = Ok (Fin (Qc_of_Z 3 / Qc_of_Z 4)%Qc) ∧
        Survival_Prob (MakeSurvival hf "") (Qc_of_Z 2)
          = Ok (Fin (Qc_of_Z 1 / Qc_of_Z 4)%Qc) ∧
        Survival_Prob (MakeSurvival hf "") (Qc_of_Z 3) = Ok (of_Z 0).
Proof.
  pose (check := λ (t : Z) (q : Qc),
    match EstimateHazardFunction four_lifetimes [] "" with
    | Ok hf =>
        match Survival_Prob (MakeSurvival hf "") (Qc_of_Z t) with
        | Ok v => neqb v (Fin q)
        | Raise _ => false
        end
    | Raise _ => false
    end).
  assert (H0 : check 0 (Qc_of_Z 1) = true) by (vm_compute; reflexivity).
  assert (H1 : check 1 (Qc_of_Z 3 / Qc_of_Z 4)%Qc = true)
    by (vm_compute; reflexivity).
  assert (H2 : check 2 (Qc_of_Z 1 / Qc_of_Z 4)%Qc = true)
    by (vm_compute; reflexivity).
  assert (H3 : check 3 (Qc_of_Z 0) = true) by (vm_compute; reflexivity).
  unfold check in *. clear check.
  destruct (EstimateHazardFunction four_lifetimes [] "") as [hf|e]; [|done].
  exists hf. split; [done|]. repeat split; by apply result_num_eq.
Qed.

(** C2.  [EstimateHazardFunction] returns, over the distinct observed times
    in ascending order, the hazard at each time [t] as the number of events
    at [t] divided by the number at risk at [t].  The number at risk is the
    number of observations, complete or ongoing, that are not before [t]; it
    is positive, and it is what the loop holds when it reaches [t]: the
    number of all observations less the events and censorings at the earlier
    times.  For the lifetimes 1, 2, 2, 3 without censoring the survival
    function of the result is 1 at 0, 3/4 at 1, 1/4 at 2 and 0 at 3. *)
Theorem EstimateHazardFunction_spec (complete ongoing : list Qc) lbl :
  let times := observed_times complete ongoing in
  StronglySorted Qclt times ∧
  (∀ t, t ∈ times ↔ t ∈ complete ∨ t ∈ ongoing) ∧
  EstimateHazardFunction complete ongoing lbl
  = Ok {| series := (λ t, (t, km_hazard complete ongoing t)) <$> times;
          hlabel := lbl |} ∧
  (∀ pre t post, times = pre ++ t :: post →
     at_risk_at t complete ongoing
     = Z.of_nat (length complete) + Z.of_nat (length ongoing)
       - zsum (leaving_at complete ongoing <$> pre) ∧
     0 < at_risk_at t complete ongoing) ∧
  (∃ hf, EstimateHazardFunction four_lifetimes [] "" = Ok hf ∧
         Survival_Prob (MakeSurvival hf "") (Qc_of_Z 0) = Ok (of_Z 1) ∧
         Survival_Prob (MakeSurvival hf "") (Qc_of_Z 1)
           = Ok (Fin (Qc_of_Z 3 / Qc_of_Z 4)%Qc) ∧
         Survival_Prob (MakeSurvival hf "") (Qc_of_Z 2)
           = Ok (Fin (Qc_of_Z 1 / Qc_of_Z 4)%Qc) ∧
         Survival_Prob (MakeSurvival hf "") (Qc_of_Z 3) = Ok (of_Z 0)).
Proof.
  intros times.
  pose proof (observed_times_sorted complete ongoing) as Hsorted.
  assert (Hcover : ∀ x, x ∈ complete ++ ongoing ↔ x ∈ times).
  { intros x. unfold times. by rewrite observed_times_elem, elem_of_app. }
  split; [done|]. split; [apply observed_times_elem|].
  split; [|split; [|apply four_lifetimes_survival]].
  - unfold EstimateHazardFunction. fold (observed_times complete ongoing).
    fold times. rewrite <-total_leaving. fold times.
    pose proof (hazard_loop_spec complete ongoing [] times [] Hsorted Hcover
                  eq_refl) as Hloop.
    cbn [app] in Hloop. by rewrite Hloop.
  - intros pre t post Hsplit. fold times in Hsorted. rewrite Hsplit in *.
    pose proof (suffix_at_risk complete ongoing pre post t Hsorted
                  (λ x, proj1 (Hcover x))) as Hrisk.
    pose proof (total_leaving complete ongoing) as Htotal.
    fold times in Htotal. rewrite Hsplit, fmap_app, zsum_app in Htotal.
    split; [lia|]. rewrite <-Hrisk, fmap_cons. cbn [zsum foldr].
    pose proof (zsum_leaving_nonneg complete ongoing post) as Hnn.
    unfold zsum in Hnn.
    assert (0 < leaving_at complete ongoing t); [|lia].
    apply leaving_at_pos, Hcover, elem_of_app. right. by left.
Qed.

Lemma EstimateHazardFunction_spec_witness :
  at_risk_at (Qc_of_Z 2) four_lifetimes [Qc_of_Z 2]
  = Z.of_nat (length four_lifetimes) + Z.of_nat (length [Qc_of_Z 2])
    - zsum (leaving_at four_lifetimes [Qc_of_Z 2] <$> [Qc_of_Z 1]) ∧
  0 < at_risk_at (Qc_of_Z 2) four_lifetimes [Qc_of_Z 2].
Proof.
  apply (proj1 (proj2 (proj2 (proj2
    (EstimateHazardFunction_spec four_lifetimes [Qc_of_Z 2] ""))))
    [Qc_of_Z 1] (Qc_of_Z 2) [Qc_of_Z 3]).
  apply (bool_decide_unpack _ (dec := list_eq_dec _ _)). by vm_compute.
Defined.

(** ** The binary searches end within their steps *)

Lemma bisect_right_loop_steps {A} (lt : A → A → bool) (a : list A) (x : A)
    (steps lo hi : nat) :
  (hi ≤ length a)%nat → (hi - lo < steps)%nat →
  bisect_right_loop lt a x (S steps) lo hi = bisect_right_loop lt a x steps lo hi.
Proof.
  revert lo hi. induction steps as [|steps IH]; intros lo hi Hhi Hsteps; [lia|].
  cbn [bisect_right_loop]. case_bool_decide as Hlt; [|done].
  pose proof (Nat.div_mod (lo + hi) 2 ltac:(done)) as Hdiv.
  pose proof (Nat.mod_upper_bound (lo + hi) 2 ltac:(done)) as Hmod.
  destruct (a !! ((lo + hi) / 2)%nat) as [am|] eqn:Ham; [|done].
  destruct (lt x am).
  - destruct (decide (lo < (lo + hi) / 2)%nat) as [Hlo|Hlo].
    + rewrite <-(IH lo ((lo + hi) / 2)%nat) by lia. done.
    + destruct steps; [lia|]. cbn [bisect_right_loop].
      by rewrite !bool_decide_eq_false_2 by lia.
  - destruct (decide (S ((lo + hi) / 2) < hi)%nat) as [Hmid|Hmid].
    + rewrite <-(IH (S ((lo + hi) / 2)) hi) by lia. done.
    + destruct steps; [lia|]. cbn [bisect_right_loop].
      by rewrite !bool_decide_eq_false_2 by lia.
Qed.

Lemma bisect_left_loop_steps {A} (lt : A → A → bool) (a : list A) (x : A)
    (steps lo hi : nat) :
  (hi ≤ length a)%nat → (hi - lo < steps)%nat →
  bisect_left_loop lt a x (S steps) lo hi = bisect_left_loop lt a x steps lo hi.
Proof.
  revert lo hi. induction steps as [|steps IH]; intros lo hi Hhi Hsteps; [lia|].
  cbn [bisect_left_loop]. case_bool_decide as Hlt; [|done].
  pose proof (Nat.div_mod (lo + hi) 2 ltac:(done)) as Hdiv.
  pose proof (Nat.mod_upper_bound (lo + hi) 2 ltac:(done)) as Hmod.
  destruct (a !! ((lo + hi) / 2)%nat) as [am|] eqn:Ham; [|done].
  destruct (lt am x).
  - destruct (decide (S ((lo + hi) / 2) < hi)%nat) as [Hmid|Hmid].
    + rewrite <-(IH (S ((lo + hi) / 2)) hi) by lia. done.
    + destruct steps; [lia|]. cbn [bisect_left_loop].
      by rewrite !bool_decide_eq_false_2 by lia.
  - destruct (decide (lo < (lo + hi) / 2)%nat) as [Hlo|Hlo].
    + rewrite <-(IH lo ((lo + hi) / 2)%nat) by lia. done.
    + destruct steps; [lia|]. cbn [bisect_left_loop].
      by rewrite !bool_decide_eq_false_2 by lia.
Qed.

(** * Further properties *)

(** ** Indexing *)

Lemma np_index_nat {A} (a : list A) (i : nat) (x : A) :
  a !! i = Some x → np_index a (Z.of_nat i) = Ok x.
Proof.
  intros Hx. pose proof (lookup_lt_Some _ _ _ Hx) as Hlt.
  unfold np_index. cbv zeta. rewrite (bool_decide_eq_false_2 (_ < 0)) by lia.
  rewrite bool_decide_eq_true_2 by lia. by rewrite Nat2Z.id, Hx.
Qed.

Lemma np_index_head {A} (a : list A) (x : A) :
  a !! 0%nat = Some x → np_index a 0 = Ok x.
Proof. apply (np_index_nat a 0). Qed.

Lemma np_index_pred {A} (a : list A) (i : nat) (x : A) :
  a !! i = Some x → np_index a (Z.of_nat (S i) - 1) = Ok x.
Proof.
  intros Hx. replace (Z.of_nat (S i) - 1) with (Z.of_nat i) by lia.
  by apply np_index_nat.
Qed.

Lemma np_index_minus_one {A} (a : list A) (x : A) :
  last a = Some x → np_index a (-1) = Ok x.
Proof.
  intros Hx. destruct (np_index_last a) as (y & Hy & Hl).
  { by intros ->. }
  congruence.
Qed.

(** ** The binary searches find the boundary *)

(** When the entries before position [i] are not above [x] and the entries
    from [i] on are, [bisect] returns [i]. *)
Lemma bisect_right_loop_found {A} (lt : A → A → bool) (a : list A) (x : A)
    (i steps lo hi : nat) :
  (∀ j aj, (j < i)%nat → a !! j = Some aj → lt x aj = false) →
  (∀ j aj, (i ≤ j)%nat → a !! j = Some aj → lt x aj = true) →
  (lo ≤ i ≤ hi)%nat → (hi ≤ length a)%nat → (hi - lo < steps)%nat →
  bisect_right_loop lt a x steps lo hi = i.
Proof.
  intros Hbelow Habove. revert lo hi.
  induction steps as [|steps IH]; intros lo hi Hi Hhi Hsteps; [lia|].
  cbn [bisect_right_loop]. case_bool_decide as Hlt; [|lia].
  pose proof (Nat.div_mod (lo + hi) 2 ltac:(done)) as Hdiv.
  pose proof (Nat.mod_upper_bound (lo + hi) 2 ltac:(done)) as Hmod.
  destruct (lookup_lt_is_Some_2 a ((lo + hi) / 2)%nat ltac:(lia)) as [am Ham].
  rewrite Ham. destruct (lt x am) eqn:Hx.
  - apply IH; [|lia..]. split; [lia|].
    destruct (decide (i ≤ (lo + hi) / 2)%nat); [done|].
    rewrite (Hbelow ((lo + hi) / 2)%nat am) in Hx; [done|lia|done].
  - apply IH; [|lia..]. split; [|lia].
    destruct (decide ((lo + hi) / 2 < i)%nat); [lia|].
    rewrite (Habove ((lo + hi) / 2)%nat am) in Hx; [done|lia|done].
Qed.

Lemma bisect_found {A} (lt : A → A → bool) (a : list A) (x : A) (i : nat) :
  (∀ j aj, (j < i)%nat → a !! j = Some aj → lt x aj = false) →
  (∀ j aj, (i ≤ j)%nat → a !! j = Some aj → lt x aj = true) →
  (i ≤ length a)%nat →
  bisect lt a x = Z.of_nat i.
Proof.
  intros Hbelow Habove Hi. unfold bisect. f_equal.
  apply bisect_right_loop_found; try done; lia.
Qed.

Lemma bisect_left_loop_found {A} (lt : A → A → bool) (a : list A) (x : A)
    (i steps lo hi : nat) :
  (∀ j aj, (j < i)%nat → a !! j = Some aj → lt aj x = true) →
  (∀ j aj, (i ≤ j)%nat → a !! j = Some aj → lt aj x = false) →
  (lo ≤ i ≤ hi)%nat → (hi ≤ length a)%nat → (hi - lo < steps)%nat →
  bisect_left_loop lt a x steps lo hi = i.
Proof.
  intros Hbelow Habove. revert lo hi.
  induction steps as [|steps IH]; intros lo hi Hi Hhi Hsteps; [lia|].
  cbn [bisect_left_loop]. case_bool_decide as Hlt; [|lia].
  pose proof (Nat.div_mod (lo + hi) 2 ltac:(done)) as Hdiv.
  pose proof (Nat.mod_upper_bound (lo + hi) 2 ltac:(done)) as Hmod.
  destruct (lookup_lt_is_Some_2 a ((lo + hi) / 2)%nat ltac:(lia)) as [am Ham].
  rewrite Ham. destruct (lt am x) eqn:Hx.
  - apply IH; [|lia..]. split; [|lia].
    destruct (decide ((lo + hi) / 2 < i)%nat); [lia|].
    rewrite (Habove ((lo + hi) / 2)%nat am) in Hx; [done|lia|done].
  - apply IH; [|lia..]. split; [lia|].
    destruct (decide (i ≤ (lo + hi) / 2)%nat); [done|].
    rewrite (Hbelow ((lo + hi) / 2)%nat am) in Hx; [done|lia|done].
Qed.

Lemma bisect_left_found {A} (lt : A → A → bool) (a : list A) (x : A) (i : nat) :
  (∀ j aj, (j < i)%nat → a !! j = Some aj → lt aj x = true) →
  (∀ j aj, (i ≤ j)%nat → a !! j = Some aj → lt aj x = false) →
  (i ≤ length a)%nat →
  bisect_left lt a x = Z.of_nat i.
Proof.
  intros Hbelow Habove Hi. unfold bisect_left. f_equal.
  apply bisect_left_loop_found; try done; lia.
Qed.

(** In an ascending list of rationals every [x] has its boundary. *)
Lemma boundary_right (a : list Qc) (x : Qc) :
  StronglySorted Qclt a →
  ∃ i, (i ≤ length a)%nat ∧
    (∀ j aj, (j < i)%nat → a !! j = Some aj → (aj ≤ x)%Qc) ∧
    (∀ j aj, (i ≤ j)%nat → a !! j = Some aj → (x < aj)%Qc).
Proof.
  induction 1 as [|y a Hs IH Hall].
  - exists 0%nat. split; [done|]. split; [lia|]. by intros j aj _.
  - destruct (Qclt_le_dec x y) as [Hxy|Hyx].
    + exists 0%nat. split; [cbn; lia|]. split; [lia|].
      intros [|j] aj _ Hj; [by injection Hj as <-|].
      cbn in Hj. apply list_elem_of_lookup_2 in Hj.
      rewrite Forall_forall in Hall. by etrans; [|apply Hall].
    + destruct IH as (i & Hi & Hb & Ha). exists (S i).
      split; [cbn; lia|]. split.
      * intros [|j] aj Hlt Hj; [by injection Hj as <-|].
        apply (Hb j); [lia|done].
      * intros [|j] aj Hle Hj; [lia|]. apply (Ha j); [lia|done].
Qed.

(** ** The order on numbers *)

Lemma nle_cases (x y : num) :
  nle x y ↔ nltb x y = true ∨ neqb x y = true.
Proof. unfold nle, nleb. apply orb_true_iff. Qed.

Lemma nle_nltb_trans (x y z : num) :
  nle x y → nltb y z = true → nltb x z = true.
Proof.
  unfold nle, nleb.
  destruct x as [a| | |], y as [b| | |], z as [c| | |]; cbn; try done.
  rewrite orb_true_iff, !bool_decide_eq_true.
  intros [Hab| ->] Hbc; [by etrans|done].
Qed.

Lemma nltb_nle_trans (x y z : num) :
  nltb x y = true → nle y z → nltb x z = true.
Proof.
  unfold nle, nleb.
  destruct x as [a| | |], y as [b| | |], z as [c| | |]; cbn; try done.
  rewrite orb_true_iff, !bool_decide_eq_true.
  intros Hab [Hbc| <-]; [by etrans|done].
Qed.

Global Instance nle_trans : Transitive nle.
Proof.
  intros x y z Hxy [Hyz|Hyz]%nle_cases.
  - apply nle_cases. left. by eapply nle_nltb_trans.
  - destruct y as [b| | |], z as [c| | |]; try done.
    apply bool_decide_eq_true in Hyz. by subst.
Qed.

Lemma nltb_nle (x y : num) : nltb x y = true → nle x y.
Proof. intros Hlt. apply nle_cases. by left. Qed.

Lemma nle_not_nltb (x y : num) : nle x y → nltb y x = false.
Proof.
  intros Hle. destruct (nltb y x) eqn:Hlt; [|done].
  by destruct (nltb_not_nle _ _ Hlt).
Qed.

(** Two numbers that are not [nan] compare one way or the other. *)
Lemma nltb_false_nle (x y : num) :
  nle x x → nle y y → nltb x y = false → nle y x.
Proof.
  unfold nle, nleb.
  destruct x as [a| | |], y as [b| | |]; cbn; try done.
  intros _ _ Hlt%bool_decide_eq_false. apply orb_true_iff.
  rewrite !bool_decide_eq_true.
  destruct (Qclt_le_dec a b) as [?|[?| ->]%Qcle_lt_or_eq]; auto. done.
Qed.

Lemma nle_refl_l (x y : num) : nle x y → nle x x.
Proof.
  unfold nle, nleb. destruct x as [a| | |], y; cbn; try done.
  all: intros _; apply orb_true_iff; right; by apply bool_decide_eq_true.
Qed.

Lemma nle_refl_r (x y : num) : nle x y → nle y y.
Proof.
  unfold nle, nleb. destruct x, y as [b| | |]; cbn; try done.
  all: intros _; apply orb_true_iff; right; by apply bool_decide_eq_true.
Qed.

(** ** [Odds] and [Probability] undo each other *)

Lemma Fin_inj (a b : Qc) : Fin a = Fin b → a = b.
Proof. intros Heq. exact (f_equal fin_part Heq). Qed.

Lemma Qc_plus_one_ne (o : Qc) : o ≠ (- 1)%Qc → (o + 1)%Qc ≠ 0%Qc.
Proof.
  intros Ho Hz. apply Ho. rewrite <-(Qcplus_0_l (- 1)%Qc), <-Hz. ring.
Qed.

Lemma Qc_prob_ne_one (o : Qc) : o ≠ (- 1)%Qc → (o / (o + 1))%Qc ≠ 1%Qc.
Proof.
  intros Ho Hone. pose proof (Qc_plus_one_ne o Ho) as Hd.
  assert (Hmul : (o / (o + 1) * (o + 1) = o)%Qc) by (by field).
  rewrite Hone, Qcmult_1_l in Hmul.
  assert (Hz : (1 = 0)%Qc).
  { replace 1%Qc with ((o + 1) - o)%Qc by ring. rewrite Hmul. ring. }
  discriminate.
Qed.

Lemma Probability_fin (o : Qc) :
  o ≠ (- 1)%Qc → Probability (Fin o) = Ok (Fin (o / (o + 1))%Qc).
Proof.
  intros Ho. pose proof (Qc_plus_one_ne o Ho) as Hd.
  unfold Probability. rewrite pydiv_ok.
  - unfold num_one. cbn [nadd ndiv]. by rewrite decide_False.
  - unfold num_one, num_zero. cbn [nadd neqb]. by apply bool_decide_eq_false.
Qed.

(** X1.  For a finite probability [p] other than 1, [Probability(Odds(p))]
    is [p]; for finite odds [o] other than -1, [Odds(Probability(o))] is
    [o].  Neither call raises on the way. *)
Theorem Odds_Probability_round_trip :
  (∀ p : Qc, p ≠ 1%Qc → (o ← Odds (Fin p); Probability o) = Ok (Fin p)) ∧
  (∀ o : Qc, o ≠ (- 1)%Qc → (p ← Probability (Fin o); Odds p) = Ok (Fin o)).
Proof.
  split.
  - intros p Hp. rewrite Odds_returns. cbn [mbind result_bind].
    by rewrite Probability_of_odds, prob_of_odds_of.
  - intros o Ho. rewrite Probability_fin by done. cbn [mbind result_bind].
    pose proof (Qc_plus_one_ne o Ho) as Hd.
    pose proof (Qc_prob_ne_one o Ho) as Hone.
    rewrite Odds_returns, odds_of_fin by done. do 2 f_equal.
    field. split; [exact Hd|].
    assert (Hx : ∀ x : Qc, (o + x - o)%Qc = x) by (intros; ring).
    rewrite Hx. intros Hz. apply (f_equal this) in Hz. by vm_compute in Hz.
Qed.

Lemma Odds_Probability_round_trip_witness :
  (o ← Odds (Fin (Qc_of_Z 3 / Qc_of_Z 4)%Qc); Probability o)
    = Ok (Fin (Qc_of_Z 3 / Qc_of_Z 4)%Qc) ∧
  (p ← Probability (Fin (Qc_of_Z 3)); Odds p) = Ok (Fin (Qc_of_Z 3)).
Proof.
  split.
  - apply (proj1 Odds_Probability_round_trip). by vm_compute.
  - apply (proj2 Odds_Probability_round_trip). by vm_compute.
Defined.

(** X2.  [Odds] returns at every number, [inf] at 1 included.
    [Probability] raises [ZeroDivisionError] at the odds -1 and nowhere
    else, and [Probability2(yes, no)] raises it exactly when [yes + no] is
    zero. *)
Theorem Odds_Probability_errors :
  (∀ p, returns (Odds p)) ∧
  Odds num_one = Ok PInf ∧
  (∀ o, Probability o = Raise ZeroDivisionError ↔ o = Fin (- 1)%Qc) ∧
  (∀ o, o ≠ Fin (- 1)%Qc → returns (Probability o)) ∧
  (∀ yes no, Probability2 yes no = Raise ZeroDivisionError
             ↔ yes +ₙ no = num_zero).
Proof.
  assert (Hdiv : ∀ x y, pydiv x y = Raise ZeroDivisionError ↔ y = num_zero).
  { intros x y. unfold pydiv. destruct (neqb y num_zero) eqn:Hy.
    - by apply neqb_eq_fin in Hy.
    - split; [done|]. intros ->. by vm_compute in Hy. }
  assert (Hone : ∀ o, o +ₙ num_one = num_zero ↔ o = Fin (- 1)%Qc).
  { intros [a| | |]; try done. unfold num_one, num_zero. cbn [nadd]. split.
    - intros Ha%Fin_inj. f_equal. rewrite <-(Qcplus_0_l (- 1)%Qc), <-Ha. ring.
    - intros ->%Fin_inj. f_equal; ring. }
  split; [intros p; rewrite Odds_returns; by eexists|].
  split; [done|]. split; [|split].
  - intros o. unfold Probability. by rewrite Hdiv, Hone.
  - intros o Ho. unfold Probability, pydiv.
    destruct (neqb (o +ₙ num_one) num_zero) eqn:Hz; [|by eexists].
    apply neqb_eq_fin in Hz. by apply Hone in Hz.
  - intros yes no. unfold Probability2. by rewrite Hdiv.
Qed.

Lemma Odds_Probability_errors_witness :
  returns (Probability (Fin (Qc_of_Z 2))).
Proof.
  apply (proj1 (proj2 (proj2 (proj2 Odds_Probability_errors)))).
  by intros [=].
Defined.

(** ** Lookups in a [Cdf] *)

Lemma StronglySorted_lookup {A} (R : relation A) (l : list A) (i j : nat)
    (a b : A) :
  StronglySorted R l → (i < j)%nat → l !! i = Some a → l !! j = Some b →
  R a b.
Proof.
  intros Hs. revert i j.
  induction Hs as [|x l Hs IH Hall]; intros i j Hij Hi Hj; [done|].
  destruct j as [|j]; [lia|]. cbn in Hj. destruct i as [|i].
  - injection Hi as <-. rewrite Forall_forall in Hall. apply Hall.
    by eapply list_elem_of_lookup_2.
  - cbn in Hi. apply (IH i j); [lia|done..].
Qed.

Lemma Qclt_lookup_le (l : list Qc) (i j : nat) (a b : Qc) :
  StronglySorted Qclt l → (i ≤ j)%nat → l !! i = Some a → l !! j = Some b →
  (a ≤ b)%Qc.
Proof.
  intros Hs Hij Hi Hj. destruct (decide (i = j)) as [->|Hne].
  - rewrite Hi in Hj. injection Hj as <-. apply Qcle_refl.
  - apply Qclt_le_weak. eapply (StronglySorted_lookup Qclt); [done| |done..].
    lia.
Qed.

(** [Prob] at an [x] that lies in the step of the position [i]. *)
Lemma Cdf_Prob_at (c : Cdf Qc) (x : Qc) (i : nat) (xi : Qc) (p : num) :
  StronglySorted Qclt (xs c) →
  xs c !! i = Some xi → ps c !! i = Some p → (xi ≤ x)%Qc →
  (∀ xj, xs c !! S i = Some xj → (x < xj)%Qc) →
  Cdf_Prob c x = Ok p.
Proof.
  intros Hs Hi Hp Hle Hnext. pose proof (lookup_lt_Some _ _ _ Hi) as Hlen.
  destruct (lookup_lt_is_Some_2 (xs c) 0) as [x0 H0]; [lia|].
  assert (Hx0 : (x0 ≤ x)%Qc).
  { trans xi; [|done]. apply (Qclt_lookup_le (xs c) 0 i); [done|lia|done..]. }
  unfold Cdf_Prob. rewrite (np_index_head _ _ H0). cbn [mbind result_bind].
  unfold Qc_ltb at 1. rewrite bool_decide_eq_false_2 by by apply Qcle_not_lt.
  rewrite (bisect_found Qc_ltb (xs c) x (S i)).
  - by apply np_index_pred.
  - intros j aj Hj Haj. apply bool_decide_eq_false, Qcle_not_lt.
    trans xi; [|done]. apply (Qclt_lookup_le (xs c) j i); [done|lia|done..].
  - intros j aj Hj Haj. apply bool_decide_eq_true.
    pose proof (lookup_lt_Some _ _ _ Haj) as Hj'.
    destruct (lookup_lt_is_Some_2 (xs c) (S i)) as [xj Hxj]; [lia|].
    eapply Qclt_le_trans; [by apply Hnext|].
    apply (Qclt_lookup_le (xs c) (S i) j); [done|lia|done..].
  - lia.
Qed.

Lemma Cdf_Prob_below (c : Cdf Qc) (x x0 : Qc) :
  head (xs c) = Some x0 → (x < x0)%Qc → Cdf_Prob c x = Ok num_zero.
Proof.
  intros H0 Hlt. rewrite head_lookup in H0. unfold Cdf_Prob.
  rewrite (np_index_head _ _ H0). cbn [mbind result_bind].
  unfold Qc_ltb. by rewrite bool_decide_eq_true_2.
Qed.

(** What [Prob] returns, read backwards. *)
Lemma Cdf_Prob_cases (c : Cdf Qc) (x : Qc) :
  StronglySorted Qclt (xs c) → length (xs c) = length (ps c) → xs c ≠ [] →
  (∃ x0, head (xs c) = Some x0 ∧ (x < x0)%Qc ∧ Cdf_Prob c x = Ok num_zero) ∨
  (∃ i xi p, xs c !! i = Some xi ∧ ps c !! i = Some p ∧ (xi ≤ x)%Qc ∧
     (∀ xj, xs c !! S i = Some xj → (x < xj)%Qc) ∧ Cdf_Prob c x = Ok p).
Proof.
  intros Hs Hlen Hne.
  destruct (boundary_right (xs c) x Hs) as (i & Hi & Hbelow & Habove).
  destruct i as [|i].
  - left. destruct (xs c) as [|x0 l] eqn:Hxs; [done|]. exists x0.
    assert (Hlt : (x < x0)%Qc) by (by apply (Habove 0%nat); [lia|]).
    split; [done|]. split; [done|].
    apply (Cdf_Prob_below c x x0); [by rewrite Hxs|done].
  - right.
    destruct (lookup_lt_is_Some_2 (xs c) i) as [xi Hxi]; [lia|].
    destruct (lookup_lt_is_Some_2 (ps c) i) as [p Hp]; [lia|].
    exists i, xi, p.
    assert (Hle : (xi ≤ x)%Qc) by (apply (Hbelow i); [lia|done]).
    assert (Hnext : ∀ xj, xs c !! S i = Some xj → (x < xj)%Qc).
    { intros xj Hxj. by apply (Habove (S i)). }
    split; [done|]. split; [done|]. split; [done|]. split; [done|].
    by eapply Cdf_Prob_at.
Qed.

Lemma Cdf_invariant_nonempty (c : Cdf Qc) : Cdf_invariant c → xs c ≠ [].
Proof.
  intros (_ & _ & Hlen & Hlast) Hnil. rewrite Hnil in Hlen.
  destruct (ps c); [done|]. done.
Qed.

Lemma Cdf_invariant_last (c : Cdf Qc) (xn : Qc) :
  Cdf_invariant c → last (xs c) = Some xn →
  xs c !! pred (length (xs c)) = Some xn ∧
  ps c !! pred (length (xs c)) = Some num_one.
Proof.
  intros (_ & _ & Hlen & Hlast) Hxn. rewrite last_lookup in Hxn.
  split; [done|]. by rewrite Hlen, <-last_lookup.
Qed.

(** X3.  On a [Cdf] that satisfies its invariant, [Prob] returns at every
    [x]: 0 below the first value, the cumulative probability of the last
    value that is not above [x] otherwise, and so 1 from the last value on. *)
Theorem Cdf_Prob_spec (c : Cdf Qc) :
  Cdf_invariant c →
  (∀ x, returns (Cdf_Prob c x)) ∧
  (∀ x x0, head (xs c) = Some x0 → (x < x0)%Qc →
     Cdf_Prob c x = Ok num_zero) ∧
  (∀ x i xi p, xs c !! i = Some xi → ps c !! i = Some p → (xi ≤ x)%Qc →
     (∀ xj, xs c !! S i = Some xj → (x < xj)%Qc) → Cdf_Prob c x = Ok p) ∧
  (∀ x xn, last (xs c) = Some xn → (xn ≤ x)%Qc → Cdf_Prob c x = Ok num_one).
Proof.
  intros Hinv. pose proof (Cdf_invariant_nonempty c Hinv) as Hne.
  pose proof Hinv as (Hs & Hps & Hlen & Hlast).
  split; [|split; [|split]].
  - intros x.
    destruct (Cdf_Prob_cases c x Hs Hlen Hne)
      as [(x0 & _ & _ & ->)|(i & xi & p & _ & _ & _ & _ & ->)]; by eexists.
  - apply Cdf_Prob_below.
  - intros x i xi p. by apply Cdf_Prob_at.
  - intros x xn Hxn Hle.
    destruct (Cdf_invariant_last c xn Hinv Hxn) as [Hx Hp].
    apply (Cdf_Prob_at c x _ xn num_one Hs Hx Hp Hle).
    intros xj Hxj. apply lookup_lt_Some in Hxj.
    destruct (xs c); [done|]. cbn in Hxj. lia.
Qed.

Lemma cdf_quarters_invariant : Cdf_invariant cdf_quarters.
Proof. apply (bool_decide_unpack _). by vm_compute. Qed.

Lemma Cdf_Prob_spec_witness :
  Cdf_Prob cdf_quarters (Qc_of_Z 5 / Qc_of_Z 2)%Qc
    = Ok (Fin (Qc_of_Z 1 / Qc_of_Z 2)%Qc) ∧
  Cdf_Prob cdf_quarters (Qc_of_Z 7) = Ok num_one.
Proof.
  destruct (Cdf_Prob_spec cdf_quarters cdf_quarters_invariant)
    as (_ & _ & Hat & Hlast).
  split.
  - apply (Hat _ 1%nat (Qc_of_Z 2)); [done|done|by vm_compute|].
    intros xj [= <-]. by vm_compute.
  - apply (Hlast _ (Qc_of_Z 3)); [done|by vm_compute].
Defined.

Lemma Cdf_ps_sorted (c : Cdf Qc) (i j : nat) (p q : num) :
  Cdf_invariant c → (i ≤ j)%nat → ps c !! i = Some p → ps c !! j = Some q →
  nle p q.
Proof.
  intros (_ & Hps & Hlen & Hlast) Hij Hp Hq.
  apply Sorted_StronglySorted in Hps; [|apply _].
  assert (Hlt : ∀ i j p q, (i < j)%nat → ps c !! i = Some p →
            ps c !! j = Some q → nle p q).
  { intros ????. by apply StronglySorted_lookup. }
  destruct (decide (i = j)) as [->|Hne]; [|apply (Hlt i j); [lia|done..]].
  rewrite Hp in Hq. injection Hq as <-.
  rewrite last_lookup in Hlast. pose proof (lookup_lt_Some _ _ _ Hp) as Hj.
  destruct (decide (j = pred (length (ps c)))) as [->|Hlast'].
  - rewrite Hp in Hlast. by injection Hlast as ->.
  - eapply nle_refl_l, (Hlt j (pred (length (ps c)))); [lia|done..].
Qed.

(** X4.  On a [Cdf] that satisfies its invariant and whose first cumulative
    probability is not negative, [Prob] never decreases. *)
Theorem Cdf_Prob_monotone (c : Cdf Qc) (x y : Qc) (px py : num) :
  Cdf_invariant c →
  (∀ p0, head (ps c) = Some p0 → nle num_zero p0) →
  (x ≤ y)%Qc → Cdf_Prob c x = Ok px → Cdf_Prob c y = Ok py → nle px py.
Proof.
  intros Hinv Hpos Hxy Hx Hy.
  pose proof (Cdf_invariant_nonempty c Hinv) as Hne.
  pose proof Hinv as (Hs & Hps & Hlen & Hlast).
  destruct (Cdf_Prob_cases c y Hs Hlen Hne)
    as [(y0 & Hy0 & Hlt & Hy')|(j & yj & q & Hyj & Hq & Hle & Hnext & Hy')].
  - rewrite (Cdf_Prob_below c x y0) in Hx; [|done|by eapply Qcle_lt_trans].
    rewrite Hy' in Hy. injection Hx as <-. injection Hy as <-. done.
  - rewrite Hy' in Hy. injection Hy as <-.
    destruct (lookup_lt_is_Some_2 (ps c) 0) as [p0 Hp0].
    { apply lookup_lt_Some in Hq. lia. }
    assert (H0 : nle num_zero p0) by (apply Hpos; by rewrite head_lookup).
    destruct (Cdf_Prob_cases c x Hs Hlen Hne)
      as [(x0 & Hx0 & Hlt & Hx')|(i & xi & p & Hxi & Hp & Hle' & Hnext' & Hx')].
    + rewrite Hx' in Hx. injection Hx as <-. etrans; [done|].
      eapply (Cdf_ps_sorted c 0 j); [done|lia|done..].
    + rewrite Hx' in Hx. injection Hx as <-.
      eapply (Cdf_ps_sorted c i j); [done| |done..].
      destruct (decide (i ≤ j)%nat) as [|Hji]; [done|]. exfalso.
      destruct (lookup_lt_is_Some_2 (xs c) (S j)) as [xj Hxj].
      { apply lookup_lt_Some in Hxi. lia. }
      apply (Qclt_not_le _ _ (Hnext xj Hxj)).
      trans x; [|done]. trans xi; [|done].
      apply (Qclt_lookup_le (xs c) (S j) i); [done|lia|done..].
Qed.

Lemma Cdf_Prob_monotone_witness :
  nle (Fin (Qc_of_Z 1 / Qc_of_Z 4)%Qc) (Fin (Qc_of_Z 1 / Qc_of_Z 2)%Qc).
Proof.
  apply (Cdf_Prob_monotone cdf_quarters (Qc_of_Z 1) (Qc_of_Z 2) _ _
           cdf_quarters_invariant).
  - intros p0 [= <-]. by vm_compute.
  - by vm_compute.
  - apply result_num_eq. by vm_compute.
  - apply result_num_eq. by vm_compute.
Defined.

(** In a list of numbers in ascending order every [p] has its boundary. *)
Lemma boundary_left (l : list num) (p : num) :
  StronglySorted nle l →
  ∃ i, (i ≤ length l)%nat ∧
    (∀ j pj, (j < i)%nat → l !! j = Some pj → nltb pj p = true) ∧
    (∀ j pj, (i ≤ j)%nat → l !! j = Some pj → nltb pj p = false).
Proof.
  induction 1 as [|y l Hs IH Hall].
  - exists 0%nat. split; [done|]. split; [lia|]. by intros j pj _.
  - destruct (nltb y p) eqn:Hy.
    + destruct IH as (i & Hi & Hb & Ha). exists (S i).
      split; [cbn; lia|]. split.
      * intros [|j] pj Hlt Hj; [by injection Hj as <-|].
        apply (Hb j); [lia|done].
      * intros [|j] pj Hle Hj; [lia|]. apply (Ha j); [lia|done].
    + exists 0%nat. split; [cbn; lia|]. split; [lia|].
      intros [|j] pj _ Hj; [by injection Hj as <-|].
      cbn in Hj. apply list_elem_of_lookup_2 in Hj.
      rewrite Forall_forall in Hall.
      destruct (nltb pj p) eqn:Hpj; [|done].
      by rewrite (nle_nltb_trans y pj p (Hall _ Hj) Hpj) in Hy.
Qed.

(** [Value] at a [p] of [[0, 1]]: the first value whose cumulative
    probability reaches [p]. *)
Lemma Cdf_Value_at (c : Cdf Qc) (p : num) :
  Cdf_invariant c → nle num_zero p → nle p num_one →
  ∃ (i : nat) (x : Qc) (pi : num),
    Cdf_Value c p = Ok x ∧ xs c !! i = Some x ∧ ps c !! i = Some pi ∧
    nle p pi ∧
    (∀ j pj, (j < i)%nat → ps c !! j = Some pj → nltb pj p = true) ∧
    Cdf_Prob c x = Ok pi.
Proof.
  intros Hinv H0 H1. pose proof Hinv as (Hs & Hps & Hlen & Hlast).
  apply Sorted_StronglySorted in Hps; [|apply _].
  destruct (boundary_left (ps c) p Hps) as (i & Hi & Hbelow & Habove).
  rewrite last_lookup in Hlast.
  assert (Hlt : (i < length (ps c))%nat).
  { destruct (decide (i < length (ps c))%nat) as [|Hge]; [done|].
    pose proof (lookup_lt_Some _ _ _ Hlast) as Hlen'.
    pose proof (Hbelow (pred (length (ps c))) num_one) as Hb.
    rewrite (nle_not_nltb _ _ H1) in Hb. discriminate Hb; [lia|done]. }
  destruct (lookup_lt_is_Some_2 (ps c) i Hlt) as [pi Hpi].
  destruct (lookup_lt_is_Some_2 (xs c) i) as [x Hx]; [lia|].
  exists i, x, pi.
  assert (Hv : Cdf_Value c p = Ok x).
  { unfold Cdf_Value.
    rewrite (nle_not_nltb _ _ H0), (nle_not_nltb _ _ H1). cbn [orb].
    rewrite (bisect_left_found nltb (ps c) p i); [|done|done|lia].
    by apply np_index_nat. }
  split; [done|]. split; [done|]. split; [done|]. split; [|split; [done|]].
  - apply nltb_false_nle.
    + eapply (Cdf_ps_sorted c i i); done.
    + by eapply nle_refl_r.
    + by apply (Habove i).
  - eapply Cdf_Prob_at; [done..|apply Qcle_refl|].
    intros xj Hxj. eapply (StronglySorted_lookup Qclt); [done| |done..]. lia.
Qed.

(** X5.  On a [Cdf] that satisfies its invariant, [Value] returns at every
    [p] of [[0, 1]] the first value whose cumulative probability is at
    least [p]; it raises nothing there, and [Prob] of the value returned is
    at least [p]. *)
Theorem Cdf_Value_spec (c : Cdf Qc) (p : num) :
  Cdf_invariant c → nle num_zero p → nle p num_one →
  ∃ (i : nat) (x : Qc) (pi : num),
    Cdf_Value c p = Ok x ∧ xs c !! i = Some x ∧ ps c !! i = Some pi ∧
    nle p pi ∧
    (∀ j pj, (j < i)%nat → ps c !! j = Some pj → nltb pj p = true) ∧
    Cdf_Prob c x = Ok pi.
Proof. apply Cdf_Value_at. Qed.

Lemma Cdf_Value_spec_witness :
  ∃ (i : nat) (x : Qc) (pi : num),
    Cdf_Value cdf_quarters (Fin (Qc_of_Z 1 / Qc_of_Z 3)%Qc) = Ok x ∧
    xs cdf_quarters !! i = Some x ∧ ps cdf_quarters !! i = Some pi ∧
    nle (Fin (Qc_of_Z 1 / Qc_of_Z 3)%Qc) pi ∧
    (∀ j pj, (j < i)%nat → ps cdf_quarters !! j = Some pj →
       nltb pj (Fin (Qc_of_Z 1 / Qc_of_Z 3)%Qc) = true) ∧
    Cdf_Prob cdf_quarters x = Ok pi.
Proof.
  apply (Cdf_Value_spec cdf_quarters (Fin (Qc_of_Z 1 / Qc_of_Z 3)%Qc)
           cdf_quarters_invariant); by vm_compute.
Defined.

(** X6.  On a [Cdf] that satisfies its invariant and whose first cumulative
    probability is not negative, [Value(Prob(x))] returns, for an [x] that
    is not below the first value, a value that is not above [x]. *)
Theorem Cdf_Value_of_Prob (c : Cdf Qc) (x x0 : Qc) (q : num) :
  Cdf_invariant c →
  (∀ p0, head (ps c) = Some p0 → nle num_zero p0) →
  head (xs c) = Some x0 → (x0 ≤ x)%Qc → Cdf_Prob c x = Ok q →
  ∃ v, Cdf_Value c q = Ok v ∧ (v ≤ x)%Qc.
Proof.
  intros Hinv Hpos Hx0 Hle Hq.
  pose proof (Cdf_invariant_nonempty c Hinv) as Hne.
  pose proof Hinv as (Hs & Hps & Hlen & Hlast).
  destruct (Cdf_Prob_cases c x Hs Hlen Hne)
    as [(x0' & Hx0' & Hlt & _)|(i & xi & p & Hxi & Hp & Hle' & _ & Hx')].
  { simplify_eq. by destruct (Qclt_not_le _ _ Hlt). }
  rewrite Hx' in Hq. injection Hq as <-.
  destruct (lookup_lt_is_Some_2 (ps c) 0) as [p0 Hp0].
  { apply lookup_lt_Some in Hp. lia. }
  assert (H0 : nle num_zero p).
  { etrans; [apply Hpos; by rewrite head_lookup|].
    eapply (Cdf_ps_sorted c 0 i); [done|lia|done..]. }
  assert (H1 : nle p num_one).
  { rewrite last_lookup in Hlast. pose proof (lookup_lt_Some _ _ _ Hp).
    eapply (Cdf_ps_sorted c i (pred (length (ps c)))); [done|lia|done..]. }
  destruct (Cdf_Value_at c p Hinv H0 H1)
    as (k & v & pk & Hv & Hxk & Hpk & _ & Hfirst & _).
  exists v. split; [done|]. etrans; [|done].
  eapply Qclt_lookup_le; [done| |done..].
  destruct (decide (k ≤ i)%nat) as [|Hik]; [done|]. exfalso.
  pose proof (Hfirst i p ltac:(lia) Hp) as Hpp.
  by destruct (nltb_not_nle _ _ Hpp); eapply nle_refl_r.
Qed.

Lemma Cdf_Value_of_Prob_witness :
  ∃ v, Cdf_Value cdf_quarters (Fin (Qc_of_Z 1 / Qc_of_Z 2)%Qc) = Ok v ∧
       (v ≤ Qc_of_Z 5 / Qc_of_Z 2)%Qc.
Proof.
  apply (Cdf_Value_of_Prob cdf_quarters _ (Qc_of_Z 1) _ cdf_quarters_invariant).
  - intros p0 [= <-]. by vm_compute.
  - done.
  - by vm_compute.
  - apply result_num_eq. by vm_compute.
Defined.

(** ** [Interpolator] *)

Lemma Qc_sub_pos (a b : Qc) : (a < b)%Qc → (0 < b - a)%Qc.
Proof. intros Hab. by apply (proj1 (Qclt_minus_iff a b)). Qed.

Lemma Qc_sub_nonneg (a b : Qc) : (a ≤ b)%Qc → (0 ≤ b - a)%Qc.
Proof. intros Hab. by apply (proj1 (Qcle_minus_iff a b)). Qed.

Lemma Qc_sub_ne (a b : Qc) : (a < b)%Qc → (b - a)%Qc ≠ 0%Qc.
Proof.
  intros Hab Hz. apply Qc_sub_pos in Hab. rewrite Hz in Hab.
  by apply Qclt_not_eq in Hab.
Qed.

Lemma last_lookup_le {A} (l : list A) (i : nat) (x : A) :
  l !! i = Some x → ∃ y, last l = Some y ∧ l !! pred (length l) = Some y ∧
                         (i ≤ pred (length l))%nat.
Proof.
  intros Hi. pose proof (lookup_lt_Some _ _ _ Hi) as Hlt.
  destruct (lookup_lt_is_Some_2 l (pred (length l))) as [y Hy]; [lia|].
  exists y. rewrite last_lookup. split; [done|]. split; [done|lia].
Qed.

(** [_Bisect] below the first point and above the last one. *)
Lemma Interpolator_Bisect_low (xs ys : list Qc) (x x0 : Qc) :
  head xs = Some x0 → (x ≤ x0)%Qc →
  Interpolator_Bisect x xs ys = np_index ys 0.
Proof.
  intros H0 Hle. rewrite head_lookup in H0. unfold Interpolator_Bisect.
  rewrite (np_index_head _ _ H0). cbn [mbind result_bind].
  by rewrite bool_decide_eq_true_2.
Qed.

Lemma Interpolator_Bisect_high (xs ys : list Qc) (x x0 xn : Qc) :
  head xs = Some x0 → last xs = Some xn → (x0 < x)%Qc → (xn ≤ x)%Qc →
  Interpolator_Bisect x xs ys = np_index ys (-1).
Proof.
  intros H0 Hn Hlt Hle. rewrite head_lookup in H0. unfold Interpolator_Bisect.
  rewrite (np_index_head _ _ H0). cbn [mbind result_bind].
  rewrite bool_decide_eq_false_2 by by apply Qclt_not_le.
  rewrite (np_index_minus_one _ _ Hn). cbn [mbind result_bind].
  by rewrite bool_decide_eq_true_2.
Qed.

(** [_Bisect] between two neighbours. *)
Lemma Interpolator_Bisect_between (xs ys : list Qc) (x : Qc) (i : nat)
    (a b ya yb : Qc) :
  StronglySorted Qclt xs →
  xs !! i = Some a → xs !! S i = Some b →
  ys !! i = Some ya → ys !! S i = Some yb →
  (a ≤ x)%Qc → (x < b)%Qc → (i = 0%nat → (a < x)%Qc) →
  Interpolator_Bisect x xs ys
  = Ok (ya + 1 * (x - a) / (b - a) * 1 * (yb - ya))%Qc.
Proof.
  intros Hs Ha Hb Hya Hyb Hax Hxb Hfirst.
  destruct (lookup_lt_is_Some_2 xs 0) as [x0 H0].
  { apply lookup_lt_Some in Ha. lia. }
  destruct (last_lookup_le xs (S i) b Hb) as (xn & Hn & Hn' & Hle).
  assert (Hx0 : (x0 < x)%Qc).
  { destruct i as [|i]; [simplify_eq; by apply Hfirst|].
    apply (Qclt_le_trans _ a); [|done].
    apply (StronglySorted_lookup Qclt xs 0 (S i)); [done|lia|done..]. }
  assert (Hxn : (x < xn)%Qc).
  { apply (Qclt_le_trans _ b); [done|].
    by apply (Qclt_lookup_le xs (S i) (pred (length xs))). }
  unfold Interpolator_Bisect.
  rewrite (np_index_head _ _ H0). cbn [mbind result_bind].
  rewrite bool_decide_eq_false_2 by by apply Qclt_not_le.
  rewrite (np_index_minus_one _ _ Hn). cbn [mbind result_bind].
  rewrite bool_decide_eq_false_2 by by apply Qclt_not_le.
  cbv zeta. rewrite (bisect_found Qc_ltb xs x (S i)).
  - rewrite (np_index_pred _ _ _ Ha), (np_index_nat _ _ _ Hb).
    cbn [mbind result_bind]. unfold Qc_div.
    rewrite bool_decide_eq_false_2.
    2:{ apply Qc_sub_ne. by apply (Qcle_lt_trans _ x). }
    cbn [mbind result_bind].
    rewrite (np_index_pred _ _ _ Hya), (np_index_nat _ _ _ Hyb).
    by cbn [mbind result_bind].
  - intros j aj Hj Haj. apply bool_decide_eq_false, Qcle_not_lt.
    trans a; [|done]. apply (Qclt_lookup_le xs j i); [done|lia|done..].
  - intros j aj Hj Haj. apply bool_decide_eq_true.
    apply (Qclt_le_trans _ b); [done|].
    apply (Qclt_lookup_le xs (S i) j); [done|lia|done..].
  - apply lookup_lt_Some in Hb. lia.
Qed.

(** X7.  When the points of an [Interpolator] are strictly ascending and
    there are as many values as points, [Lookup] at the point of position
    [i] returns the value of position [i]. *)
Theorem Interpolator_Lookup_knot (self : Interpolator) (i : nat) (x y : Qc) :
  StronglySorted Qclt (ixs self) → length (ixs self) = length (iys self) →
  ixs self !! i = Some x → iys self !! i = Some y →
  Lookup self x = Ok y.
Proof.
  intros Hs Hlen Hx Hy. unfold Lookup.
  pose proof (lookup_lt_Some _ _ _ Hx) as Hi.
  destruct (lookup_lt_is_Some_2 (ixs self) 0) as [x0 H0]; [lia|].
  destruct i as [|i].
  { rewrite (Interpolator_Bisect_low _ _ x x0); [by apply np_index_head| |].
    - by rewrite head_lookup.
    - simplify_eq. apply Qcle_refl. }
  assert (Hx0 : (x0 < x)%Qc).
  { apply (StronglySorted_lookup Qclt (ixs self) 0 (S i)); [done|lia|done..]. }
  destruct (decide (S (S i) < length (ixs self))%nat) as [Hnext|Hlast].
  - destruct (lookup_lt_is_Some_2 (ixs self) (S (S i)) Hnext) as [b Hb].
    destruct (lookup_lt_is_Some_2 (iys self) (S (S i))) as [yb Hyb]; [lia|].
    rewrite (Interpolator_Bisect_between _ _ x (S i) x b y yb); try done.
    + f_equal. unfold Qcdiv. ring.
    + apply (StronglySorted_lookup Qclt (ixs self) (S i) (S (S i)));
        [done|lia|done..].
  - assert (Hpos : S i = pred (length (ixs self))) by lia.
    rewrite (Interpolator_Bisect_high _ _ x x0 x).
    + apply np_index_minus_one. by rewrite last_lookup, <-Hlen, <-Hpos.
    + by rewrite head_lookup.
    + by rewrite last_lookup, <-Hpos.
    + done.
    + apply Qcle_refl.
Qed.

Lemma Interpolator_Lookup_knot_witness :
  Lookup interp_example (Qc_of_Z 10) = Ok (Qc_of_Z 3).
Proof.
  apply (Interpolator_Lookup_knot interp_example 1); try done.
  apply (bool_decide_unpack _). by vm_compute.
Defined.

(** X8.  When the points and the values of an [Interpolator] are both
    strictly ascending and equally many, [Reverse] undoes [Lookup] at every
    [x] between the first and the last point; neither call raises. *)
Theorem Interpolator_round_trip (self : Interpolator) (x x0 xn : Qc) :
  StronglySorted Qclt (ixs self) → StronglySorted Qclt (iys self) →
  length (ixs self) = length (iys self) →
  head (ixs self) = Some x0 → last (ixs self) = Some xn →
  (x0 ≤ x)%Qc → (x ≤ xn)%Qc →
  (y ← Lookup self x; Reverse self y) = Ok x.
Proof.
  intros Hxs Hys Hlen H0 Hn Hlo Hhi. unfold Lookup, Reverse.
  pose proof H0 as H0'. rewrite head_lookup in H0'.
  pose proof Hn as Hn'. rewrite last_lookup in Hn'.
  pose proof (lookup_lt_Some _ _ _ H0') as Hpos.
  destruct (lookup_lt_is_Some_2 (iys self) 0) as [y0 Hy0]; [lia|].
  destruct (lookup_lt_is_Some_2 (iys self) (pred (length (iys self))))
    as [yn Hyn]; [lia|].
  destruct (Qcle_lt_or_eq _ _ Hlo) as [Hlt| <-].
  2:{ rewrite (Interpolator_Bisect_low _ _ x0 x0 H0 (Qcle_refl _)).
      rewrite (np_index_head _ _ Hy0). cbn [mbind result_bind].
      rewrite (Interpolator_Bisect_low _ _ y0 y0);
        [by apply np_index_head|by rewrite head_lookup|apply Qcle_refl]. }
  destruct (Qcle_lt_or_eq _ _ Hhi) as [Hlt'| ->].
  2:{ rewrite (Interpolator_Bisect_high _ _ xn x0 xn H0 Hn Hlt (Qcle_refl _)).
      rewrite (np_index_minus_one _ yn) by by rewrite last_lookup.
      cbn [mbind result_bind].
      rewrite (Interpolator_Bisect_high _ _ yn y0 yn).
      - by apply np_index_minus_one.
      - by rewrite head_lookup.
      - by rewrite last_lookup.
      - apply (StronglySorted_lookup Qclt (iys self) 0
                 (pred (length (iys self)))); [done| |done..].
        destruct (decide (0 < pred (length (iys self)))%nat) as [|Hz]; [done|].
        replace (pred (length (ixs self))) with 0%nat in Hn' by lia.
        simplify_eq. by destruct (Qclt_not_eq _ _ Hlt).
      - apply Qcle_refl. }
  destruct (boundary_right (ixs self) x Hxs) as (k & Hk & Hbelow & Habove).
  destruct k as [|i].
  { destruct (Qclt_not_le _ _ Hlt). apply Qclt_le_weak.
    apply (Habove 0%nat); [lia|done]. }
  assert (Hi : (S i < length (ixs self))%nat).
  { destruct (decide (S i < length (ixs self))%nat) as [|Hge]; [done|].
    destruct (Qclt_not_le _ _ Hlt'). apply (Hbelow (pred (length (ixs self))));
      [lia|done]. }
  destruct (lookup_lt_is_Some_2 (ixs self) i) as [a Ha]; [lia|].
  destruct (lookup_lt_is_Some_2 (ixs self) (S i) Hi) as [b Hb].
  destruct (lookup_lt_is_Some_2 (iys self) i) as [ya Hya]; [lia|].
  destruct (lookup_lt_is_Some_2 (iys self) (S i)) as [yb Hyb]; [lia|].
  assert (Hax : (a ≤ x)%Qc) by (apply (Hbelow i); [lia|done]).
  assert (Hxb : (x < b)%Qc) by (apply (Habove (S i)); [lia|done]).
  assert (Hab : (a < b)%Qc) by by apply (Qcle_lt_trans _ x).
  assert (Hyab : (ya < yb)%Qc).
  { apply (StronglySorted_lookup Qclt (iys self) i (S i)); [done|lia|done..]. }
  pose proof (Qc_sub_ne _ _ Hab) as Hd. pose proof (Qc_sub_ne _ _ Hyab) as He.
  pose proof (Qc_sub_pos _ _ Hab) as Hd'. pose proof (Qc_sub_pos _ _ Hyab) as He'.
  assert (Hfirst : i = 0%nat → (a < x)%Qc).
  { intros ->. rewrite H0' in Ha. by injection Ha as <-. }
  rewrite (Interpolator_Bisect_between _ _ x i a b ya yb); try done.
  cbn [mbind result_bind].
  set (y := (ya + 1 * (x - a) / (b - a) * 1 * (yb - ya))%Qc).
  assert (Hy_lo : (y - ya = (x - a) * (/ (b - a) * (yb - ya)))%Qc).
  { unfold y, Qcdiv. ring. }
  assert (Hy_hi : (yb - y = (b - x) * (/ (b - a) * (yb - ya)))%Qc).
  { unfold y. field. done. }
  assert (Hc : (0 < / (b - a) * (yb - ya))%Qc).
  { apply Qcmult_pos_pos; [by apply Qcinv_pos|done]. }
  assert (Hya_le : (ya ≤ y)%Qc).
  { apply (proj2 (Qcle_minus_iff ya y)). change (0 ≤ y - ya)%Qc.
    rewrite Hy_lo. apply Qcmult_nonneg_nonneg; [by apply Qc_sub_nonneg|].
    by apply Qclt_le_weak. }
  assert (Hy_lt : (y < yb)%Qc).
  { apply (proj2 (Qclt_minus_iff y yb)). change (0 < yb - y)%Qc.
    rewrite Hy_hi. apply Qcmult_pos_pos; [by apply Qc_sub_pos|done]. }
  rewrite (Interpolator_Bisect_between _ _ y i ya yb a b); try done.
  - f_equal. unfold y. field. done.
  - intros Hz. apply (proj2 (Qclt_minus_iff ya y)). change (0 < y - ya)%Qc.
    rewrite Hy_lo. apply Qcmult_pos_pos; [|done].
    by apply Qc_sub_pos, Hfirst.
Qed.

Lemma Interpolator_round_trip_witness :
  (y ← Lookup interp_example (Qc_of_Z 15); Reverse interp_example y)
  = Ok (Qc_of_Z 15).
Proof.
  apply (Interpolator_round_trip interp_example _ (Qc_of_Z 0) (Qc_of_Z 20));
    try done; try (apply (bool_decide_unpack _); by vm_compute).
Defined.

(** ** [Hist.IsSubset] *)

Section subset_props.
Context `{Countable K}.
Implicit Types (self other : DictWrapper K).

Lemma IsSubset_loop_true other (items : list (K * num)) :
  IsSubset_loop other items = true
  ↔ ∀ val freq, (val, freq) ∈ items → nltb (Freq other val) freq = false.
Proof.
  induction items as [|[v f] items IH]; cbn [IsSubset_loop].
  - split; [|done]. intros _ val freq Hin. by apply elem_of_nil in Hin.
  - destruct (nltb (Freq other v) f) eqn:Hv.
    + split; [done|]. intros Hall. rewrite <-Hv. symmetry.
      apply Hall. by left.
    + rewrite IH. split.
      * intros Hall val freq [[= -> ->]|Hin]%elem_of_cons; [done|].
        by apply Hall.
      * intros Hall val freq Hin. apply Hall. by right.
Qed.

(** X9.  [self.IsSubset(other)] is true exactly when no value of [self] is
    more frequent in [self] than in [other].  When it is true and all the
    frequencies are finite and those of [other] are not negative,
    [other.Subtract(self)] leaves no negative frequency. *)
Theorem IsSubset_spec self other :
  (IsSubset self other = true
   ↔ ∀ val freq, d self !! val = Some freq →
       nltb (Freq other val) freq = false) ∧
  (IsSubset self other = true →
   (∀ v f, d self !! v = Some f → is_fin f = true) →
   (∀ v f, d other !! v = Some f → is_fin f = true ∧ nle num_zero f) →
   ∀ v f, d (Subtract other self) !! v = Some f → nle num_zero f).
Proof.
  assert (Hiff : IsSubset self other = true
    ↔ ∀ val freq, d self !! val = Some freq →
        nltb (Freq other val) freq = false).
  { unfold IsSubset. rewrite IsSubset_loop_true. unfold Items.
    split; intros Hall val freq Hv; apply Hall; by apply elem_of_map_to_list. }
  split; [done|]. intros Hsub Hself Hother v f.
  rewrite Subtract_lookup. destruct (d self !! v) as [f0|] eqn:Hv.
  - intros [= <-]. pose proof (proj1 Hiff Hsub v f0 Hv) as Hle.
    pose proof (Hself v f0 Hv) as Hf0.
    assert (Hfin : is_fin (Freq other v) = true).
    { unfold Freq, getitem. destruct (d other !! v) as [g|] eqn:Hg; [|done].
      by apply (Hother v g). }
    destruct (Freq other v) as [a| | |], f0 as [b| | |]; try done.
    unfold nsub, num_zero. cbn [nneg nadd]. apply nle_fin.
    cbn [nltb] in Hle. apply bool_decide_eq_false in Hle.
    apply (proj1 (Qcle_minus_iff b a)). by apply Qcnot_lt_le.
  - intros Hf. by apply (Hother v f).
Qed.

End subset_props.

Lemma IsSubset_spec_witness :
  IsSubset hist_1 hist_1_1_2 = true ∧
  ∀ v f, d (Subtract hist_1_1_2 hist_1) !! v = Some f → nle num_zero f.
Proof.
  assert (Hsub : IsSubset hist_1 hist_1_1_2 = true) by by vm_compute.
  split; [done|].
  apply (proj2 (IsSubset_spec hist_1 hist_1_1_2)).
  - done.
  - intros v f. unfold hist_1. cbn [d].
    by intros [_ <-]%lookup_singleton_Some.
  - intros v f. unfold hist_1_1_2. cbn [d].
    by intros [[_ <-]|[_ [_ <-]%lookup_singleton_Some]]%lookup_insert_Some.
Defined.

(** ** Shifting and scaling the values *)

Section key_maps.
Implicit Types (self pmf : DictWrapper Qc) (g : Qc → Qc).

(** A run of [Set] under an injective map of the keys moves every entry to
    its new key. *)
Lemma foldl_Set_kmap g `{!Inj (=) (=) g} pmf self :
  d pmf = ∅ →
  d (foldl (λ s vp, Set_ s (g vp.1) vp.2) pmf (Items self)) = kmap g (d self).
Proof.
  intros Hempty. apply map_eq. intros k.
  assert (Hfold : foldl (λ s vp, Set_ s (g vp.1) vp.2) pmf (Items self)
    = foldl (λ s kv, Set_ s kv.1 (id kv.2)) pmf (prod_map g id <$> Items self)).
  { by rewrite foldl_fmap. }
  rewrite Hfold, foldl_Set_lookup.
  - rewrite Hempty, lookup_empty. unfold kmap, Items.
    by destruct (list_to_map _ !! k).
  - unfold Items.
    assert (Hkeys : (prod_map g id <$> map_to_list (d self)).*1
                    = g <$> (map_to_list (d self)).*1).
    { by rewrite <-!list_fmap_compose. }
    rewrite Hkeys. apply NoDup_fmap_2; [done|]. apply NoDup_fst_map_to_list.
Qed.

Lemma Total_kmap g `{!Inj (=) (=) g} self pmf :
  d pmf = kmap g (d self) → Total pmf = Total self.
Proof.
  intros Hd. unfold Total. rewrite Hd. apply pysum_perm.
  rewrite map_to_list_kmap by done. by rewrite <-list_fmap_compose.
Qed.

Global Instance Qcplus_inj (c : Qc) : Inj (=) (=) (λ v : Qc, v + c)%Qc.
Proof.
  intros v w Heq. cbn in Heq.
  replace v with (v + c - c)%Qc by ring. rewrite Heq. ring.
Qed.

Lemma Qcmult_inj (c : Qc) : c ≠ 0%Qc → Inj (=) (=) (λ v : Qc, v * c)%Qc.
Proof.
  intros Hc v w Heq. cbn in Heq.
  replace v with (v * c / c)%Qc by (by field). rewrite Heq. by field.
Qed.

Lemma kmap_round_trip g g' `{!Inj (=) (=) g} `{!Inj (=) (=) g'}
    (m : gmap Qc num) :
  (∀ v, g' (g v) = v) → kmap g' (kmap g m) = m.
Proof.
  intros Hinv. apply map_eq. intros k.
  rewrite <-(Hinv k) at 1.
  by rewrite (lookup_kmap g' (kmap g m) (g k)), (lookup_kmap g m k).
Qed.

Lemma AddConstant_d self (c : Qc) :
  d (AddConstant self c) = kmap (λ v, v + c)%Qc (d self).
Proof.
  unfold AddConstant. case_bool_decide as Hc.
  - subst c. unfold Copy. cbn [d with_label]. apply map_eq. intros k.
    replace k with (k + 0)%Qc at 2 by ring.
    by rewrite (lookup_kmap (λ v, v + 0)%Qc (d self) k).
  - by apply (foldl_Set_kmap (λ v, v + c)%Qc).
Qed.

Lemma MulConstant_d self (c : Qc) :
  c ≠ 0%Qc → d (MulConstant self c) = kmap (λ v, v * c)%Qc (d self).
Proof.
  intros Hc. pose proof (Qcmult_inj c Hc).
  by apply (foldl_Set_kmap (λ v, v * c)%Qc).
Qed.

Lemma Scale_d self (c : Qc) :
  c ≠ 0%Qc → d (Scale self c) = kmap (λ v, v * c)%Qc (d self).
Proof.
  intros Hc. pose proof (Qcmult_inj c Hc).
  by apply (foldl_Set_kmap (λ v, v * c)%Qc).
Qed.

(** A run of [Set] that sends every key to the same key keeps one entry,
    with the weight of the last item. *)
Lemma foldl_Set_const (k : Qc) pmf (items : list (Qc * num)) :
  d pmf = ∅ ∨ (∃ p, d pmf = {[ k := p ]}) →
  d (foldl (λ s vp, Set_ s k vp.2) pmf items)
  = match last items with
    | Some vp => {[ k := vp.2 ]}
    | None => d pmf
    end.
Proof.
  revert pmf. induction items as [|[v p] items IH]; intros pmf Hd; [done|].
  cbn [foldl snd]. rewrite IH.
  - destruct items as [|vp items].
    2:{ cbn [last]. destruct (last (vp :: items)) eqn:Hl; [done|].
        by apply last_None in Hl. }
    unfold Set_. cbn [last d with_d snd].
    destruct Hd as [->|[p' ->]]; [done|]. by rewrite insert_singleton_eq.
  - right. exists p. unfold Set_. cbn [d with_d].
    destruct Hd as [->|[p' ->]]; [done|]. by rewrite insert_singleton_eq.
Qed.

(** X10.  [AddConstant(c)] moves the weight of every value [v] to [v + c]:
    as many entries, the same total, and [AddConstant(-c)] leads back to
    the dictionary it started from.  At [c = 0] the result is a copy of
    [self], of the class of [self]; otherwise it is a fresh [Pmf]. *)
Theorem AddConstant_spec self (c : Qc) :
  (∀ v, d (AddConstant self c) !! (v + c)%Qc = d self !! v) ∧
  size (d (AddConstant self c)) = size (d self) ∧
  Total (AddConstant self c) = Total self ∧
  d (AddConstant (AddConstant self c) (- c)%Qc) = d self ∧
  cls (AddConstant self c) = (if decide (c = 0%Qc) then cls self else KPmf).
Proof.
  pose proof (AddConstant_d self c) as Hd.
  split; [|split; [|split; [|split]]].
  - intros v. rewrite Hd. apply (lookup_kmap (λ v, v + c)%Qc).
  - rewrite Hd, <-!length_map_to_list.
    by rewrite (map_to_list_kmap (λ v, v + c)%Qc), length_fmap.
  - by apply (Total_kmap (λ v, v + c)%Qc).
  - rewrite AddConstant_d, Hd. apply (kmap_round_trip _ _).
    intros v. ring.
  - unfold AddConstant. destruct (decide (c = 0%Qc)) as [Hc|Hc].
    + by rewrite bool_decide_eq_true_2.
    + rewrite bool_decide_eq_false_2 by done.
      assert (Hcls : ∀ (l : list (Qc * num)) pmf,
        cls (foldl (λ pmf vp, Set_ pmf (vp.1 + c)%Qc vp.2) pmf l) = cls pmf).
      { induction l as [|vp l IH]; intros pmf; [done|]. cbn [foldl].
        by rewrite IH. }
      by rewrite Hcls.
Qed.

(** X11.  [MulConstant(c)] and [Scale(c)] with [c] other than zero move the
    weight of every value [v] to [v * c] and keep the total, and
    [MulConstant(1 / c)] leads back.  [MulConstant(0)] on a dictionary that
    is not empty keeps the single value 0 with the weight of one of the
    values: the other weights are overwritten, not added. *)
Theorem MulConstant_spec self (c : Qc) :
  (c ≠ 0%Qc →
     (∀ v, d (MulConstant self c) !! (v * c)%Qc = d self !! v) ∧
     Total (MulConstant self c) = Total self ∧
     d (MulConstant (MulConstant self c) (1 / c)%Qc) = d self ∧
     d (Scale self c) = d (MulConstant self c)) ∧
  (d self ≠ ∅ →
     ∃ v p, d self !! v = Some p ∧ d (MulConstant self 0%Qc) = {[ 0%Qc := p ]}).
Proof.
  split.
  - intros Hc. pose proof (MulConstant_d self c Hc) as Hd.
    pose proof (Qcmult_inj c Hc) as Hinj.
    assert (Hc' : (1 / c)%Qc ≠ 0%Qc).
    { intros Hz. pose proof (Qcmult_div_r 1 c Hc) as H1.
      rewrite Hz, Qcmult_0_r in H1. discriminate. }
    pose proof (Qcmult_inj _ Hc') as Hinj'.
    split; [|split; [|split]].
    + intros v. rewrite Hd. apply (lookup_kmap (λ v, v * c)%Qc).
    + by apply (Total_kmap (λ v, v * c)%Qc).
    + rewrite MulConstant_d, Hd by done. apply (kmap_round_trip _ _).
      intros v. by field.
    + by rewrite Scale_d, Hd.
  - intros Hne. unfold MulConstant.
    assert (Hfold : ∀ (l : list (Qc * num)) pmf,
      foldl (λ pmf vp, Set_ pmf (vp.1 * 0)%Qc vp.2) pmf l
      = foldl (λ s vp, Set_ s 0%Qc vp.2) pmf l).
    { induction l as [|vp l IH]; intros pmf; [done|]. cbn [foldl].
      by rewrite IH, Qcmult_0_r. }
    rewrite Hfold, foldl_Set_const by by left.
    destruct (last (Items self)) as [[v p]|] eqn:Hlast.
    + exists v, p. split; [|done].
      apply elem_of_map_to_list. apply last_Some_elem_of in Hlast. done.
    + apply last_None in Hlast. by apply map_to_list_empty_iff in Hlast.
Qed.

End key_maps.

Lemma AddConstant_spec_witness :
  Total (AddConstant pmf_1_3 (Qc_of_Z 5)) = Total pmf_1_3.
Proof. apply (AddConstant_spec pmf_1_3 (Qc_of_Z 5)). Defined.

Lemma MulConstant_spec_witness :
  (d (MulConstant (MulConstant pmf_1_3 (Qc_of_Z 2)) (1 / Qc_of_Z 2)%Qc)
   = d pmf_1_3) ∧
  (∃ v p, d pmf_1_3 !! v = Some p ∧
          d (MulConstant pmf_1_3 0%Qc) = {[ 0%Qc := p ]}).
Proof.
  split.
  - apply (proj1 (MulConstant_spec pmf_1_3 (Qc_of_Z 2))). by vm_compute.
  - apply (proj2 (MulConstant_spec pmf_1_3 (Qc_of_Z 2))).
    intros Hd. apply (f_equal size) in Hd. by vm_compute in Hd.
Defined.

(** ** Constants and point masses *)

Section constants.
Implicit Types (self other pmf : DictWrapper Qc) (g : Qc → Qc).

Lemma nadd_0_nmul_1 (p : num) : num_zero +ₙ p *ₙ num_one = p.
Proof.
  destruct p as [a| | |]; try done.
  unfold num_zero, num_one. cbn [nmul nadd]. f_equal. ring.
Qed.

(** A run of [Incr] from the empty [Pmf], under an injective map of the
    keys and with every weight multiplied by 1. *)
Lemma foldl_Incr_kmap g `{!Inj (=) (=) g} self :
  d (foldl (λ s vp, Incr s (g vp.1) (vp.2 *ₙ num_one)) Pmf_new (Items self))
  = kmap g (d self).
Proof.
  apply map_eq. intros k.
  assert (Hfold :
    foldl (λ s vp, Incr s (g vp.1) (vp.2 *ₙ num_one)) Pmf_new (Items self)
    = foldl (λ s vf, Incr s vf.1 ((λ p, p *ₙ num_one) vf.2)) Pmf_new
        (prod_map g id <$> Items self)).
  { by rewrite foldl_fmap. }
  rewrite Hfold. etrans.
  - apply (foldl_Incr_lookup (λ p, p *ₙ num_one)). unfold Items.
    assert (Hkeys : (prod_map g id <$> map_to_list (d self)).*1
                    = g <$> (map_to_list (d self)).*1).
    { by rewrite <-!list_fmap_compose. }
    rewrite Hkeys. apply NoDup_fmap_2; [done|]. apply NoDup_fst_map_to_list.
  - unfold kmap, Items, getitem, Pmf_new. cbn [d].
    destruct (list_to_map _ !! k) as [p|]; [|done].
    rewrite lookup_empty. cbn [default]. by rewrite nadd_0_nmul_1.
Qed.

Lemma Items_point_mass (c : Qc) : Items (point_mass c) = [(c, num_one)].
Proof. by apply Items_singleton. Qed.

Lemma pair_terms_point_mass (op : Qc → Qc → Qc) self (c : Qc) pmf :
  foldl (λ pmf vp1,
    foldl (λ pmf vp2, Incr pmf (op vp1.1 vp2.1) (vp1.2 *ₙ vp2.2))
      pmf (Items (point_mass c)))
    pmf (Items self)
  = foldl (λ s vp, Incr s (op vp.1 c) (vp.2 *ₙ num_one)) pmf (Items self).
Proof. by rewrite Items_point_mass. Qed.

Lemma kmap_const_zero_Total self pmf (a : Qc) :
  Total self = Fin a →
  pmf = foldl (λ s vp, Incr s (vp.1 * 0)%Qc (vp.2 *ₙ num_one)) Pmf_new
          (Items self) →
  Total pmf = Fin a.
Proof.
  intros Ha ->.
  assert (Hfold :
    foldl (λ s vp, Incr s (vp.1 * 0)%Qc (vp.2 *ₙ num_one)) Pmf_new (Items self)
    = foldl (λ pmf kt, Incr pmf kt.1 kt.2) Pmf_new
        ((λ vp, ((vp.1 * 0)%Qc, vp.2 *ₙ num_one)) <$> Items self)).
  { by rewrite foldl_fmap. }
  rewrite Hfold, foldl_Incr_Total.
  unfold Total at 1, Pmf_new. cbn [d]. rewrite msum_empty, nadd_0_l.
  rewrite <-list_fmap_compose.
  destruct (Total_fin_values self a Ha) as (ql & Hql & <-).
  assert (Hmul : (snd ∘ (λ vp : Qc * num, ((vp.1 * 0)%Qc, vp.2 *ₙ num_one)))
                   <$> Items self
                 = (λ p, p *ₙ Fin 1%Qc) <$> (Items self).*2).
  { by rewrite <-list_fmap_compose. }
  rewrite Hmul, Hql, pysum_scale_fin. f_equal. ring.
Qed.

(** X12.  Adding the point mass at [c] moves the weights as [AddConstant(c)]
    does, and multiplying by the point mass at a [c] other than zero as
    [MulConstant(c)] does.  At [c = 0] the two differ: [MulPmf] adds all
    the weights up at the value 0 and keeps a finite total, where
    [MulConstant(0)] keeps one weight. *)
Theorem constant_as_point_mass self (c : Qc) :
  d (AddPmf self (point_mass c)) = d (AddConstant self c) ∧
  (c ≠ 0%Qc → d (MulPmf self (point_mass c)) = d (MulConstant self c)) ∧
  (∀ a, Total self = Fin a → Total (MulPmf self (point_mass 0%Qc)) = Fin a).
Proof.
  split; [|split].
  - rewrite AddConstant_d. unfold AddPmf.
    rewrite <-(foldl_Incr_kmap (λ v, v + c)%Qc).
    by rewrite Items_point_mass.
  - intros Hc. rewrite MulConstant_d by done. unfold MulPmf.
    pose proof (Qcmult_inj c Hc).
    rewrite <-(foldl_Incr_kmap (λ v, v * c)%Qc).
    by rewrite Items_point_mass.
  - intros a Ha. apply (kmap_const_zero_Total self _ a Ha).
    unfold MulPmf. by rewrite Items_point_mass.
Qed.

Lemma constant_as_point_mass_witness :
  d (MulPmf pmf_1_3 (point_mass (Qc_of_Z 2)))
  = d (MulConstant pmf_1_3 (Qc_of_Z 2)) ∧
  Total (MulPmf pmf_1_3 (point_mass 0%Qc)) = Fin (Qc_of_Z 4).
Proof.
  split.
  - apply (proj1 (proj2 (constant_as_point_mass pmf_1_3 (Qc_of_Z 2)))).
    by vm_compute.
  - apply (proj2 (proj2 (constant_as_point_mass pmf_1_3 (Qc_of_Z 2)))).
    apply (bool_decide_unpack _). by vm_compute.
Defined.

(** ** [DivPmf] *)

Lemma for_each_ok {A B} (body : A → B → result A) (f : A → B → A)
    (l : list B) (a : A) :
  (∀ a x, x ∈ l → body a x = Ok (f a x)) →
  for_each body l a = Ok (foldl f a l).
Proof.
  revert a. induction l as [|x l IH]; intros a Hbody; [done|].
  cbn [for_each foldl]. rewrite Hbody by by left.
  cbn [mbind result_bind]. apply IH. intros a' y Hy. apply Hbody. by right.
Qed.

(** A loop raises only what its body raises. *)
Lemma for_each_raise_inv {A B} (body : A → B → result A) (e : exn)
    (l : list B) (a : A) :
  for_each body l a = Raise e → ∃ a' x, x ∈ l ∧ body a' x = Raise e.
Proof.
  revert a. induction l as [|x l IH]; intros a; [done|].
  cbn [for_each]. destruct (body a x) as [a'|e'] eqn:Hb.
  - cbn [mbind result_bind]. intros (a'' & y & Hy & Hr)%IH.
    exists a'', y. split; [by right|done].
  - intros [= ->]. exists a, x. split; [by left|done].
Qed.

Lemma Qc_div_cases (a b : Qc) :
  (b = 0%Qc ∧ Qc_div a b = Raise ZeroDivisionError) ∨
  (b ≠ 0%Qc ∧ Qc_div a b = Ok (a / b)%Qc).
Proof.
  unfold Qc_div. case_bool_decide; [by left|by right].
Qed.

(** X13.  With an empty [self], [DivPmf] returns the empty [Pmf].  When
    [other] does not have the value 0, it returns the [Pmf] of the
    quotients: the entry at [k] is the sum of the products [p1 * p2] over
    the pairs with [v1 / v2 = k].  It raises nothing but
    [ZeroDivisionError], and that only when [self] has a value and [other]
    has the value 0. *)
Theorem DivPmf_spec self other :
  (d self = ∅ → DivPmf self other = Ok Pmf_new) ∧
  (d other !! 0%Qc = None →
     ∃ pmf, DivPmf self other = Ok pmf ∧
       ∀ k, d pmf !! k
            = match terms_at k (pair_terms Qcdiv self other) with
              | [] => None
              | ts => Some (pysum ts)
              end) ∧
  (∀ e, DivPmf self other = Raise e →
     e = ZeroDivisionError ∧ d self ≠ ∅ ∧ is_Some (d other !! 0%Qc)).
Proof.
  assert (Hempty : d self = ∅ → DivPmf self other = Ok Pmf_new).
  { intros Hd. unfold DivPmf, Items. by rewrite Hd, map_to_list_empty. }
  split; [done|]. split.
  - intros Hzero.
    assert (Hother : ∀ vp2, vp2 ∈ Items other → vp2.1 ≠ 0%Qc).
    { intros [v p] Hin%elem_of_map_to_list ?. simplify_eq/=. }
    exists (foldl (λ pmf kt, Incr pmf kt.1 kt.2) Pmf_new
              (pair_terms Qcdiv self other)).
    split.
    + unfold DivPmf, pair_terms. rewrite <-(nested_loops Qcdiv).
      apply for_each_ok. intros pmf vp1 _.
      apply for_each_ok. intros pmf' vp2 Hin.
      destruct (Qc_div_cases vp1.1 vp2.1) as [[Hz _]|[_ ->]]; [|done].
      by destruct (Hother vp2 Hin).
    + intros k. rewrite foldl_Incr_terms. by destruct (terms_at k _).
  - intros e He. split; [|split].
    + unfold DivPmf in He.
      apply for_each_raise_inv in He as (pmf & vp1 & _ & He).
      apply for_each_raise_inv in He as (pmf' & vp2 & _ & He).
      destruct (Qc_div_cases vp1.1 vp2.1) as [[_ Hq]|[_ Hq]];
        rewrite Hq in He; [by injection He|done].
    + intros Hd. by rewrite (Hempty Hd) in He.
    + unfold DivPmf in He.
      apply for_each_raise_inv in He as (pmf & vp1 & _ & He).
      apply for_each_raise_inv in He as (pmf' & [v2 p2] & Hin & He).
      destruct (Qc_div_cases vp1.1 v2) as [[-> _]|[_ Hq]].
      * apply elem_of_map_to_list in Hin. by eexists.
      * cbn [fst] in He. by rewrite Hq in He.
Qed.

(** The quotient of [{1: 1, 2: 3}] by itself. *)
Lemma DivPmf_spec_witness :
  ∃ pmf, DivPmf pmf_1_3 pmf_1_3 = Ok pmf ∧
    ∀ k, d pmf !! k
         = match terms_at k (pair_terms Qcdiv pmf_1_3 pmf_1_3) with
           | [] => None
           | ts => Some (pysum ts)
           end.
Proof.
  apply (proj1 (proj2 (DivPmf_spec pmf_1_3 pmf_1_3))).
  apply (bool_decide_unpack _). by vm_compute.
Defined.

(** ** The operators with a number on the right *)

Lemma Items_nil_iff self : Items self = [] ↔ d self = ∅.
Proof. apply map_to_list_empty_iff. Qed.

Lemma Pmf_add_num_d self (c : Qc) :
  d (Pmf_add self (OpNum c)) = kmap (λ v, v + c)%Qc (d self).
Proof.
  cbn [Pmf_add]. destruct (Items self) eqn:Hitems.
  - apply Items_nil_iff in Hitems. by rewrite Hitems, kmap_empty.
  - apply AddConstant_d.
Qed.

Lemma Pmf_sub_num_d self (c : Qc) :
  d (Pmf_sub self (OpNum c)) = kmap (λ v, v + - c)%Qc (d self).
Proof.
  cbn [Pmf_sub]. destruct (Items self) eqn:Hitems.
  - apply Items_nil_iff in Hitems. by rewrite Hitems, kmap_empty.
  - apply AddConstant_d.
Qed.

Lemma Pmf_mul_num_d self (c : Qc) :
  c ≠ 0%Qc → d (Pmf_mul self (OpNum c)) = kmap (λ v, v * c)%Qc (d self).
Proof.
  intros Hc. pose proof (Qcmult_inj c Hc).
  cbn [Pmf_mul]. destruct (Items self) eqn:Hitems.
  - apply Items_nil_iff in Hitems. by rewrite Hitems, kmap_empty.
  - by apply MulConstant_d.
Qed.

(** X14.  With a number [c] on the right, [(pmf + c) - c] has the
    dictionary of [pmf], and so has [(pmf * c) / c] when [c] is not zero.
    [pmf / 0] raises [ZeroDivisionError], unless [pmf] has no value: then
    the quotient [1 / 0] is never computed and the result is the empty
    [Pmf]. *)
Theorem Pmf_operators_with_numbers self (c : Qc) :
  d (Pmf_sub (Pmf_add self (OpNum c)) (OpNum c)) = d self ∧
  (c ≠ 0%Qc →
     ∃ r, Pmf_div (Pmf_mul self (OpNum c)) (OpNum c) = Ok r ∧ d r = d self) ∧
  (d self ≠ ∅ → Pmf_div self (OpNum 0%Qc) = Raise ZeroDivisionError) ∧
  (d self = ∅ → Pmf_div self (OpNum 0%Qc) = Ok Pmf_new).
Proof.
  split; [|split; [|split]].
  - rewrite Pmf_sub_num_d, Pmf_add_num_d. apply (kmap_round_trip _ _).
    intros v. ring.
  - intros Hc. pose proof (Pmf_mul_num_d self c Hc) as Hmul.
    pose proof (Qcmult_inj c Hc) as Hinj.
    assert (Hc' : (1 / c)%Qc ≠ 0%Qc).
    { intros Hz. pose proof (Qcmult_div_r 1 c Hc) as H1.
      rewrite Hz, Qcmult_0_r in H1. discriminate. }
    pose proof (Qcmult_inj _ Hc') as Hinj'.
    cbn [Pmf_div]. destruct (Items (Pmf_mul self (OpNum c))) eqn:Hitems.
    + exists Pmf_new. split; [done|]. apply Items_nil_iff in Hitems.
      rewrite Hmul in Hitems. by apply kmap_empty_iff in Hitems as ->.
    + destruct (Qc_div_cases 1 c) as [[? _]|[_ ->]]; [done|].
      cbn [mbind result_bind]. eexists. split; [done|].
      rewrite MulConstant_d, Hmul by done. apply (kmap_round_trip _ _).
      intros v. by field.
  - intros Hne. cbn [Pmf_div]. destruct (Items self) eqn:Hitems.
    + by apply Items_nil_iff in Hitems.
    + by destruct (Qc_div_cases 1 0) as [[_ ->]|[? _]].
  - intros Hd. cbn [Pmf_div]. apply Items_nil_iff in Hd. by rewrite Hd.
Qed.

End constants.

Lemma Pmf_operators_with_numbers_witness :
  (∃ r, Pmf_div (Pmf_mul pmf_1_3 (OpNum (Qc_of_Z 2))) (OpNum (Qc_of_Z 2)) = Ok r
        ∧ d r = d pmf_1_3) ∧
  Pmf_div pmf_1_3 (OpNum 0%Qc) = Raise ZeroDivisionError.
Proof.
  split.
  - apply (proj1 (proj2 (Pmf_operators_with_numbers pmf_1_3 (Qc_of_Z 2)))).
    by vm_compute.
  - apply (proj1 (proj2 (proj2 (Pmf_operators_with_numbers pmf_1_3 0%Qc)))).
    intros Hd. apply (f_equal size) in Hd. by vm_compute in Hd.
Defined.

(** ** [ProbLess], [ProbEqual], [ProbGreater] *)

Section comparisons.
Implicit Types (self other pmf : DictWrapper Qc).

Lemma pysum_filter_split {A} (P : A → Prop) `{∀ x, Decision (P x)}
    (f : A → num) (l : list A) :
  pysum (f <$> l)
  = pysum (f <$> filter P l) +ₙ pysum (f <$> filter (λ x, ¬ P x) l).
Proof.
  induction l as [|x l IH].
  - change (pysum _) with num_zero. by rewrite nadd_0_l.
  - rewrite fmap_cons, pysum_cons, IH, !filter_cons.
    destruct (decide (P x)) as [HP|HP].
    + rewrite decide_False by by intros ?.
      by rewrite fmap_cons, pysum_cons, nadd_assoc.
    + rewrite decide_True by done.
      rewrite fmap_cons, pysum_cons.
      rewrite !nadd_assoc.
      by rewrite (nadd_comm (f x)), <-!nadd_assoc, (nadd_comm (f x)).
Qed.

Lemma filter_key_NoDup `{Countable K} {V} (l : list (K * V)) (x : K) :
  NoDup l.*1 →
  filter (λ kv, kv.1 = x) l
  = match (list_to_map l : gmap K V) !! x with
    | Some v => [(x, v)]
    | None => []
    end.
Proof.
  induction l as [|[k v] l IH]; intros Hl; [done|].
  apply NoDup_cons in Hl as [Hk Hl]. rewrite filter_cons. cbn [fst].
  cbn [list_to_map foldr fst snd]. destruct (decide (k = x)) as [->|Hne].
  - rewrite lookup_insert_eq, IH by done.
    by rewrite (not_elem_of_list_to_map_1 _ _ Hk).
  - rewrite lookup_insert_ne by done. by apply IH.
Qed.

Lemma filter_key_Items self (x : Qc) :
  pysum (filter (λ vp, vp.1 = x) (Items self)).*2 = getitem self x.
Proof.
  unfold Items. rewrite filter_key_NoDup by apply NoDup_fst_map_to_list.
  rewrite list_to_map_to_list. unfold getitem.
  destruct (d self !! x) as [v|]; [|done].
  cbn [fmap list_fmap snd default]. by rewrite pysum_cons, nadd_0_r.
Qed.

Lemma foldr_Qcplus_acc (l : list Qc) (r : Qc) :
  foldr Qcplus r l = (foldr Qcplus 0 l + r)%Qc.
Proof.
  induction l as [|z l IHl]; cbn [foldr]; [ring|]. rewrite IHl. ring.
Qed.

(** The two loops add up the products of the pairs that pass the test. *)
Lemma pair_prob_fin (test : Qc → Qc → bool) pmf1 pmf2 (q1 q2 : gmap Qc Qc) :
  d pmf1 = Fin <$> q1 → d pmf2 = Fin <$> q2 →
  pair_prob test pmf1 pmf2
  = Fin (qpair_sum test (map_to_list q1) (map_to_list q2)).
Proof.
  intros H1 H2. unfold pair_prob, qpair_sum, Items.
  rewrite H1, H2, !map_to_list_fmap.
  generalize (map_to_list q1) (map_to_list q2). intros la lb.
  assert (Hinner : ∀ (v p acc : Qc),
    foldl (λ total vp2,
      if test v vp2.1 then total +ₙ Fin p *ₙ vp2.2 else total)
      (Fin acc) (prod_map id Fin <$> lb)
    = Fin (acc + foldr Qcplus 0%Qc
             (y ← lb; if test v y.1 then [(p * y.2)%Qc] else []))%Qc).
  { intros v p. induction lb as [|[w r] lb IH]; intros acc.
    - cbn. f_equal. ring.
    - rewrite fmap_cons. cbn [foldl prod_map fst snd id].
      rewrite bind_cons, foldr_app. cbn [fst snd]. destruct (test v w).
      + cbn [nmul nadd]. rewrite IH. f_equal. cbn [foldr].
        generalize (foldr Qcplus 0%Qc
          (y ← lb; if test v y.1 then [(p * y.2)%Qc] else [])).
        intros s. ring.
      + by rewrite IH. }
  assert (Houter : ∀ acc : Qc,
    foldl (λ total vp1,
      foldl (λ total vp2,
        if test vp1.1 vp2.1 then total +ₙ vp1.2 *ₙ vp2.2 else total)
        total (prod_map id Fin <$> lb))
      (Fin acc) (prod_map id Fin <$> la)
    = Fin (acc + foldr Qcplus 0%Qc
             (x ← la; y ← lb; if test x.1 y.1 then [(x.2 * y.2)%Qc] else []))%Qc).
  { induction la as [|[v p] la IH]; intros acc.
    - cbn. f_equal. ring.
    - rewrite fmap_cons. cbn [foldl prod_map fst snd id].
      rewrite Hinner, IH, bind_cons.
      f_equal. rewrite foldr_app. cbn [fst snd].
      rewrite (foldr_Qcplus_acc _ (foldr _ _ _)). ring. }
  unfold num_zero. rewrite Houter. f_equal. ring.
Qed.

(** Every pair passes exactly one of the three tests. *)
Lemma qpair_sum_partition (la lb : list (Qc * Qc)) :
  (qpair_sum (λ v1 v2, Qc_ltb v1 v2) la lb
   + qpair_sum (λ v1 v2, bool_decide (v1 = v2)) la lb
   + qpair_sum (λ v1 v2, Qc_ltb v2 v1) la lb)%Qc
  = (foldr Qcplus 0%Qc la.*2 * foldr Qcplus 0%Qc lb.*2)%Qc.
Proof.
  unfold qpair_sum. induction la as [|x la IH].
  - cbn. ring.
  - rewrite !bind_cons, !foldr_app, fmap_cons. cbn [foldr].
    rewrite !(foldr_Qcplus_acc _ (foldr _ _ _)).
    assert (Hrow :
      (foldr Qcplus 0 (y ← lb; if Qc_ltb x.1 y.1 then [x.2 * y.2] else [])
       + foldr Qcplus 0
           (y ← lb; if bool_decide (x.1 = y.1) then [x.2 * y.2] else [])
       + foldr Qcplus 0 (y ← lb; if Qc_ltb y.1 x.1 then [x.2 * y.2] else [])
       = x.2 * foldr Qcplus 0 lb.*2)%Qc).
    { clear IH. induction lb as [|y lb IHlb]; [cbn; ring|].
      rewrite !bind_cons, !foldr_app, !(foldr_Qcplus_acc _ (foldr _ _ _)), fmap_cons.
      cbn [foldr].
      rewrite (Qcmult_plus_distr_r x.2 y.2), <-IHlb. unfold Qc_ltb.
      destruct (Qc_dec x.1 y.1) as [[Hlt|Hgt]|Heq].
      - rewrite (bool_decide_eq_true_2 (x.1 < y.1)%Qc) by done.
        rewrite (bool_decide_eq_false_2 (x.1 = y.1)) by by apply Qclt_not_eq.
        rewrite (bool_decide_eq_false_2 (y.1 < x.1)%Qc)
          by by apply Qcle_not_lt, Qclt_le_weak.
        cbn [foldr]. ring.
      - rewrite (bool_decide_eq_false_2 (x.1 < y.1)%Qc)
          by by apply Qcle_not_lt, Qclt_le_weak.
        rewrite (bool_decide_eq_false_2 (x.1 = y.1)).
        2:{ intros Heq. apply Qclt_not_eq in Hgt. by destruct Hgt. }
        rewrite (bool_decide_eq_true_2 (y.1 < x.1)%Qc) by done.
        cbn [foldr]. ring.
      - rewrite (bool_decide_eq_false_2 (x.1 < y.1)%Qc).
        2:{ rewrite Heq. apply Qcle_not_lt, Qcle_refl. }
        rewrite (bool_decide_eq_true_2 (x.1 = y.1)) by done.
        rewrite (bool_decide_eq_false_2 (y.1 < x.1)%Qc).
        2:{ rewrite Heq. apply Qcle_not_lt, Qcle_refl. }
        cbn [foldr]. ring. }
    rewrite Qcmult_plus_distr_l, <-IH, <-Hrow. ring.
Qed.

Lemma qtotal_values (q : gmap Qc Qc) :
  qtotal q = foldr Qcplus 0%Qc (map_to_list q).*2.
Proof. done. Qed.

(** X15.  For a number [x], [ProbLess(x)], [ProbEqual(x)] and
    [ProbGreater(x)] add up to the total of the weights.  For two
    distributions with finite weights the three add up to the product of
    the two totals, so to 1 when both are normalized. *)
Theorem Prob_partition self :
  (∀ x : Qc,
     ProbLess self (OpNum x) +ₙ ProbEqual self (OpNum x)
       +ₙ ProbGreater self (OpNum x) = Total self) ∧
  (∀ other (q1 q2 : gmap Qc Qc),
     d self = Fin <$> q1 → d other = Fin <$> q2 →
     ProbLess self (OpPmf other) +ₙ ProbEqual self (OpPmf other)
       +ₙ ProbGreater self (OpPmf other)
     = Fin (qtotal q1 * qtotal q2)%Qc ∧
     Total self = Fin (qtotal q1) ∧ Total other = Fin (qtotal q2)).
Proof.
  split.
  - intros x. cbn [ProbLess ProbEqual ProbGreater]. unfold Total.
    fold (Items self).
    rewrite (pysum_filter_split (λ vp, (vp.1 < x)%Qc) snd (Items self)).
    rewrite <-nadd_assoc. f_equal.
    rewrite (pysum_filter_split (λ vp, vp.1 = x) snd
               (filter (λ vp, ¬ (vp.1 < x)%Qc) (Items self))).
    rewrite !list_filter_filter.
    assert (Heq : filter (λ a : Qc * num, a.1 = x ∧ ¬ (a.1 < x)%Qc) (Items self)
                  = filter (λ vp, vp.1 = x) (Items self)).
    { apply list_filter_iff. intros [v p]. cbn [fst]. split.
      - by intros [? _].
      - intros ->. split; [done|]. apply Qcle_not_lt, Qcle_refl. }
    assert (Hgt : filter (λ a : Qc * num, ¬ a.1 = x ∧ ¬ (a.1 < x)%Qc)
                    (Items self)
                  = filter (λ vp, (x < vp.1)%Qc) (Items self)).
    { apply list_filter_iff. intros [v p]. cbn [fst]. split.
      - intros [Hne Hlt]. apply Qcnot_lt_le in Hlt.
        destruct (Qcle_lt_or_eq _ _ Hlt) as [|Heq']; [done|].
        by destruct Hne.
      - intros Hlt. split; [|by apply Qcle_not_lt, Qclt_le_weak].
        intros ->. by destruct (Qclt_not_eq _ _ Hlt). }
    by rewrite Heq, Hgt, filter_key_Items.
  - intros other q1 q2 H1 H2. cbn [ProbLess ProbEqual ProbGreater].
    unfold PmfProbLess, PmfProbEqual, PmfProbGreater.
    rewrite !(pair_prob_fin _ self other q1 q2 H1 H2). cbn [nadd].
    rewrite qpair_sum_partition, <-!qtotal_values.
    split; [done|]. split; by apply Total_fin.
Qed.

End comparisons.

Lemma Prob_partition_witness :
  ProbLess pmf_1_3 (OpPmf pmf_1_3) +ₙ ProbEqual pmf_1_3 (OpPmf pmf_1_3)
    +ₙ ProbGreater pmf_1_3 (OpPmf pmf_1_3)
  = Fin (qtotal {[ Qc_of_Z 1 := Qc_of_Z 1; Qc_of_Z 2 := Qc_of_Z 3 ]}
         * qtotal {[ Qc_of_Z 1 := Qc_of_Z 1; Qc_of_Z 2 := Qc_of_Z 3 ]})%Qc.
Proof.
  apply (proj2 (Prob_partition pmf_1_3) pmf_1_3).
  - unfold pmf_1_3. cbn [d]. by rewrite fmap_insert, map_fmap_singleton.
  - unfold pmf_1_3. cbn [d]. by rewrite fmap_insert, map_fmap_singleton.
Defined.

(** ** The mean of a sum, a difference and a product *)

Section means.
Implicit Types (self other pmf s : DictWrapper Qc) (f : Qc → Qc).

(** The weighted sum that [Mean] computes, for any function of the
    values. *)
Local Abbreviation wsum f l :=
  (pysum ((λ xp : Qc * num, xp.2 *ₙ Fin (f xp.1)) <$> l)).

Lemma wsum_insert_fresh f (m : gmap Qc num) (k : Qc) (v : num) :
  m !! k = None →
  wsum f (map_to_list (<[k := v]> m))
  = v *ₙ Fin (f k) +ₙ wsum f (map_to_list m).
Proof.
  intros Hk. rewrite <-pysum_cons. apply pysum_perm.
  by rewrite map_to_list_insert.
Qed.

(** Adding a finite [t] to a finite entry at [k] (created at 0 when
    missing) adds [t * f k] to the weighted sum. *)
Lemma wsum_incr f (m : gmap Qc num) (k t : Qc) :
  (∀ v, m !! k = Some v → is_fin v = true) →
  wsum f (map_to_list (<[k := default num_zero (m !! k) +ₙ Fin t]> m))
  = wsum f (map_to_list m) +ₙ Fin (t * f k)%Qc.
Proof.
  intros Hfin. destruct (m !! k) as [v|] eqn:Hk; cbn [default from_option id].
  - specialize (Hfin v eq_refl). destruct v as [a| | |]; try done.
    rewrite <-(insert_delete_eq m k), wsum_insert_fresh
      by apply lookup_delete_eq.
    rewrite <-(insert_delete_id m k (Fin a) Hk) at 2.
    rewrite wsum_insert_fresh by apply lookup_delete_eq.
    generalize (wsum f (map_to_list (delete k m))). intros R.
    assert (Hsplit : (Fin a +ₙ Fin t) *ₙ Fin (f k)
                     = Fin a *ₙ Fin (f k) +ₙ Fin (t * f k)%Qc).
    { cbn [nadd nmul]. f_equal. ring. }
    rewrite Hsplit, <-!nadd_assoc. f_equal. apply nadd_comm.
  - rewrite wsum_insert_fresh by done.
    generalize (wsum f (map_to_list m)). intros R.
    rewrite nadd_comm. f_equal. unfold num_zero. cbn [nadd nmul].
    f_equal. ring.
Qed.

Lemma wsum_foldl_Incr f s (l : list (Qc * Qc)) :
  (∀ k v, d s !! k = Some v → is_fin v = true) →
  (∀ k v, d (foldl (λ s kt, Incr s kt.1 (Fin kt.2)) s l) !! k = Some v →
          is_fin v = true) ∧
  wsum f (Items (foldl (λ s kt, Incr s kt.1 (Fin kt.2)) s l))
  = wsum f (Items s)
    +ₙ Fin (foldr Qcplus 0%Qc ((λ kt, kt.2 * f kt.1)%Qc <$> l)).
Proof.
  revert s. induction l as [|[k t] l IH]; intros s Hfin.
  - split; [done|]. cbn [foldl foldr fmap list_fmap]. by rewrite nadd_0_r.
  - cbn [foldl fst snd].
    assert (Hfin' : ∀ k' v, d (Incr s k (Fin t)) !! k' = Some v →
                            is_fin v = true).
    { intros k' v. unfold Incr, getitem. cbn [d with_d].
      intros [[<- <-]|[_ Hv]]%lookup_insert_Some; [|by eapply Hfin].
      destruct (d s !! k) as [w|] eqn:Hw; cbn [default]; [|done].
      specialize (Hfin k w Hw). by destruct w. }
    destruct (IH _ Hfin') as [Hall ->]. split; [done|].
    unfold Items, Incr, getitem. cbn [d with_d].
    rewrite wsum_incr by (intros v; apply Hfin).
    by rewrite <-nadd_assoc.
Qed.

(** The pairs of two distributions with finite weights. *)
Lemma pair_terms_fin (op : Qc → Qc → Qc) self other (qa qb : gmap Qc Qc) :
  d self = Fin <$> qa → d other = Fin <$> qb →
  pair_terms op self other
  = prod_map id Fin <$>
      (x ← map_to_list qa; y ← map_to_list qb; [(op x.1 y.1, (x.2 * y.2)%Qc)]).
Proof.
  intros Ha Hb. unfold pair_terms, Items. rewrite Ha, Hb, !map_to_list_fmap.
  generalize (map_to_list qa) (map_to_list qb). intros la lb.
  induction la as [|[u p] la IH]; [done|].
  rewrite fmap_cons, !bind_cons, fmap_app, IH. f_equal.
  clear IH. induction lb as [|[v r] lb IH]; [done|].
  rewrite fmap_cons, !bind_cons, fmap_app, IH. done.
Qed.

Lemma foldl_Incr_prod_map s (l : list (Qc * Qc)) :
  foldl (λ pmf kt, Incr pmf kt.1 kt.2) s (prod_map id Fin <$> l)
  = foldl (λ s kt, Incr s kt.1 (Fin kt.2)) s l.
Proof. by rewrite foldl_fmap. Qed.

(** A function of the two values that is a sum of two products of
    functions of one value. *)
Lemma qpairs_separable (g : Qc → Qc → Qc) (α β γ δ : Qc → Qc)
    (la lb : list (Qc * Qc)) :
  (∀ u v, g u v = α u * β v + γ u * δ v)%Qc →
  foldr Qcplus 0%Qc
    ((λ kt, kt.2 * kt.1)%Qc <$>
       (x ← la; y ← lb; [(g x.1 y.1, (x.2 * y.2)%Qc)]))
  = (foldr Qcplus 0 ((λ xp, xp.2 * α xp.1) <$> la)
       * foldr Qcplus 0 ((λ xp, xp.2 * β xp.1) <$> lb)
     + foldr Qcplus 0 ((λ xp, xp.2 * γ xp.1) <$> la)
       * foldr Qcplus 0 ((λ xp, xp.2 * δ xp.1) <$> lb))%Qc.
Proof.
  intros Hg. induction la as [|[u p] la IH].
  - cbn. ring.
  - rewrite bind_cons, fmap_app, foldr_app, foldr_Qcplus_acc, IH.
    rewrite !fmap_cons. cbn [foldr fst snd].
    assert (Hrow :
      foldr Qcplus 0%Qc
        ((λ kt, kt.2 * kt.1)%Qc <$> (y ← lb; [(g u y.1, (p * y.2)%Qc)]))
      = (p * α u * foldr Qcplus 0 ((λ xp, xp.2 * β xp.1) <$> lb)
         + p * γ u * foldr Qcplus 0 ((λ xp, xp.2 * δ xp.1) <$> lb))%Qc).
    { clear IH. induction lb as [|[v r] lb IH]; [cbn; ring|].
      rewrite bind_cons, fmap_app, foldr_app, foldr_Qcplus_acc, IH.
      rewrite !fmap_cons. cbn [foldr fmap list_fmap fst snd]. rewrite Hg. ring. }
    rewrite Hrow. ring.
Qed.

Lemma Mean_fin self (q : gmap Qc Qc) :
  d self = Fin <$> q → Mean self = Fin (qmean q).
Proof.
  intros Hd. unfold Mean, qmean, qexpect, Items.
  rewrite Hd, map_to_list_fmap, <-list_fmap_compose.
  rewrite <-pysum_fin, <-list_fmap_compose.
  f_equal.
Qed.

Lemma Mean_of_pairs (op : Qc → Qc → Qc) (α β γ δ : Qc → Qc) self other
    (qa qb : gmap Qc Qc) :
  (∀ u v, op u v = α u * β v + γ u * δ v)%Qc →
  d self = Fin <$> qa → d other = Fin <$> qb →
  Mean (foldl (λ pmf kt, Incr pmf kt.1 kt.2) Pmf_new (pair_terms op self other))
  = Fin (qexpect α qa * qexpect β qb + qexpect γ qa * qexpect δ qb)%Qc.
Proof.
  intros Hop Ha Hb. rewrite (pair_terms_fin op self other qa qb Ha Hb).
  rewrite foldl_Incr_prod_map. unfold Mean.
  destruct (wsum_foldl_Incr id Pmf_new
              (x ← map_to_list qa; y ← map_to_list qb;
               [(op x.1 y.1, (x.2 * y.2)%Qc)])) as [_ Hsum]; [done|].
  unfold id in Hsum at 1 2. rewrite Hsum.
  unfold Items at 1, Pmf_new at 1. cbn [d].
  rewrite map_to_list_empty. cbn [fmap list_fmap].
  change (pysum []) with num_zero. rewrite nadd_0_l. f_equal.
  by apply (qpairs_separable op α β γ δ).
Qed.

Lemma qexpect_one (q : gmap Qc Qc) : qexpect (λ _, 1%Qc) q = qtotal q.
Proof.
  unfold qexpect, qtotal. generalize (map_to_list q). intros l.
  induction l as [|[k v] l IH]; [done|].
  rewrite !fmap_cons. cbn [foldr fst snd]. rewrite IH. ring.
Qed.

Lemma qexpect_opp (q : gmap Qc Qc) : qexpect Qcopp q = (- qmean q)%Qc.
Proof.
  unfold qmean, qexpect. generalize (map_to_list q). intros l.
  induction l as [|[k v] l IH]; [cbn; ring|].
  rewrite !fmap_cons. cbn [foldr fst snd]. rewrite IH. unfold id. ring.
Qed.

Lemma qexpect_zero (q : gmap Qc Qc) : qexpect (λ _, 0%Qc) q = 0%Qc.
Proof.
  unfold qexpect. generalize (map_to_list q). intros l.
  induction l as [|[k v] l IH]; [done|].
  rewrite !fmap_cons. cbn [foldr fst snd]. rewrite IH. ring.
Qed.

(** X16.  For two distributions with finite weights, means [ma], [mb] and
    totals [ta], [tb]: the mean of [AddPmf] is [ma * tb + ta * mb], the mean
    of [SubPmf] is [ma * tb - ta * mb] and the mean of [MulPmf] is
    [ma * mb].  So for normalized operands the mean of the sum is the sum
    of the means, and likewise for the difference. *)
Theorem Mean_of_combinations self other (qa qb : gmap Qc Qc) :
  d self = Fin <$> qa → d other = Fin <$> qb →
  Mean self = Fin (qmean qa) ∧ Mean other = Fin (qmean qb) ∧
  Total self = Fin (qtotal qa) ∧ Total other = Fin (qtotal qb) ∧
  Mean (AddPmf self other)
    = Fin (qmean qa * qtotal qb + qtotal qa * qmean qb)%Qc ∧
  Mean (SubPmf self other)
    = Fin (qmean qa * qtotal qb - qtotal qa * qmean qb)%Qc ∧
  Mean (MulPmf self other) = Fin (qmean qa * qmean qb)%Qc ∧
  (qtotal qa = 1%Qc → qtotal qb = 1%Qc →
     Mean (AddPmf self other) = Mean self +ₙ Mean other ∧
     Mean (SubPmf self other) = Mean self -ₙ Mean other).
Proof.
  intros Ha Hb.
  pose proof (Mean_fin self qa Ha) as Hma.
  pose proof (Mean_fin other qb Hb) as Hmb.
  assert (Hadd : Mean (AddPmf self other)
    = Fin (qmean qa * qtotal qb + qtotal qa * qmean qb)%Qc).
  { rewrite AddPmf_fold.
    rewrite (Mean_of_pairs Qcplus id (λ _, 1%Qc) (λ _, 1%Qc) id self other
               qa qb); [|intros; unfold id; ring|done..].
    by rewrite !qexpect_one. }
  assert (Hsub : Mean (SubPmf self other)
    = Fin (qmean qa * qtotal qb - qtotal qa * qmean qb)%Qc).
  { rewrite SubPmf_fold.
    rewrite (Mean_of_pairs Qcminus id (λ _, 1%Qc) (λ _, 1%Qc) Qcopp self other
               qa qb); [|intros; unfold id; ring|done..].
    rewrite !qexpect_one, qexpect_opp. f_equal. fold (qmean qa). ring. }
  assert (Hmul : Mean (MulPmf self other) = Fin (qmean qa * qmean qb)%Qc).
  { unfold MulPmf. rewrite (nested_loops Qcmult). fold (pair_terms Qcmult self other).
    rewrite (Mean_of_pairs Qcmult id id (λ _, 0%Qc) (λ _, 0%Qc) self other
               qa qb); [|intros; unfold id; ring|done..].
    rewrite !qexpect_zero. f_equal. fold (qmean qa) (qmean qb). ring. }
  split; [done|]. split; [done|].
  split; [by apply Total_fin|]. split; [by apply Total_fin|].
  split; [done|]. split; [done|]. split; [done|].
  intros H1a H1b. rewrite Hadd, Hsub, Hma, Hmb, H1a, H1b.
  unfold nsub. cbn [nneg nadd]. split; f_equal; ring.
Qed.

End means.

Lemma Mean_of_combinations_witness :
  Mean (AddPmf (point_mass (Qc_of_Z 2)) (point_mass (Qc_of_Z 5)))
  = Mean (point_mass (Qc_of_Z 2)) +ₙ Mean (point_mass (Qc_of_Z 5)).
Proof.
  assert (Hpm : ∀ v : Qc, d (point_mass v) = Fin <$> {[ v := 1%Qc ]}).
  { intros v. unfold point_mass. cbn [d]. by rewrite map_fmap_singleton. }
  destruct (Mean_of_combinations (point_mass (Qc_of_Z 2))
              (point_mass (Qc_of_Z 5)) _ _ (Hpm _) (Hpm _))
    as (_ & _ & _ & _ & _ & _ & _ & Hnorm).
  apply Hnorm.
  - unfold qtotal. by rewrite map_to_list_singleton.
  - unfold qtotal. by rewrite map_to_list_singleton.
Defined.

(** ** [Suite.Update] is Bayes's rule *)

Section bayes.
Context `{Countable K} {Data : Type}.
Variable Likelihood : Data → K → num.
Implicit Types (self s : DictWrapper K) (q : gmap K Qc) (ds : list Data).

Lemma qlik_lookup (L : K → Qc) q (k : K) :
  qlik L q !! k = (λ p, p * L k)%Qc <$> (q !! k).
Proof. unfold qlik. rewrite map_lookup_imap. by destruct (q !! k). Qed.


(** X17.  On a suite with finite weights [q] and for finite likelihoods [L],
    [Update(data)] computes Bayes's rule: with the evidence
    [sum (q h * L h)], it raises [ValueError] when the evidence is zero, and
    otherwise returns the evidence and leaves every hypothesis [h] with
    [q h * L h / evidence], weights that sum to 1. *)
Theorem Update_is_Bayes (data : Data) self q (L : K → Qc) :
  d self = Fin <$> q → log self = false →
  (∀ k, Likelihood data k = Fin (L k)) →
  (qtotal (qlik L q) = 0%Qc →
     Update Likelihood data self
     = Raise (ValueError "Normalize: total probability is zero.")) ∧
  (qtotal (qlik L q) ≠ 0%Qc →
     ∃ self', Update Likelihood data self
              = Ok (self', Fin (qtotal (qlik L q))) ∧
       (∀ k, d self' !! k
             = (λ p, Fin (p * L k / qtotal (qlik L q))%Qc) <$> (q !! k)) ∧
       Total self' = num_one).
Proof.
  intros Hd Hlog HL. unfold Update.
  change (mult_likelihoods Likelihood data self)
    with (mult_likelihoods (λ _ : unit, Likelihood data) tt self).
  destruct (mult_likelihoods_fin (λ _ : unit, Likelihood data) (λ _, L)
              (λ _ k, HL k) tt self q Hd) as [Hd' Hlog'].
  rewrite Hlog in Hlog'.
  rewrite (Normalize_fin _ _ Hd' Hlog'). split.
  - intros Hz. by rewrite decide_True.
  - intros Hz. rewrite decide_False by done. eexists. split; [done|].
    cbn [d with_d]. split.
    + intros k. unfold qscale. rewrite !lookup_fmap, qlik_lookup.
      destruct (q !! k) as [p|]; [|done]. cbn. do 2 f_equal.
      unfold Qcdiv. ring.
    + rewrite (Total_fin _ (qscale (1 / qtotal (qlik L q)) (qlik L q)))
        by done.
      rewrite qtotal_qscale. unfold num_one. f_equal. by field.
Qed.




End bayes.

Lemma Update_is_Bayes_witness :
  ∃ self', Update two_to_one tt suite_flat
           = Ok (self', Fin (qtotal (qlik (λ h, if bool_decide (h = 1)
                                               then Qc_of_Z 2 else Qc_of_Z 1)
                                     {[ 1 := Qc_of_Z 1; 2 := Qc_of_Z 1 ]}))) ∧
           Total self' = num_one.
Proof.
  destruct (Update_is_Bayes two_to_one tt suite_flat
              {[ 1 := Qc_of_Z 1; 2 := Qc_of_Z 1 ]}
              (λ h, if bool_decide (h = 1) then Qc_of_Z 2 else Qc_of_Z 1))
    as [_ Hok].
  - unfold suite_flat. cbn [d]. by rewrite fmap_insert, map_fmap_singleton.
  - done.
  - intros k. unfold two_to_one. by case_bool_decide.
  - destruct Hok as (self' & Hup & _ & Htot).
    + intros Hz. apply (f_equal this) in Hz. by vm_compute in Hz.
    + by exists self'.
Defined.


(** ** The Kaplan-Meier estimate and the survival function made from it *)

Section kaplan_meier.
Implicit Types (complete ongoing : list Qc) (t : Qc).

Lemma EstimateHazardFunction_km complete ongoing lbl :
  EstimateHazardFunction complete ongoing lbl
  = Ok {| series := (λ t, (t, km_hazard complete ongoing t))
                      <$> observed_times complete ongoing;
          hlabel := lbl |}.
Proof.
  pose proof (observed_times_sorted complete ongoing) as Hsorted.
  assert (Hcover : ∀ x, x ∈ complete ++ ongoing
                        ↔ x ∈ observed_times complete ongoing).
  { intros x. by rewrite observed_times_elem, elem_of_app. }
  unfold EstimateHazardFunction. fold (observed_times complete ongoing).
  rewrite <-total_leaving.
  pose proof (hazard_loop_spec complete ongoing []
                (observed_times complete ongoing) [] Hsorted Hcover eq_refl)
    as Hloop.
  cbn [app] in Hloop. by rewrite Hloop.
Qed.

Lemma MakeSurvival_km complete ongoing lbl lbl' :
  MakeSurvival {| series := (λ t, (t, km_hazard complete ongoing t))
                              <$> observed_times complete ongoing;
                  hlabel := lbl |} lbl'
  = {| ts := observed_times complete ongoing;
       ss := cumprod ((λ t, num_one -ₙ km_hazard complete ongoing t)
                        <$> observed_times complete ongoing);
       slabel := lbl' |}.
Proof.
  unfold MakeSurvival. cbn [series]. f_equal.
  - rewrite <-list_fmap_compose. apply list_fmap_id.
  - by rewrite <-!list_fmap_compose.
Qed.


Lemma length_filter_pos {A} (P : A → Prop) `{∀ x, Decision (P x)}
    (l : list A) (x : A) :
  x ∈ l → P x → (0 < length (filter P l))%nat.
Proof.
  intros Hx HP. assert (Hin : x ∈ filter P l) by by apply list_elem_of_filter.
  destruct (filter P l); [by apply elem_of_nil in Hin|cbn; lia].
Qed.


Lemma at_risk_pos complete ongoing t :
  t ∈ complete ++ ongoing → 0 < at_risk_at t complete ongoing.
Proof.
  intros Ht. unfold at_risk_at.
  pose proof (length_filter_pos (λ x, (t ≤ x)%Qc) _ t Ht (Qcle_refl t)). lia.
Qed.



Lemma cumprod_from_length (acc : num) (l : list num) :
  length (cumprod_from acc l) = length l.
Proof.
  revert acc. induction l as [|x l IH]; intros acc; [done|].
  destruct x; cbn [cumprod_from length]; by rewrite IH.
Qed.



(** The observations after [t] are those of the later observed times. *)
Lemma later_times_beyond complete (pre post : list Qc) t :
  StronglySorted Qclt (pre ++ t :: post) →
  (∀ x, x ∈ complete → x ∈ pre ++ t :: post) →
  zsum (leaving_at complete [] <$> post) = beyond t complete.
Proof.
  intros Hsorted Hcover. unfold beyond.
  rewrite <-(zsum_count_in (λ x, (t < x)%Qc) (pre ++ t :: post))
    by (try done; by apply StronglySorted_lt_NoDup).
  rewrite fmap_app, fmap_cons, zsum_app. cbn [zsum foldr].
  fold (zsum ((λ y, if decide (t < y)%Qc then count_in y complete else 0)
               <$> post)).
  rewrite (zsum_zero _ pre), decide_False, !Z.add_0_l.
  - apply zsum_ext. intros y Hy. rewrite decide_True.
    + unfold leaving_at, count_in at 2. cbn. lia.
    + apply StronglySorted_app_1_r, StronglySorted_cons in Hsorted as [Hlt _].
      rewrite Forall_forall in Hlt. by apply Hlt.
  - apply Qcle_not_lt, Qcle_refl.
  - intros y Hy. rewrite decide_False; [done|]. apply Qcle_not_lt, Qclt_le_weak.
    eapply (StronglySorted_app_1_elem_of _ _ _ _ _ Hsorted); [done|by left].
Qed.

(** The running products of the Kaplan-Meier factors, without censoring. *)
Lemma cumprod_km complete (pre post : list Qc) :
  StronglySorted Qclt (pre ++ post) →
  (∀ x, x ∈ complete ↔ x ∈ pre ++ post) →
  complete ≠ [] →
  cumprod_from
    (Fin (Qc_of_Z (zsum (leaving_at complete [] <$> post))
          / Qc_of_Z (Z.of_nat (length complete)))%Qc)
    ((λ t, num_one -ₙ km_hazard complete [] t) <$> post)
  = (λ t, Fin (Qc_of_Z (beyond t complete)
               / Qc_of_Z (Z.of_nat (length complete)))%Qc) <$> post.
Proof.
  intros Hsorted Hcover Hne. revert pre Hsorted Hcover.
  induction post as [|t post IH]; intros pre Hsorted Hcover; [done|].
  assert (Hcover' : ∀ x, x ∈ complete ++ [] → x ∈ pre ++ t :: post).
  { intros x. rewrite app_nil_r. apply Hcover. }
  pose proof (suffix_at_risk complete [] pre post t Hsorted Hcover') as Hrisk.
  pose proof (later_times_beyond complete pre post t Hsorted
                (λ x, proj1 (Hcover x))) as Hbeyond.
  assert (Ht : t ∈ complete ++ []).
  { rewrite app_nil_r. apply Hcover, elem_of_app. right. by left. }
  pose proof (at_risk_pos complete [] t Ht) as Hpos.
  assert (HN : 0 < Z.of_nat (length complete)).
  { destruct complete; [done|cbn [length]; lia]. }
  assert (HNq : Qc_of_Z (Z.of_nat (length complete)) ≠ 0%Qc).
  { rewrite <-Z2Qc_inj_0. intros ?%Z2Qc_inj. lia. }
  assert (HRq : Qc_of_Z (at_risk_at t complete []) ≠ 0%Qc).
  { rewrite <-Z2Qc_inj_0. intros ?%Z2Qc_inj. lia. }
  assert (Hleft : Qc_of_Z (beyond t complete)
                  = (Qc_of_Z (at_risk_at t complete [])
                     - Qc_of_Z (count_in t complete))%Qc).
  { rewrite <-Z2Qc_inj_sub. f_equal. rewrite <-Hbeyond, <-Hrisk, fmap_cons.
    assert (Hl : leaving_at complete [] t = count_in t complete).
    { unfold leaving_at, count_in. cbn. lia. }
    unfold zsum. cbn [foldr]. rewrite Hl. lia. }
  rewrite Hrisk, !fmap_cons. unfold km_hazard at 1, num_one, nsub.
  cbn [nneg nadd cumprod_from nmul].
  assert (Hstep :
    (Qc_of_Z (at_risk_at t complete []) / Qc_of_Z (Z.of_nat (length complete))
     * (1 + - (Qc_of_Z (count_in t complete)
               / Qc_of_Z (at_risk_at t complete []))))%Qc
    = (Qc_of_Z (beyond t complete)
       / Qc_of_Z (Z.of_nat (length complete)))%Qc).
  { rewrite Hleft. by field. }
  rewrite Hstep. f_equal. rewrite <-Hbeyond.
  rewrite (cons_middle t pre post) in Hsorted, Hcover.
  rewrite app_assoc in Hsorted.
  apply (IH (pre ++ [t]) Hsorted). intros x. by rewrite <-app_assoc.
Qed.

(** X20.  Without censoring the Kaplan-Meier estimate is the empirical
    survival function: over the distinct lifetimes in ascending order, the
    survival at the lifetime [t] is the fraction of the lifetimes that go
    beyond [t]. *)
Theorem survival_without_censoring complete lbl lbl' :
  ∃ hf, EstimateHazardFunction complete [] lbl = Ok hf ∧
    ts (MakeSurvival hf lbl') = observed_times complete [] ∧
    ss (MakeSurvival hf lbl')
    = (λ t, Fin (Qc_of_Z (beyond t complete)
                 / Qc_of_Z (Z.of_nat (length complete)))%Qc)
        <$> observed_times complete [].
Proof.
  eexists. split; [apply EstimateHazardFunction_km|].
  rewrite MakeSurvival_km. cbn [ts ss]. split; [done|].
  destruct (decide (complete = [])) as [->|Hne]; [done|].
  pose proof (observed_times_sorted complete []) as Hsorted.
  assert (Hcover : ∀ x, x ∈ complete ↔ x ∈ [] ++ observed_times complete []).
  { intros x. cbn [app]. rewrite observed_times_elem. split; [by left|].
    intros [?|Hnil]; [done|]. by apply elem_of_nil in Hnil. }
  rewrite <-(cumprod_km complete [] _ Hsorted Hcover Hne).
  unfold cumprod. f_equal. rewrite total_leaving. cbn [length].
  unfold num_one. f_equal. rewrite Z.add_0_r. field.
  rewrite <-Z2Qc_inj_0. intros ?%Z2Qc_inj.
  destruct complete; [done|cbn [length] in *; lia].
Qed.

End kaplan_meier.

(** ** The p-value *)

Section p_value.
Context {Data Model Rng : Type}.
Variable TestStatistic : Model → Data → Qc.
Variable RunModel : Model → Data → Rng → Data * Rng.
Implicit Types (self : HypothesisTest (Data := Data) (Model := Model)).

Local Abbreviation run_sims := (run_tests TestStatistic RunModel).
Local Abbreviation p_value := (PValue TestStatistic RunModel).

(** Every stored statistic is the statistic of some simulated data. *)
Lemma run_tests_Forall (P : Qc → Prop) self (n : nat) (g : Rng) :
  (∀ sim, P (TestStatistic (model self) sim)) →
  Forall P (run_sims self n g).1.
Proof.
  intros HP. revert g. induction n as [|n IH]; intros g; cbn; [done|].
  destruct (RunModel _ _ g) as [sim g']. specialize (IH g').
  destruct (run_sims self n g') as [rest g'']. cbn in *. by constructor.
Qed.

Lemma PValue_value (iters : Z) self (g : Rng) :
  iters ≠ 0 →
  ∃ self',
    p_value iters self g
    = Ok (self',
          Fin (Qc_of_Z (count_ge (run_sims self (Z.to_nat iters) g).1
                          (actual self))
               / Qc_of_Z iters)%Qc,
          (run_sims self (Z.to_nat iters) g).2) ∧
    test_stats self' = Some (run_sims self (Z.to_nat iters) g).1.
Proof.
  intros Hnz. unfold PValue, PValue_state.
  destruct (run_sims self (Z.to_nat iters) g) as [stats' g'] eqn:Hrun.
  destruct (Cdf_of_list_returns stats' None) as [c ->].
  cbn [mbind result_bind fst snd test_stats default actual].
  assert (Hq : Qc_of_Z iters ≠ 0%Qc).
  { rewrite <-Z2Qc_inj_0. by intros ?%Z2Qc_inj. }
  rewrite pydiv_ok.
  - unfold of_Z. cbn [ndiv]. rewrite decide_False by done.
    cbn [mbind result_bind]. by eexists.
  - by apply of_Z_neq_0.
Qed.

Lemma count_ge_bounds (stats : list Qc) (a : Qc) :
  0 ≤ count_ge stats a ≤ Z.of_nat (length stats).
Proof.
  unfold count_ge. pose proof (length_filter (λ x, (a ≤ x)%Qc) stats). lia.
Qed.

Lemma count_ge_all (stats : list Qc) (a : Qc) :
  Forall (λ x, (a ≤ x)%Qc) stats → count_ge stats a = Z.of_nat (length stats).
Proof.
  intros Hall. unfold count_ge. f_equal.
  induction Hall as [|x l Hx Hl IH]; [done|].
  rewrite filter_cons, decide_True by done. cbn [length]. by rewrite IH.
Qed.

Lemma PValue_positive (iters : Z) self (g : Rng) :
  0 < iters →
  ∃ self' (p : Qc) g',
    p_value iters self g = Ok (self', Fin p, g') ∧
    (0 ≤ p)%Qc ∧ (p ≤ 1)%Qc ∧
    ((∀ sim, (actual self ≤ TestStatistic (model self) sim)%Qc) → p = 1%Qc).
Proof.
  intros Hpos.
  destruct (PValue_value iters self g ltac:(lia)) as (self' & Hp & _).
  pose proof (run_tests_length TestStatistic RunModel self (Z.to_nat iters) g)
    as Hlen.
  set (stats := (run_sims self (Z.to_nat iters) g).1) in *.
  pose proof (count_ge_bounds stats (actual self)) as [H0 H1].
  assert (Hq : (0 < Qc_of_Z iters)%Qc).
  { rewrite <-Z2Qc_inj_0. by apply (proj1 (Z2Qc_inj_lt _ _)). }
  eexists self', _, _. split; [exact Hp|]. unfold Qcdiv.
  split; [|split].
  - apply Qcmult_nonneg_nonneg; [|by apply Qclt_le_weak, Qcinv_pos].
    rewrite <-Z2Qc_inj_0. by apply (proj1 (Z2Qc_inj_le _ _)).
  - rewrite <-(Qcmult_inv_r (Qc_of_Z iters))
      by by apply not_symmetry, Qclt_not_eq.
    apply Qcmult_le_mono_nonneg_r; [by apply Qclt_le_weak, Qcinv_pos|].
    apply (proj1 (Z2Qc_inj_le _ _)). lia.
  - intros Hall. rewrite count_ge_all.
    + rewrite Hlen, Z2Nat.id by lia.
      by apply Qcmult_inv_r, not_symmetry, Qclt_not_eq.
    + by apply run_tests_Forall.
Qed.

(** X21.  With at least one iteration the p-value lies between 0 and 1, and
    it is 1 when no statistic of simulated data can be below the statistic
    of the data.  With a negative number of iterations nothing is
    simulated, nothing is raised and the p-value returned is 0. *)
Theorem PValue_bounds (iters : Z) self (g : Rng) :
  (0 < iters →
     ∃ self' (p : Qc) g',
       p_value iters self g = Ok (self', Fin p, g') ∧
       (0 ≤ p)%Qc ∧ (p ≤ 1)%Qc ∧
       ((∀ sim, (actual self ≤ TestStatistic (model self) sim)%Qc) →
        p = 1%Qc)) ∧
  (iters < 0 →
     ∃ self', p_value iters self g = Ok (self', num_zero, g) ∧
              test_stats self' = Some []).
Proof.
  split; [apply PValue_positive|].
  intros Hneg.
  destruct (PValue_value iters self g ltac:(lia)) as (self' & Hp & Hs).
  replace (Z.to_nat iters) with 0%nat in * by lia.
  cbn [run_tests fst snd] in *. exists self'. split; [|done].
  rewrite Hp.
  assert (Hc : count_ge [] (actual self) = 0) by done.
  assert (H0 : (0 / Qc_of_Z iters)%Qc = 0%Qc) by (unfold Qcdiv; ring).
  by rewrite Hc, Z2Qc_inj_0, H0.
Qed.

End p_value.

(** ** [CoinTest] *)

Lemma Counter_bool_total (l : list bool) :
  count_of (Counter l) true + count_of (Counter l) false
  = Z.of_nat (length l).
Proof.
  rewrite !count_of_Counter. induction l as [|b l IH]; [done|].
  rewrite !count_in_cons. cbn [length]. destruct b.
  - rewrite decide_True, decide_False by done. lia.
  - rewrite decide_False, decide_True by done. lia.
Qed.

(** X22.  [CoinTest] simulates as many tosses as were observed: the heads
    and tails of every simulated data set add up to the heads and tails of
    the data.  Its statistic is never negative, so for data with as many
    heads as tails the p-value is exactly 1, whatever the generator
    produces. *)
Theorem CoinTest_spec (heads tails : Z) (g : nat → bool) :
  (0 ≤ heads + tails →
     (CoinTest_RunModel tt (heads, tails) g).1.1
       + (CoinTest_RunModel tt (heads, tails) g).1.2
     = heads + tails) ∧
  (∀ dat, (0 ≤ CoinTest_TestStatistic tt dat)%Qc) ∧
  (∀ iters, 0 < iters → heads = tails →
     ∃ self' g',
       PValue CoinTest_TestStatistic CoinTest_RunModel iters
         (CoinTest (heads, tails)) g
       = Ok (self', num_one, g')).
Proof.
  assert (Hstat : ∀ dat, (0 ≤ CoinTest_TestStatistic tt dat)%Qc).
  { intros dat. unfold CoinTest_TestStatistic. rewrite <-Z2Qc_inj_0.
    apply (proj1 (Z2Qc_inj_le _ _)). lia. }
  split; [|split; [done|]].
  - intros Hn. unfold CoinTest_RunModel. cbn [fst snd].
    rewrite Counter_bool_total, length_fmap, length_seq. lia.
  - intros iters Hpos ->.
    destruct (PValue_positive CoinTest_TestStatistic CoinTest_RunModel iters
                (CoinTest (tails, tails)) g Hpos)
      as (self' & p & g' & Hp & _ & _ & Hone).
    exists self', g'. rewrite Hp, Hone; [done|].
    intros sim. unfold CoinTest, HypothesisTest_init. cbn [actual model].
    unfold CoinTest_TestStatistic at 1. cbn [fst snd].
    rewrite Z.sub_diag. apply Hstat.
Qed.

Lemma PValue_bounds_witness :
  ∃ self' (p : Qc) g',
    PValue CoinTest_TestStatistic CoinTest_RunModel 4 (CoinTest (3, 1))
      alternating
    = Ok (self', Fin p, g') ∧ (0 ≤ p)%Qc ∧ (p ≤ 1)%Qc.
Proof.
  destruct (proj1 (PValue_bounds CoinTest_TestStatistic CoinTest_RunModel 4
                     (CoinTest (3, 1)) alternating) ltac:(lia))
    as (self' & p & g' & Hp & H0 & H1 & _).
  by exists self', p, g'.
Defined.

Lemma CoinTest_spec_witness :
  ∃ self' g',
    PValue CoinTest_TestStatistic CoinTest_RunModel 5 (CoinTest (2, 2))
      alternating
    = Ok (self', num_one, g').
Proof.
  apply (proj2 (proj2 (CoinTest_spec 2 2 alternating)) 5); [lia|done].
Defined.

(** ** [Trim] *)

Lemma py_slice_zero {A} (l : list A) : py_slice l 0 (- 0) = [].
Proof.
  unfold py_slice. change (- 0) with 0.
  rewrite bool_decide_eq_false_2 by lia. by rewrite Z.sub_diag.
Qed.

Lemma py_slice_both_ends {A} (l : list A) (n : Z) :
  0 < n → 2 * n ≤ Z.of_nat (length l) →
  py_slice l n (- n)
  = take (length l - 2 * Z.to_nat n) (drop (Z.to_nat n) l).
Proof.
  intros Hn Hlen. unfold py_slice.
  rewrite (bool_decide_eq_false_2 (n < 0)) by lia.
  rewrite (bool_decide_eq_true_2 (- n < 0)) by lia.
  do 2 f_equal; lia.
Qed.

(** With the default [p = 0.01] the product is below 1 for fewer than a
    hundred values. *)
Lemma default_trim_count (n : nat) :
  (n < 100)%nat →
  int_of_float (PrimFloat.mul 0.01%float
                  (PrimFloat.of_uint63 (Uint63.of_Z (Z.of_nat n))))
  = Ok 0.
Proof.
  intros Hn.
  do 100 (destruct n as [|n]; [vm_compute; reflexivity|]). lia.
Qed.

(** X23.  [Trim(t, p)] sorts [t] and cuts [n = int(p * len(t))] values off
    each end, where the product is the rounded product of floats.  When [n]
    is 0, as it is for the default [p = 0.01] and fewer than a hundred
    values, the slice [[0:-0]] is empty: [Trim] returns no value at all, and
    [TrimmedMean] is [nan].  When [n] is positive and [2 * n] does not
    exceed the length, the [n] smallest and the [n] largest values are
    dropped.  When the product is [nan] or infinite, [int] raises. *)
Theorem Trim_spec (t : list Qc) (p : float) :
  (int_of_float (PrimFloat.mul p (float_of_len t)) = Ok 0 →
     Trim t p = Ok [] ∧ TrimmedMean t p = Ok NaN) ∧
  ((length t < 100)%nat →
     Trim t 0.01%float = Ok [] ∧ TrimmedMean t 0.01%float = Ok NaN) ∧
  (∀ n, int_of_float (PrimFloat.mul p (float_of_len t)) = Ok n →
     0 < n → 2 * n ≤ Z.of_nat (length t) →
     ∃ l, Trim t p = Ok l ∧
          l = take (length t - 2 * Z.to_nat n)
                (drop (Z.to_nat n) (merge_sort Qcle t)) ∧
          length l = (length t - 2 * Z.to_nat n)%nat) ∧
  (∀ e, int_of_float (PrimFloat.mul p (float_of_len t)) = Raise e →
     Trim t p = Raise e ∧ TrimmedMean t p = Raise e).
Proof.
  assert (Hzero : ∀ p', int_of_float (PrimFloat.mul p' (float_of_len t)) = Ok 0 →
                        Trim t p' = Ok [] ∧ TrimmedMean t p' = Ok NaN).
  { intros p' Hn. unfold TrimmedMean, Trim. rewrite Hn.
    cbn [mbind result_bind]. by rewrite py_slice_zero. }
  split; [apply Hzero|]. split; [|split].
  - intros Hlen. apply Hzero. unfold float_of_len.
    by apply default_trim_count.
  - intros n Hn Hpos Hlen. unfold Trim. rewrite Hn. cbn [mbind result_bind].
    assert (Hsorted : length (merge_sort Qcle t) = length t).
    { by rewrite merge_sort_Permutation. }
    rewrite py_slice_both_ends, Hsorted by (rewrite ?Hsorted; lia).
    eexists. split; [done|]. split; [done|].
    rewrite length_take, length_drop, Hsorted. lia.
  - intros e He. unfold TrimmedMean, Trim. by rewrite He.
Qed.

(** [Trim(range(100), 0.29)] keeps the 44 numbers from 28 to 71. *)
Lemma Trim_spec_witness :
  ∃ l, Trim hundred 0.29%float = Ok l ∧
       l = take (length hundred - 2 * Z.to_nat 28)
             (drop (Z.to_nat 28) (merge_sort Qcle hundred)) ∧
       length l = 44%nat.
Proof.
  destruct (proj1 (proj2 (proj2 (Trim_spec hundred 0.29%float))) 28)
    as (l & Hl & Heq & Hlen).
  - vm_compute. reflexivity.
  - lia.
  - vm_compute. discriminate.
  - exists l. split; [done|]. split; [done|]. by rewrite Hlen.
Defined.

(** ** A histogram counts *)

(** X24.  [Hist(t)] on a sequence never raises.  The frequency of a value
    is the number of its occurrences in [t], 0 for a value that does not
    occur; the total is the length of [t], and there are as many entries as
    distinct values. *)
Theorem Hist_of_sequence `{Countable K} (t : list K) lbl :
  ∃ hist, init KHist (Some (SrcList t)) lbl = Ok hist ∧
    (∀ x, Freq hist x = of_Z (count_in x t)) ∧
    (∀ x, is_Some (d hist !! x) ↔ x ∈ t) ∧
    Total hist = of_Z (Z.of_nat (length t)) ∧
    len hist = Z.of_nat (size (list_to_set t : gset K)).
Proof.
  eexists. split; [apply Hist_of_list|]. cbn [d]. split; [|split; [|split]].
  - intros x. unfold Freq, getitem. cbn [d].
    rewrite lookup_fmap, Counter_lookup.
    destruct (decide (x ∈ t)) as [Hx|Hx]; cbn [fmap option_fmap option_map default];
      [done|].
    by rewrite count_in_notin, of_Z_0.
  - intros x. rewrite lookup_fmap, Counter_lookup.
    destruct (decide (x ∈ t)); cbn; split; try done; by eexists.
  - unfold Total. cbn [d]. apply Counter_total.
  - unfold len. cbn [d]. f_equal. rewrite map_size_fmap.
    rewrite <-size_dom. f_equal. apply set_eq. intros x.
    by rewrite elem_of_dom_Counter, elem_of_list_to_set.
Qed.

(** ** [Pmf.Percentile] *)

Section percentile.
Implicit Types (self : DictWrapper Qc) (items : list (Qc * num)).

Lemma Percentile_loop_elem (p total : num) items (v : Qc) :
  Percentile_loop p total items = Some v → v ∈ items.*1.
Proof.
  revert total. induction items as [|[val prob] items IH]; intros total;
    [done|].
  cbn [Percentile_loop]. destruct (nleb p (total +ₙ prob)).
  - intros [= <-]. rewrite fmap_cons. by left.
  - intros Hv. rewrite fmap_cons. right. by eapply IH.
Qed.

Lemma nleb_fin_trans (p p' : Qc) (t : num) :
  (p ≤ p')%Qc → nleb (Fin p') t = true → nleb (Fin p) t = true.
Proof.
  intros Hp. destruct t as [a| | |]; try done.
  intros Hle. apply (proj1 (nle_fin _ _)) in Hle. apply (proj2 (nle_fin _ _)).
  by trans p'.
Qed.

(** The loop stops no later for a smaller [p], and the values are visited
    in ascending order. *)
Lemma Percentile_loop_mono (p p' : Qc) (total : num) items (v' : Qc) :
  (p ≤ p')%Qc → StronglySorted Qclt items.*1 →
  Percentile_loop (Fin p') total items = Some v' →
  ∃ v, Percentile_loop (Fin p) total items = Some v ∧ (v ≤ v')%Qc.
Proof.
  intros Hp. revert total.
  induction items as [|[val prob] items IH]; intros total Hs; [done|].
  rewrite fmap_cons in Hs. apply StronglySorted_inv in Hs as [Hs Hval].
  cbn [Percentile_loop fst].
  destruct (nleb (Fin p') (total +ₙ prob)) eqn:Hle'.
  - intros [= <-]. rewrite (nleb_fin_trans p p') by done.
    exists val. split; [done|]. apply Qcle_refl.
  - intros Hv'. destruct (nleb (Fin p) (total +ₙ prob)).
    + exists val. split; [done|]. apply Qclt_le_weak.
      rewrite Forall_forall in Hval. apply Hval.
      by eapply Percentile_loop_elem.
    + by apply IH.
Qed.

(** X25.  [Percentile] returns [None] on a distribution without values, and
    a value it returns is a value of the distribution.  When no weight is
    negative and the percentage is not above 0, it returns the smallest
    value.  It is monotone: when it returns a value at a percentage, it
    returns a value that is not larger at every smaller percentage. *)
Theorem Percentile_spec self (percentage : Qc) :
  (d self = ∅ → Percentile self (Fin percentage) = None) ∧
  (∀ v, Percentile self (Fin percentage) = Some v → is_Some (d self !! v)) ∧
  (d self ≠ ∅ → (∀ k w, d self !! k = Some w → nle num_zero w) →
   (percentage ≤ 0)%Qc →
     ∃ v, Percentile self (Fin percentage) = Some v ∧
          is_Some (d self !! v) ∧
          ∀ k, is_Some (d self !! k) → (v ≤ k)%Qc) ∧
  (∀ (percentage' v' : Qc), (percentage ≤ percentage')%Qc →
     Percentile self (Fin percentage') = Some v' →
     ∃ v, Percentile self (Fin percentage) = Some v ∧ (v ≤ v')%Qc).
Proof.
  assert (H100 : Qc_of_Z 100 ≠ 0%Qc).
  { rewrite <-Z2Qc_inj_0. by intros ?%Z2Qc_inj. }
  assert (Hp : ∀ x, Fin x /ₙ of_Z 100 = Fin (x / Qc_of_Z 100)%Qc).
  { intros x. unfold of_Z. cbn [ndiv]. by rewrite decide_False. }
  assert (Hinv : (0 ≤ / Qc_of_Z 100)%Qc).
  { apply Qclt_le_weak, Qcinv_pos. rewrite <-Z2Qc_inj_0.
    by apply Z2Qc_inj_lt. }
  split; [|split; [|split]].
  - intros Hd. unfold Percentile, sorted_items, Items.
    by rewrite Hd, map_to_list_empty.
  - intros v Hv. apply Percentile_loop_elem in Hv.
    apply list_elem_of_fmap in Hv as ([k w] & -> & Hkw).
    apply sorted_items_elem in Hkw. by eexists.
  - intros Hne Hnn Hle. unfold Percentile. rewrite Hp.
    pose proof (sorted_items_keys self) as Hs.
    pose proof (sorted_items_elem self) as Helem.
    pose proof (sorted_items_length self) as Hlen.
    destruct (sorted_items self) as [|[v w] rest].
    { exfalso. apply Hne. apply map_size_empty_iff. by rewrite <-Hlen. }
    assert (Hvw : d self !! v = Some w) by (apply Helem; by left).
    exists v. split; [|split; [by eexists|]].
    + cbn [Percentile_loop].
      assert (Hw : nleb (Fin (percentage / Qc_of_Z 100)%Qc) (num_zero +ₙ w)
                   = true); [|by rewrite Hw].
      specialize (Hnn v w Hvw). destruct w as [a| | |]; try done.
      apply (proj1 (nle_fin _ _)) in Hnn. apply (proj2 (nle_fin _ _)).
      trans 0%Qc.
      * unfold Qcdiv. replace 0%Qc with (0 * / Qc_of_Z 100)%Qc by ring.
        by apply Qcmult_le_compat_r.
      * by rewrite Qcplus_0_l.
    + intros k [w' Hk]. apply Helem in Hk.
      rewrite fmap_cons in Hs. apply StronglySorted_inv in Hs as [_ Hv].
      apply elem_of_cons in Hk as [[= -> _]|Hk]; [apply Qcle_refl|].
      apply Qclt_le_weak. rewrite Forall_forall in Hv. apply Hv.
      apply list_elem_of_fmap. by exists (k, w').
  - intros percentage' v' Hle. unfold Percentile. rewrite !Hp.
    apply Percentile_loop_mono; [|apply sorted_items_keys].
    unfold Qcdiv. by apply Qcmult_le_compat_r.
Qed.

End percentile.

(** On [{1: 1, 2: 3}] the 150th percentile is a value, so the 50th is a
    value that is not larger. *)
Lemma Percentile_spec_witness :
  ∃ v v', Percentile pmf_1_3 (Fin (Qc_of_Z 150)) = Some v' ∧
          Percentile pmf_1_3 (Fin (Qc_of_Z 50)) = Some v ∧ (v ≤ v')%Qc.
Proof.
  destruct (Percentile pmf_1_3 (Fin (Qc_of_Z 150))) as [v'|] eqn:Hv';
    [|by vm_compute in Hv'].
  destruct (proj2 (proj2 (proj2 (Percentile_spec pmf_1_3 (Qc_of_Z 50))))
              (Qc_of_Z 150) v') as (v & Hv & Hle).
  - by apply Z2Qc_inj_le.
  - done.
  - by exists v, v'.
Defined.

(** ** [MakeJoint] and [Marginal] *)

Section joint.
Implicit Types (pmf : DictWrapper Qc) (q : gmap Qc Qc)
  (la lb : list (Qc * num)).

Lemma MakeJoint_fold pmf1 pmf2 :
  MakeJoint pmf1 pmf2
  = foldl (λ s kv, Set_ s kv.1 (id kv.2)) Joint_new
      (joint_pairs (Items pmf1) (Items pmf2)).
Proof.
  unfold MakeJoint, joint_pairs. generalize Joint_new.
  induction (Items pmf1) as [|x la IH]; intros joint; [done|].
  cbn [foldl]. rewrite bind_cons, foldl_app, <-IH. f_equal.
  clear IH. revert joint.
  induction (Items pmf2) as [|y lb IH]; intros joint; [done|].
  cbn [foldl]. rewrite bind_cons. cbn [app foldl]. by rewrite <-IH.
Qed.

Lemma elem_of_joint_pairs la lb (kv : (Qc * Qc) * num) :
  kv ∈ joint_pairs la lb
  ↔ ∃ x y, x ∈ la ∧ y ∈ lb ∧ kv = ((x.1, y.1), x.2 *ₙ y.2).
Proof.
  unfold joint_pairs. rewrite list_elem_of_bind. split.
  - intros (x & (y & Hkv%list_elem_of_singleton & Hy)%list_elem_of_bind & Hx).
    by exists x, y.
  - intros (x & y & Hx & Hy & ->). exists x. split; [|done].
    apply list_elem_of_bind. exists y. split; [|done].
    by apply list_elem_of_singleton.
Qed.

Lemma joint_pairs_NoDup la lb :
  NoDup la.*1 → NoDup lb.*1 → NoDup (joint_pairs la lb).*1.
Proof.
  intros Ha Hb. induction la as [|x la IH]; [constructor|].
  apply NoDup_cons in Ha as [Hx Ha].
  change (joint_pairs (x :: la) lb)
    with ((x :: la) ≫= λ x, lb ≫= λ y, [((x.1, y.1), x.2 *ₙ y.2)]).
  rewrite bind_cons, fmap_app. apply NoDup_app. split; [|split].
  - clear IH Hx. induction lb as [|y lb IH]; [constructor|].
    apply NoDup_cons in Hb as [Hy Hb]. rewrite bind_cons, fmap_app.
    cbn [fmap list_fmap app fst]. apply NoDup_cons. split; [|by apply IH].
    intros (kv & Hk & (y' & ->%list_elem_of_singleton & Hy')%list_elem_of_bind)%list_elem_of_fmap.
    cbn in Hk. injection Hk as Hk. apply Hy. rewrite Hk.
    apply list_elem_of_fmap. by exists y'.
  - intros k (kv1 & -> & (y & ->%list_elem_of_singleton & Hy)%list_elem_of_bind)%list_elem_of_fmap.
    intros (kv2 & Hk & (x' & y' & Hx' & _ & ->)%elem_of_joint_pairs)%list_elem_of_fmap.
    cbn in Hk. injection Hk as Hk _. apply Hx. rewrite Hk.
    apply list_elem_of_fmap. by exists x'.
  - by apply IH.
Qed.

Lemma MakeJoint_d pmf1 pmf2 :
  d (MakeJoint pmf1 pmf2)
  = list_to_map (joint_pairs (Items pmf1) (Items pmf2)).
Proof.
  apply map_eq. intros k. rewrite MakeJoint_fold.
  rewrite (foldl_Set_lookup id)
    by (apply joint_pairs_NoDup; apply NoDup_fst_map_to_list).
  by destruct (list_to_map _ !! k).
Qed.

Lemma Items_MakeJoint pmf1 pmf2 :
  Items (MakeJoint pmf1 pmf2) ≡ₚ joint_pairs (Items pmf1) (Items pmf2).
Proof.
  unfold Items at 1. rewrite MakeJoint_d. apply map_to_list_to_map.
  apply joint_pairs_NoDup; apply NoDup_fst_map_to_list.
Qed.

(** The entries of the joint distribution are the products of the entries
    of its factors. *)
Lemma MakeJoint_lookup pmf1 pmf2 (v1 v2 : Qc) :
  d (MakeJoint pmf1 pmf2) !! (v1, v2)
  = p1 ← d pmf1 !! v1; p2 ← d pmf2 !! v2; Some (p1 *ₙ p2).
Proof.
  rewrite MakeJoint_d.
  pose proof (joint_pairs_NoDup (Items pmf1) (Items pmf2)
                (NoDup_fst_map_to_list _) (NoDup_fst_map_to_list _)) as Hnd.
  destruct (d pmf1 !! v1) as [p1|] eqn:H1;
    [destruct (d pmf2 !! v2) as [p2|] eqn:H2|]; cbn.
  - apply elem_of_list_to_map; [done|]. apply elem_of_joint_pairs.
    exists (v1, p1), (v2, p2).
    split_and!; [by apply elem_of_map_to_list..|done].
  - apply not_elem_of_list_to_map.
    intros (kv & Hk & (x & y & _ & Hy & ->)%elem_of_joint_pairs)%list_elem_of_fmap.
    cbn in Hk. injection Hk as _ ->. destruct y as [v p2].
    apply elem_of_map_to_list in Hy. cbn in H2. congruence.
  - apply not_elem_of_list_to_map.
    intros (kv & Hk & (x & y & Hx & _ & ->)%elem_of_joint_pairs)%list_elem_of_fmap.
    cbn in Hk. injection Hk as -> _. destruct x as [v p1].
    apply elem_of_map_to_list in Hx. cbn in H1. congruence.
Qed.

(** A sum from any start is the start plus the sum from 0. *)
Lemma foldl_nadd_start (x : num) (l : list num) :
  foldl nadd x l = x +ₙ pysum l.
Proof.
  revert x. induction l as [|y l IH]; intros x.
  - change (pysum []) with num_zero. by rewrite nadd_0_r.
  - cbn [foldl]. by rewrite IH, pysum_cons, nadd_assoc.
Qed.

(** A run of [Incr] leaves the same dictionary in whatever order the terms
    come. *)
Lemma foldl_Incr_perm pmf (l l' : list (Qc * num)) :
  l ≡ₚ l' →
  d (foldl (λ pmf kt, Incr pmf kt.1 kt.2) pmf l)
  = d (foldl (λ pmf kt, Incr pmf kt.1 kt.2) pmf l').
Proof.
  intros Hp. apply map_eq. intros k. rewrite !foldl_Incr_terms.
  assert (Ht : terms_at k l ≡ₚ terms_at k l').
  { unfold terms_at. by rewrite Hp. }
  destruct (terms_at k l) as [|t ts] eqn:Hl.
  - by apply Permutation_nil_l in Ht as <-.
  - destruct (terms_at k l') as [|t' ts'] eqn:Hl'.
    + by apply Permutation_nil_r in Ht.
    + f_equal. rewrite !foldl_nadd_start. f_equal. by apply pysum_perm.
Qed.

Lemma terms_at_app (k : Qc) (l l' : list (Qc * num)) :
  terms_at k (l ++ l') = terms_at k l ++ terms_at k l'.
Proof. unfold terms_at. by rewrite filter_app, fmap_app. Qed.

Lemma terms_at_bind {A} (k : Qc) (l : list A) (g : A → list (Qc * num)) :
  terms_at k (l ≫= g) = l ≫= λ x, terms_at k (g x).
Proof.
  induction l as [|x l IH]; [done|].
  by rewrite !bind_cons, terms_at_app, IH.
Qed.

Lemma terms_at_all (k : Qc) (l : list (Qc * num)) :
  (∀ kt, kt ∈ l → kt.1 = k) → terms_at k l = l.*2.
Proof.
  intros Hall. unfold terms_at. f_equal.
  induction l as [|kt l IH]; [done|].
  rewrite filter_cons, decide_True by (apply Hall; by left).
  f_equal. apply IH. intros kt' ?. apply Hall. by right.
Qed.

Lemma terms_at_none (k : Qc) (l : list (Qc * num)) :
  (∀ kt, kt ∈ l → kt.1 ≠ k) → terms_at k l = [].
Proof.
  intros Hall. unfold terms_at.
  induction l as [|kt l IH]; [done|].
  rewrite filter_cons, decide_False by (apply Hall; by left).
  apply IH. intros kt' ?. apply Hall. by right.
Qed.

(** When every term an item produces goes to the key of the item, the terms
    of a key are those of its item. *)
Lemma terms_at_keyed (la : list (Qc * num)) (g : Qc * num → list (Qc * num))
    (k : Qc) :
  NoDup la.*1 →
  (∀ x kt, kt ∈ g x → kt.1 = x.1) →
  terms_at k (la ≫= g)
  = match (list_to_map la : gmap Qc num) !! k with
    | Some p => (g (k, p)).*2
    | None => []
    end.
Proof.
  intros Hnd Hg. induction la as [|[k' p] la IH]; [done|].
  apply NoDup_cons in Hnd as [Hk Hnd].
  rewrite bind_cons, terms_at_app, IH by done.
  cbn [list_to_map foldr fst snd].
  destruct (decide (k = k')) as [->|Hne].
  - rewrite lookup_insert_eq, (not_elem_of_list_to_map_1 _ _ Hk), app_nil_r.
    apply terms_at_all. intros kt Hkt. by rewrite (Hg _ _ Hkt).
  - rewrite lookup_insert_ne by done.
    rewrite terms_at_none; [done|].
    intros kt Hkt. rewrite (Hg _ _ Hkt). cbn. congruence.
Qed.

Lemma bind_singleton_fmap {A B} (f : A → B) (l : list A) :
  (l ≫= λ x, [f x]) = f <$> l.
Proof. induction l as [|x l IH]; [done|]. by rewrite bind_cons, IH. Qed.

Lemma bind_nil {A B} (l : list A) : (l ≫= λ _, @nil B) = [].
Proof. induction l as [|x l IH]; [done|]. by rewrite bind_cons. Qed.

Lemma Items_fin_values pmf q :
  d pmf = Fin <$> q → (Items pmf).*2 = Fin <$> (map_to_list q).*2.
Proof.
  intros Hd. unfold Items. rewrite Hd, map_to_list_fmap.
  by rewrite <-!list_fmap_compose.
Qed.

Lemma pair_index_fst (vs : Qc * Qc) (i : Z) :
  i = 0 ∨ i = -2 → pair_index vs i = Ok vs.1.
Proof. by intros [-> | ->]. Qed.

Lemma pair_index_snd (vs : Qc * Qc) (i : Z) :
  i = 1 ∨ i = -1 → pair_index vs i = Ok vs.2.
Proof. by intros [-> | ->]. Qed.

Lemma pair_index_out (vs : Qc * Qc) (i : Z) :
  ¬ (-2 ≤ i < 2) → pair_index vs i = Raise IndexError.
Proof.
  intros Hi. unfold pair_index, np_index. cbv zeta.
  change (Z.of_nat (length [vs.1; vs.2])) with 2.
  destruct (bool_decide (i < 0)) eqn:Hneg.
  - apply bool_decide_eq_true in Hneg.
    by rewrite bool_decide_eq_false_2 by lia.
  - apply bool_decide_eq_false in Hneg.
    by rewrite bool_decide_eq_false_2 by lia.
Qed.

(** The marginal distribution of a projection [g] of the pairs. *)
Lemma Marginal_proj (g : Qc * Qc → Qc) (i : Z) pmf1 pmf2 lbl :
  (∀ vs, pair_index vs i = Ok (g vs)) →
  ∃ m, Marginal (MakeJoint pmf1 pmf2) i lbl = Ok m ∧
       d m = d (foldl (λ pmf kt, Incr pmf kt.1 kt.2) Pmf_new
                  (x ← Items pmf1; y ← Items pmf2;
                   [(g (x.1, y.1), x.2 *ₙ y.2)])).
Proof.
  intros Hg. unfold Marginal.
  rewrite (for_each_ok _ (λ pmf vsp, Incr pmf (g vsp.1) vsp.2))
    by (intros pmf vsp _; by rewrite Hg).
  eexists. split; [done|].
  rewrite <-(foldl_fmap (λ pmf kt, Incr pmf kt.1 kt.2) _ _
               (λ vsp, (g vsp.1, vsp.2))).
  rewrite (foldl_Incr_perm _ _
             ((λ vsp, (g vsp.1, vsp.2))
                <$> joint_pairs (Items pmf1) (Items pmf2)))
    by (by rewrite Items_MakeJoint).
  assert (Hl : (λ vsp : Qc * Qc * num, (g vsp.1, vsp.2))
                 <$> joint_pairs (Items pmf1) (Items pmf2)
               = x ← Items pmf1; y ← Items pmf2;
                 [(g (x.1, y.1), x.2 *ₙ y.2)]).
  { unfold joint_pairs. induction (Items pmf1) as [|x la IH]; [done|].
    rewrite !bind_cons, fmap_app, IH. f_equal.
    clear IH. induction (Items pmf2) as [|y lb IH]; [done|].
    by rewrite !bind_cons, fmap_app, IH. }
  rewrite Hl.
  apply map_eq. intros k. rewrite !foldl_Incr_terms. done.
Qed.

Lemma Marginal_first pmf1 pmf2 q1 q2 (i : Z) lbl :
  d pmf1 = Fin <$> q1 → d pmf2 = Fin <$> q2 → q2 ≠ ∅ →
  i = 0 ∨ i = -2 →
  ∃ m, Marginal (MakeJoint pmf1 pmf2) i lbl = Ok m ∧
       d m = Fin <$> qscale (qtotal q2) q1.
Proof.
  intros H1 H2 Hne Hi.
  destruct (Marginal_proj fst i pmf1 pmf2 lbl) as (m & Hm & Hd).
  { intros vs. by apply pair_index_fst. }
  exists m. split; [done|]. rewrite Hd. apply map_eq. intros k.
  rewrite foldl_Incr_terms.
  rewrite (terms_at_keyed (Items pmf1)
             (λ x, y ← Items pmf2; [(fst (x.1, y.1), x.2 *ₙ y.2)]))
    by first [apply NoDup_fst_map_to_list
             |by intros x kt (y & ->%list_elem_of_singleton & _)%list_elem_of_bind].
  unfold Items at 1. rewrite list_to_map_to_list, H1.
  unfold qscale. rewrite !lookup_fmap.
  destruct (q1 !! k) as [p1|]; [|done]. cbn [fmap option_fmap option_map fst snd].
  pose proof (pysum_scale_l_fin p1 (Items pmf2) (map_to_list q2).*2
                (λ _, k) (Items_fin_values _ _ H2)) as Hsum.
  cbn [fst snd] in Hsum.
  destruct ((Items pmf2 ≫= λ y, [(k, Fin p1 *ₙ y.2)]).*2) as [|t ts] eqn:Hts.
  - exfalso. apply Hne. apply (fmap_empty_inv Fin). rewrite <-H2.
    apply map_to_list_empty_iff. fold (Items pmf2).
    destruct (Items pmf2); [done|]. by rewrite bind_cons in Hts.
  - f_equal. unfold getitem, Pmf_new. cbn [d]. rewrite lookup_empty.
    cbn [default]. fold (pysum (t :: ts)). rewrite Hsum. done.
Qed.

Lemma Marginal_second pmf1 pmf2 q1 q2 (i : Z) lbl :
  d pmf1 = Fin <$> q1 → d pmf2 = Fin <$> q2 → q1 ≠ ∅ →
  i = 1 ∨ i = -1 →
  ∃ m, Marginal (MakeJoint pmf1 pmf2) i lbl = Ok m ∧
       d m = Fin <$> qscale (qtotal q1) q2.
Proof.
  intros H1 H2 Hne Hi.
  destruct (Marginal_proj snd i pmf1 pmf2 lbl) as (m & Hm & Hd).
  { intros vs. by apply pair_index_snd. }
  exists m. split; [done|]. rewrite Hd. apply map_eq. intros k.
  rewrite foldl_Incr_terms, terms_at_bind.
  assert (Hin : ∀ x : Qc * num,
    terms_at k (y ← Items pmf2; [(snd (x.1, y.1), x.2 *ₙ y.2)])
    = match q2 !! k with Some p2 => [x.2 *ₙ Fin p2] | None => [] end).
  { intros x.
    rewrite (terms_at_keyed (Items pmf2)
               (λ y, [(snd (x.1, y.1), x.2 *ₙ y.2)]))
      by first [apply NoDup_fst_map_to_list
               |by intros y kt ->%list_elem_of_singleton].
    unfold Items. rewrite list_to_map_to_list, H2, lookup_fmap.
    by destruct (q2 !! k). }
  erewrite (list_bind_ext _ _ (Items pmf1) (Items pmf1)); [|exact Hin|done].
  unfold qscale. rewrite !lookup_fmap.
  destruct (q2 !! k) as [p2|]; cbn [fmap option_fmap option_map].
  - rewrite (bind_singleton_fmap (λ x : Qc * num, x.2 *ₙ Fin p2)).
    assert (Hl : (λ x : Qc * num, x.2 *ₙ Fin p2) <$> Items pmf1
                 = (λ p, p *ₙ Fin p2) <$> (Items pmf1).*2)
      by (by rewrite <-list_fmap_compose).
    rewrite Hl.
    rewrite (Items_fin_values _ _ H1).
    pose proof (pysum_scale_fin p2 (map_to_list q1).*2) as Hsum.
    destruct ((λ p, p *ₙ Fin p2) <$> (Fin <$> (map_to_list q1).*2))
      as [|t ts] eqn:Hts.
    + exfalso. apply Hne. apply map_to_list_empty_iff.
      destruct (map_to_list q1); [done|]. by rewrite !fmap_cons in Hts.
    + f_equal. unfold getitem, Pmf_new. cbn [d]. rewrite lookup_empty.
      cbn [default]. fold (pysum (t :: ts)). rewrite Hsum. f_equal.
      unfold qtotal. ring.
  - by rewrite bind_nil.
Qed.

(** X26.  [MakeJoint] builds the joint distribution of two independent
    variables, and [Marginal] recovers its factors.  For finite weights
    [q1] and [q2]: the pair [(v1, v2)] has the weight [q1 v1 * q2 v2], and
    no other pair has one; the marginal of the first variable (index 0 or
    -2) is [q1] with every weight multiplied by the total of [q2], hence
    [pmf1] again when [pmf2] sums to 1, and likewise for the second variable
    (index 1 or -1); any other index raises [IndexError], unless the joint
    distribution is empty. *)
Theorem Marginal_of_MakeJoint pmf1 pmf2 q1 q2 :
  d pmf1 = Fin <$> q1 → d pmf2 = Fin <$> q2 →
  (∀ v1 v2, d (MakeJoint pmf1 pmf2) !! (v1, v2)
            = p1 ← q1 !! v1; p2 ← q2 !! v2; Some (Fin (p1 * p2)%Qc)) ∧
  (∀ i lbl, i = 0 ∨ i = -2 → q2 ≠ ∅ →
     ∃ m, Marginal (MakeJoint pmf1 pmf2) i lbl = Ok m ∧
          d m = Fin <$> qscale (qtotal q2) q1 ∧
          (qtotal q2 = 1%Qc → d m = d pmf1)) ∧
  (∀ i lbl, i = 1 ∨ i = -1 → q1 ≠ ∅ →
     ∃ m, Marginal (MakeJoint pmf1 pmf2) i lbl = Ok m ∧
          d m = Fin <$> qscale (qtotal q1) q2 ∧
          (qtotal q1 = 1%Qc → d m = d pmf2)) ∧
  (∀ i lbl, ¬ (-2 ≤ i < 2) → q1 ≠ ∅ → q2 ≠ ∅ →
     Marginal (MakeJoint pmf1 pmf2) i lbl = Raise IndexError).
Proof.
  intros H1 H2. split; [|split; [|split]].
  - intros v1 v2. rewrite MakeJoint_lookup, H1, H2, !lookup_fmap.
    by destruct (q1 !! v1), (q2 !! v2).
  - intros i lbl Hi Hne.
    destruct (Marginal_first pmf1 pmf2 q1 q2 i lbl H1 H2 Hne Hi)
      as (m & Hm & Hd).
    exists m. split; [done|]. split; [done|].
    intros Ht. by rewrite Hd, H1, qscale_1.
  - intros i lbl Hi Hne.
    destruct (Marginal_second pmf1 pmf2 q1 q2 i lbl H1 H2 Hne Hi)
      as (m & Hm & Hd).
    exists m. split; [done|]. split; [done|].
    intros Ht. by rewrite Hd, H2, qscale_1.
  - intros i lbl Hi Hne1 Hne2. unfold Marginal.
    destruct (Items (MakeJoint pmf1 pmf2)) as [|vsp rest] eqn:Hitems.
    + exfalso.
      destruct (map_choose q1 Hne1) as (v1 & p1 & Hv1).
      destruct (map_choose q2 Hne2) as (v2 & p2 & Hv2).
      pose proof (MakeJoint_lookup pmf1 pmf2 v1 v2) as Hl.
      rewrite H1, H2, !lookup_fmap, Hv1, Hv2 in Hl. cbn in Hl.
      apply elem_of_map_to_list in Hl. fold (Items (MakeJoint pmf1 pmf2)) in Hl.
      rewrite Hitems in Hl. by apply elem_of_nil in Hl.
    + cbn [for_each]. by rewrite pair_index_out.
Qed.

End joint.

Lemma Marginal_of_MakeJoint_witness :
  ∃ m, Marginal (MakeJoint pmf_1_3 pmf_1_3) 0 None = Ok m.
Proof.
  destruct (Marginal_of_MakeJoint pmf_1_3 pmf_1_3
              {[ Qc_of_Z 1 := Qc_of_Z 1; Qc_of_Z 2 := Qc_of_Z 3 ]}
              {[ Qc_of_Z 1 := Qc_of_Z 1; Qc_of_Z 2 := Qc_of_Z 3 ]})
    as (_ & Hm & _).
  - unfold pmf_1_3. cbn [d]. by rewrite fmap_insert, map_fmap_singleton.
  - unfold pmf_1_3. cbn [d]. by rewrite fmap_insert, map_fmap_singleton.
  - destruct (Hm 0 None) as (m & Hok & _); [by left| |by exists m].
    intros Hd. apply (f_equal size) in Hd. by vm_compute in Hd.
Defined.

(** ** [Conditional] on a joint distribution of independent variables *)

Section conditional.
Implicit Types (pmf : DictWrapper Qc) (q : gmap Qc Qc)
  (la lb : list (Qc * num)).

(** A loop that skips some items is the loop over the others. *)
Lemma foldl_Incr_filter (val : Qc) pmf (l : list ((Qc * Qc) * num)) :
  foldl (λ pmf vsp, if decide (vsp.1.2 = val)
                    then Incr pmf vsp.1.1 vsp.2 else pmf) pmf l
  = foldl (λ pmf kt, Incr pmf kt.1 kt.2) pmf
      ((λ vsp, (vsp.1.1, vsp.2)) <$> filter (λ vsp, vsp.1.2 = val) l).
Proof.
  revert pmf. induction l as [|vsp l IH]; intros pmf; [done|].
  cbn [foldl]. rewrite filter_cons.
  destruct (decide (vsp.1.2 = val)); [|apply IH].
  rewrite fmap_cons. cbn [foldl fst snd]. apply IH.
Qed.

Lemma joint_pairs_filter (val : Qc) la lb :
  (λ vsp : (Qc * Qc) * num, (vsp.1.1, vsp.2))
    <$> filter (λ vsp, vsp.1.2 = val) (joint_pairs la lb)
  = x ← la; y ← filter (λ y, y.1 = val) lb; [(x.1, x.2 *ₙ y.2)].
Proof.
  unfold joint_pairs. induction la as [|x la IH]; [done|].
  rewrite !bind_cons, filter_app, fmap_app, IH. f_equal. clear IH.
  induction lb as [|y lb IH]; [done|].
  rewrite bind_cons. cbn [app]. rewrite !filter_cons. cbn [fst snd].
  destruct (decide (y.1 = val)); [|apply IH].
  rewrite fmap_cons, bind_cons. cbn [app fst snd]. by rewrite IH.
Qed.

Lemma qtotal_empty : qtotal (∅ : gmap Qc Qc) = 0%Qc.
Proof. unfold qtotal. by rewrite map_to_list_empty. Qed.

(** The distribution [Conditional] builds before it normalizes. *)
Lemma Conditional_loop pmf1 pmf2 q1 q2 (val : Qc) (i j : Z) lbl :
  d pmf1 = Fin <$> q1 → d pmf2 = Fin <$> q2 →
  i = 0 ∨ i = -2 → j = 1 ∨ j = -1 →
  ∃ w,
    for_each (λ pmf vsp,
        vj ← pair_index vsp.1 j;
        if bool_decide (vj ≠ val) then Ok pmf
        else vi ← pair_index vsp.1 i; Ok (Incr pmf vi vsp.2))
      (Items (MakeJoint pmf1 pmf2))
      (with_label Pmf_new (default DEFAULT_LABEL lbl))
    = Ok w ∧
    log w = false ∧
    d w = Fin <$> match q2 !! val with
                  | Some wt => qscale wt q1
                  | None => ∅
                  end.
Proof.
  intros H1 H2 Hi Hj.
  rewrite (for_each_ok _
             (λ pmf vsp, if decide (vsp.1.2 = val)
                         then Incr pmf vsp.1.1 vsp.2 else pmf)).
  2:{ intros pmf vsp _. rewrite (pair_index_snd _ _ Hj).
      cbn [mbind result_bind]. destruct (decide (vsp.1.2 = val)) as [He|Hn].
      - rewrite bool_decide_eq_false_2 by (by intros ?).
        by rewrite (pair_index_fst _ _ Hi).
      - by rewrite bool_decide_eq_true_2. }
  eexists. split; [done|]. rewrite foldl_Incr_filter.
  split; [by destruct (foldl_Incr_fields
                         (with_label Pmf_new (default DEFAULT_LABEL lbl))
                         ((λ vsp : Qc * Qc * num, (vsp.1.1, vsp.2))
                            <$> filter (λ vsp, vsp.1.2 = val)
                                  (Items (MakeJoint pmf1 pmf2))))
             as (_ & _ & ->)|].
  rewrite (foldl_Incr_perm _ _
             ((λ vsp : Qc * Qc * num, (vsp.1.1, vsp.2))
                <$> filter (λ vsp, vsp.1.2 = val)
                      (joint_pairs (Items pmf1) (Items pmf2))))
    by (by rewrite Items_MakeJoint).
  rewrite joint_pairs_filter.
  rewrite (filter_key_NoDup (Items pmf2)) by apply NoDup_fst_map_to_list.
  change (Items pmf2) with (map_to_list (d pmf2)).
  rewrite list_to_map_to_list, H2, lookup_fmap.
  destruct (q2 !! val) as [wt|]; cbn [fmap option_fmap option_map].
  - assert (Hl : (x ← Items pmf1; y ← [(val, Fin wt)];
                  [(x.1, x.2 *ₙ y.2)])
                 = (λ x : Qc * num, (x.1, x.2 *ₙ Fin wt)) <$> Items pmf1).
    { rewrite <-bind_singleton_fmap. done. }
    rewrite Hl, foldl_fmap. apply map_eq. intros k.
    etrans; [apply (foldl_Incr_lookup (λ t, t *ₙ Fin wt));
             apply NoDup_fst_map_to_list|].
    unfold Items. rewrite list_to_map_to_list, H1.
    unfold qscale, getitem, Pmf_new. cbn [d with_label].
    rewrite !lookup_fmap, lookup_empty.
    destruct (q1 !! k) as [p|]; [|done]. cbn. do 2 f_equal. ring.
  - assert (Hl : (x ← Items pmf1; y ← (@nil (Qc * num));
                  [(x.1, x.2 *ₙ y.2)]) = [])
      by exact (bind_nil (Items pmf1)).
    by rewrite Hl, fmap_empty.
Qed.

(** X27.  On the joint distribution that [MakeJoint] builds from finite
    weights, conditioning the first variable on a value of the second
    changes nothing: [Conditional(0, 1, val)] is [pmf1] divided by its
    total, whatever the value [val], as long as [val] has a weight other
    than zero in [pmf2] and the total of [pmf1] is not zero.  When [val] is
    not a value of [pmf2], or has the weight zero, or [pmf1] sums to zero,
    the call raises the [ValueError] of [Normalize]. *)
Theorem Conditional_of_MakeJoint pmf1 pmf2 q1 q2 (val : Qc) (i j : Z) lbl :
  d pmf1 = Fin <$> q1 → d pmf2 = Fin <$> q2 →
  i = 0 ∨ i = -2 → j = 1 ∨ j = -1 →
  (∀ wt, q2 !! val = Some wt → wt ≠ 0%Qc → qtotal q1 ≠ 0%Qc →
     ∃ m, Conditional (MakeJoint pmf1 pmf2) i j val lbl = Ok m ∧
          d m = Fin <$> qscale (1 / qtotal q1) q1 ∧
          (qtotal q1 = 1%Qc → d m = d pmf1)) ∧
  (q2 !! val = None ∨ q2 !! val = Some 0%Qc ∨ qtotal q1 = 0%Qc →
     Conditional (MakeJoint pmf1 pmf2) i j val lbl
     = Raise (ValueError "Normalize: total probability is zero.")).
Proof.
  intros H1 H2 Hi Hj.
  destruct (Conditional_loop pmf1 pmf2 q1 q2 val i j lbl H1 H2 Hi Hj)
    as (w & Hw & Hlog & Hd).
  unfold Conditional. rewrite Hw. cbn [mbind result_bind].
  rewrite (Normalize_fin _ _ Hd Hlog). split.
  - intros wt Hwt Hne Ht. rewrite Hwt in *. rewrite qtotal_qscale.
    rewrite decide_False by (by intros [?|?]%Qcmult_integral).
    cbn [mbind result_bind fst]. eexists. split; [done|].
    cbn [d with_d]. rewrite qscale_qscale.
    assert (Hc : (wt * (1 / (qtotal q1 * wt)))%Qc = (1 / qtotal q1)%Qc)
      by by field.
    rewrite Hc. split; [done|].
    intros Hone. rewrite H1. f_equal. apply qscale_1. rewrite Hone. by field.
  - intros Hz. rewrite decide_True; [done|].
    destruct (q2 !! val) as [wt|]; [|apply qtotal_empty].
    rewrite qtotal_qscale.
    destruct Hz as [?|[[= ->]| ->]]; [done|ring..].
Qed.

End conditional.

Lemma Conditional_of_MakeJoint_witness :
  ∃ m, Conditional (MakeJoint pmf_1_3 pmf_1_3) 0 1 (Qc_of_Z 1) None = Ok m ∧
       d m = Fin <$> qscale (1 / qtotal
                               {[ Qc_of_Z 1 := Qc_of_Z 1;
                                  Qc_of_Z 2 := Qc_of_Z 3 ]})
               {[ Qc_of_Z 1 := Qc_of_Z 1; Qc_of_Z 2 := Qc_of_Z 3 ]}.
Proof.
  destruct (Conditional_of_MakeJoint pmf_1_3 pmf_1_3
              {[ Qc_of_Z 1 := Qc_of_Z 1; Qc_of_Z 2 := Qc_of_Z 3 ]}
              {[ Qc_of_Z 1 := Qc_of_Z 1; Qc_of_Z 2 := Qc_of_Z 3 ]}
              (Qc_of_Z 1) 0 1 None) as [Hok _].
  - unfold pmf_1_3. cbn [d]. by rewrite fmap_insert, map_fmap_singleton.
  - unfold pmf_1_3. cbn [d]. by rewrite fmap_insert, map_fmap_singleton.
  - by left.
  - by left.
  - destruct (Hok (Qc_of_Z 1)) as (m & Hm & Hd & _).
    + done.
    + intros Hz. apply (f_equal this) in Hz. by vm_compute in Hz.
    + intros Hz. apply (f_equal this) in Hz. by vm_compute in Hz.
    + by exists m.
Defined.

(** ** A least-squares fit of points on a line *)

Section least_squares.
Implicit Types (xs ys u v : list Qc) (a b m : Qc).

Local Abbreviation qsum := (foldr Qcplus 0%Qc).
Local Abbreviation qlen l := (Qc_of_Z (Z.of_nat (length l))).

Lemma qlen_ne {A} (l : list A) : l ≠ [] → qlen l ≠ 0%Qc.
Proof.
  intros Hl Hz. rewrite <-Z2Qc_inj_0 in Hz. apply Z2Qc_inj in Hz.
  destruct l; [done|]. cbn [length] in Hz. lia.
Qed.

Lemma qlen_cons {A} (x : A) (l : list A) : qlen (x :: l) = (qlen l + 1)%Qc.
Proof.
  cbn [length]. rewrite Nat2Z.inj_succ, <-Z.add_1_r, Z2Qc_inj_add.
  by rewrite Z2Qc_inj_1.
Qed.

Lemma ndiv_fin (x y : Qc) : y ≠ 0%Qc → Fin x /ₙ Fin y = Fin (x / y)%Qc.
Proof. intros Hy. cbn [ndiv]. by rewrite decide_False. Qed.

Lemma array_mean_fin xs :
  xs ≠ [] → array_mean (Fin <$> xs) = Fin (qsum xs / qlen xs)%Qc.
Proof.
  intros Hne. unfold array_mean. rewrite pysum_fin, length_fmap.
  by apply ndiv_fin, qlen_ne.
Qed.

Lemma array_shift_fin xs m :
  (λ x, x -ₙ Fin m) <$> (Fin <$> xs) = Fin <$> ((λ x, x - m)%Qc <$> xs).
Proof. by rewrite <-!list_fmap_compose. Qed.

Lemma zip_nmul_fin u v :
  zip_with nmul (Fin <$> u) (Fin <$> v) = Fin <$> zip_with Qcmult u v.
Proof.
  revert v. induction u as [|x u IH]; intros [|y v]; [done..|].
  cbn [fmap list_fmap zip_with]. f_equal. apply IH.
Qed.

Lemma np_dot_fin u v :
  length u = length v → np_dot (Fin <$> u) (Fin <$> v) = Ok (Fin (qdot u v)).
Proof.
  intros Hl. unfold np_dot. rewrite !length_fmap, decide_True by done.
  by rewrite zip_nmul_fin, pysum_fin.
Qed.

Lemma np_dot_mismatch (a b : list num) :
  length a ≠ length b → np_dot a b = Raise (ValueError "shapes not aligned").
Proof. intros Hl. unfold np_dot. by rewrite decide_False. Qed.

Lemma Var_fin xs :
  xs ≠ [] →
  Var (Fin <$> xs) None 0
  = Ok (Fin (qdot ((λ x, x - qsum xs / qlen xs)%Qc <$> xs)
                  ((λ x, x - qsum xs / qlen xs)%Qc <$> xs) / qlen xs)%Qc).
Proof.
  intros Hne. unfold Var. cbn [default from_option id].
  rewrite array_mean_fin by done. cbv zeta. rewrite array_shift_fin, np_dot_fin by done.
  cbn [mbind result_bind]. rewrite length_fmap, Z.sub_0_r.
  unfold of_Z. by rewrite ndiv_fin by by apply qlen_ne.
Qed.

(** [LeastSquares] on finite data of one length. *)
Lemma LeastSquares_fin xs ys :
  xs ≠ [] → length xs = length ys →
  LeastSquares (Fin <$> xs) (Fin <$> ys)
  = Ok (Fin (qsum ys / qlen xs)%Qc
          -ₙ (Fin (qdot ((λ x, x - qsum xs / qlen xs)%Qc <$> xs)
                        ((λ y, y - qsum ys / qlen xs)%Qc <$> ys) / qlen xs)%Qc
              /ₙ Fin (qdot ((λ x, x - qsum xs / qlen xs)%Qc <$> xs)
                           ((λ x, x - qsum xs / qlen xs)%Qc <$> xs)
                      / qlen xs)%Qc)
             *ₙ Fin (qsum xs / qlen xs)%Qc,
        Fin (qdot ((λ x, x - qsum xs / qlen xs)%Qc <$> xs)
                  ((λ y, y - qsum ys / qlen xs)%Qc <$> ys) / qlen xs)%Qc
        /ₙ Fin (qdot ((λ x, x - qsum xs / qlen xs)%Qc <$> xs)
                     ((λ x, x - qsum xs / qlen xs)%Qc <$> xs) / qlen xs)%Qc).
Proof.
  intros Hne Hlen.
  assert (Hney : ys ≠ []) by (intros ->; by destruct xs).
  unfold LeastSquares, MeanVar, Var, Cov. cbn [default from_option id].
  cbv zeta. rewrite !array_mean_fin by done. rewrite <-Hlen.
  rewrite !array_shift_fin, np_dot_fin by done.
  cbn [mbind result_bind fst snd].
  rewrite array_shift_fin, np_dot_fin by (by rewrite !length_fmap).
  cbn [mbind result_bind fst snd]. rewrite length_fmap, Z.sub_0_r.
  unfold of_Z. by rewrite !ndiv_fin by by apply qlen_ne.
Qed.

Lemma qsum_on_line a b xs :
  qsum (on_line a b xs) = (qlen xs * a + b * qsum xs)%Qc.
Proof.
  induction xs as [|x xs IH].
  - unfold on_line. cbn [fmap list_fmap foldr length].
    change (Z.of_nat 0) with 0. rewrite Z2Qc_inj_0. ring.
  - change (on_line a b (x :: xs)) with ((a + b * x)%Qc :: on_line a b xs).
    cbn [foldr]. rewrite IH, qlen_cons. ring.
Qed.

Lemma qdot_on_line a b m xs :
  qdot ((λ x, x - m)%Qc <$> xs)
       ((λ y, y - (a + b * m))%Qc <$> on_line a b xs)
  = (b * qdot ((λ x, x - m)%Qc <$> xs) ((λ x, x - m)%Qc <$> xs))%Qc.
Proof.
  unfold qdot, on_line. induction xs as [|x xs IH].
  - cbn. ring.
  - cbn [fmap list_fmap zip_with foldr] in *. rewrite IH. ring.
Qed.

Lemma Qc_square_nonneg (x : Qc) : (0 ≤ x * x)%Qc.
Proof.
  destruct (Qclt_le_dec x 0) as [Hneg|Hpos].
  - replace (x * x)%Qc with ((- x) * (- x))%Qc by ring.
    assert (0 ≤ - x)%Qc.
    { apply Qclt_le_weak in Hneg. apply Qcopp_le_compat in Hneg.
      by replace (- 0)%Qc with 0%Qc in Hneg by ring. }
    by apply Qcmult_nonneg_nonneg.
  - by apply Qcmult_nonneg_nonneg.
Qed.

Lemma qdot_self_nonneg u : (0 ≤ qdot u u)%Qc.
Proof.
  unfold qdot. induction u as [|x u IH]; [done|].
  cbn [zip_with foldr].
  apply Qcplus_nonneg_nonneg; [apply Qc_square_nonneg|done].
Qed.

Lemma qdot_self_zero u : qdot u u = 0%Qc → Forall (λ x, x = 0%Qc) u.
Proof.
  induction u as [|x u IH]; [constructor|].
  unfold qdot. cbn [zip_with foldr]. fold (qdot u u). intros Hz.
  pose proof (Qc_square_nonneg x) as Hx.
  pose proof (qdot_self_nonneg u) as Hu.
  assert (Hxx : (x * x)%Qc = 0%Qc).
  { apply Qcle_antisym; [|done].
    rewrite <-Hz. rewrite <-(Qcplus_0_r (x * x)) at 1.
    by apply Qcplus_le_compat. }
  constructor.
  - by destruct (Qcmult_integral _ _ Hxx).
  - apply IH. rewrite Hxx in Hz. by rewrite Qcplus_0_l in Hz.
Qed.

(** Two different values give a variance that is not zero. *)
Lemma qdot_deviations_ne xs m (x1 x2 : Qc) :
  x1 ∈ xs → x2 ∈ xs → x1 ≠ x2 →
  qdot ((λ x, x - m)%Qc <$> xs) ((λ x, x - m)%Qc <$> xs) ≠ 0%Qc.
Proof.
  intros H1 H2 Hne Hz%qdot_self_zero.
  rewrite Forall_fmap, Forall_forall in Hz.
  pose proof (Hz x1 H1) as Hx1. pose proof (Hz x2 H2) as Hx2.
  cbn in Hx1, Hx2. apply Hne.
  replace x1 with (x1 - m + m)%Qc by ring.
  replace x2 with (x2 - m + m)%Qc by ring. by rewrite Hx1, Hx2.
Qed.

Lemma qdot_deviations_const (c m : Qc) xs ys :
  Forall (λ x, x = c) xs → m = c →
  qdot ((λ x, x - m)%Qc <$> xs) ys = 0%Qc.
Proof.
  intros Hall ->. unfold qdot. revert ys.
  induction Hall as [|x xs -> _ IH]; intros [|y ys]; [done..|].
  cbn [fmap list_fmap zip_with foldr]. rewrite IH. ring.
Qed.

Lemma qsum_const (c : Qc) xs :
  Forall (λ x, x = c) xs → qsum xs = (qlen xs * c)%Qc.
Proof.
  induction 1 as [|x xs -> _ IH].
  - cbn [foldr length]. change (Z.of_nat 0) with 0. rewrite Z2Qc_inj_0. ring.
  - cbn [foldr]. rewrite IH, qlen_cons. ring.
Qed.

Lemma Residuals_on_line a b xs :
  Residuals (Fin <$> xs) (Fin <$> on_line a b xs) (Fin a) (Fin b)
  = Ok (Fin <$> ((λ _, 0%Qc) <$> xs)).
Proof.
  unfold Residuals, array_sub, on_line.
  rewrite decide_True by (by rewrite !length_fmap). f_equal.
  rewrite <-!list_fmap_compose, zip_with_fmap_l, zip_with_fmap_r.
  rewrite zip_with_diag. apply list_fmap_ext. intros _ x _. cbn.
  f_equal. ring.
Qed.

Lemma Var_zeros xs :
  xs ≠ [] → Var (Fin <$> ((λ _, 0%Qc) <$> xs)) None 0 = Ok num_zero.
Proof.
  intros Hne. rewrite Var_fin by (by destruct xs).
  rewrite (qdot_deviations_const 0%Qc).
  - unfold num_zero. do 2 f_equal. unfold Qcdiv. ring.
  - apply Forall_fmap, Forall_true. done.
  - rewrite (qsum_const 0%Qc) by (apply Forall_fmap, Forall_true; done).
    unfold Qcdiv. ring.
Qed.

(** X28.  A least-squares fit recovers a line from points that lie on it.
    For finite [xs] that hold two different values and [ys = a + b * xs],
    [LeastSquares] returns the intercept [a] and the slope [b], the
    residuals of that fit are all zero, and for [b ≠ 0] the coefficient of
    determination is 1.  Sequences of different lengths raise
    [ValueError].  (When all [xs] are equal, the slope is the quotient of
    two numbers that are zero up to rounding: what comes out depends on the
    rounding and is not stated.) *)
Theorem LeastSquares_spec xs :
  (∀ a b (x1 x2 : Qc), x1 ∈ xs → x2 ∈ xs → x1 ≠ x2 →
     LeastSquares (Fin <$> xs) (Fin <$> on_line a b xs) = Ok (Fin a, Fin b) ∧
     Residuals (Fin <$> xs) (Fin <$> on_line a b xs) (Fin a) (Fin b)
     = Ok (Fin <$> ((λ _, 0%Qc) <$> xs)) ∧
     (b ≠ 0%Qc →
        CoefDetermination (Fin <$> on_line a b xs)
          (Fin <$> ((λ _, 0%Qc) <$> xs))
        = Ok num_one)) ∧
  (∀ ys : list num, length ys ≠ length xs →
     LeastSquares (Fin <$> xs) ys = Raise (ValueError "shapes not aligned")).
Proof.
  split.
  - intros a b x1 x2 H1 H2 Hne.
    assert (Hnil : xs ≠ []) by (intros ->; by apply elem_of_nil in H1).
    pose proof (qlen_ne xs Hnil) as Hn.
    pose proof (qdot_deviations_ne xs (qsum xs / qlen xs)%Qc x1 x2 H1 H2 Hne)
      as HV.
    assert (Hmy : (qsum (on_line a b xs) / qlen xs
                   = a + b * (qsum xs / qlen xs))%Qc).
    { rewrite qsum_on_line. by field. }
    split; [|split].
    + rewrite LeastSquares_fin by (by unfold on_line; rewrite ?length_fmap).
      rewrite Hmy, qdot_on_line.
      rewrite ndiv_fin.
      2:{ unfold Qcdiv. intros [Hz|Hz]%Qcmult_integral; [done|].
          apply (Qcmult_inv_r (qlen xs)) in Hn. rewrite Hz in Hn.
          revert Hn. replace (qlen xs * 0)%Qc with 0%Qc by ring.
          intros Hn. apply (f_equal this) in Hn. by vm_compute in Hn. }
      cbn [nmul nsub nneg nadd]. f_equal. f_equal; f_equal; by field.
    + apply Residuals_on_line.
    + intros Hb. unfold CoefDetermination.
      rewrite Var_zeros by done. cbn [mbind result_bind].
      rewrite Var_fin by (by unfold on_line; destruct xs).
      cbn [mbind result_bind].
      assert (Hlen : qlen (on_line a b xs) = qlen xs)
        by (by unfold on_line; rewrite length_fmap).
      rewrite Hlen, Hmy.
      pose proof (qdot_on_line a b (qsum xs / qlen xs) xs) as Hdot.
      assert (HVy : qdot ((λ y, y - (a + b * (qsum xs / qlen xs)))%Qc
                            <$> on_line a b xs)
                         ((λ y, y - (a + b * (qsum xs / qlen xs)))%Qc
                            <$> on_line a b xs) ≠ 0%Qc).
      { pose proof (list_elem_of_fmap_2 (λ x, a + b * x)%Qc _ _ H1) as H1'.
        pose proof (list_elem_of_fmap_2 (λ x, a + b * x)%Qc _ _ H2) as H2'.
        apply (qdot_deviations_ne _ _ _ _ H1' H2').
        intros Heq. apply Hne.
        assert (Hbx : (b * x1 = b * x2)%Qc).
        { replace (b * x1)%Qc with (a + b * x1 - a)%Qc by ring.
          rewrite Heq. ring. }
        replace x1 with (/ b * (b * x1))%Qc by (by field).
        rewrite Hbx. by field. }
      unfold num_zero, num_one. rewrite ndiv_fin.
      * cbn [nsub nneg nadd]. do 2 f_equal; unfold Qcdiv; ring.
      * unfold Qcdiv. intros [Hz|Hz]%Qcmult_integral; [done|].
        apply (Qcmult_inv_r (qlen xs)) in Hn. rewrite Hz in Hn.
        revert Hn. replace (qlen xs * 0)%Qc with 0%Qc by ring.
        intros Hn. apply (f_equal this) in Hn. by vm_compute in Hn.
  - intros ys Hlen. unfold LeastSquares, MeanVar, Var. cbn [default from_option id].
    cbv zeta. unfold np_dot at 1. rewrite decide_True by done.
    cbn [mbind result_bind fst snd]. unfold Cov. cbn [default from_option id]. cbv zeta.
    rewrite np_dot_mismatch; [done|]. rewrite !length_fmap. congruence.
Qed.

End least_squares.

Lemma LeastSquares_spec_witness :
  LeastSquares (Fin <$> [Qc_of_Z 0; Qc_of_Z 1; Qc_of_Z 2])
    (Fin <$> on_line (Qc_of_Z 1) (Qc_of_Z 2)
               [Qc_of_Z 0; Qc_of_Z 1; Qc_of_Z 2])
  = Ok (Fin (Qc_of_Z 1), Fin (Qc_of_Z 2)).
Proof.
  apply (proj1 (LeastSquares_spec [Qc_of_Z 0; Qc_of_Z 1; Qc_of_Z 2])
           (Qc_of_Z 1) (Qc_of_Z 2) (Qc_of_Z 0) (Qc_of_Z 1)).
  - by left.
  - right. by left.
  - intros Hz. apply (f_equal this) in Hz. by vm_compute in Hz.
Defined.

(** ** [MakeCdf] and [Cdf.MakePmf] *)

Section cdf_round_trip.
Implicit Types (w : DictWrapper Qc) (q : gmap Qc Qc) (ql : list Qc) (t : Qc).

(** The steps of the running sums are the summands. *)
Lemma cumsum_steps t (acc : Qc) ql :
  t ≠ 0%Qc →
  zip_with nsub
    ((λ p, p /ₙ Fin t) <$> cumsum_from (Fin acc) (Fin <$> ql))
    (Fin (acc / t)%Qc
       :: removelast ((λ p, p /ₙ Fin t)
                        <$> cumsum_from (Fin acc) (Fin <$> ql)))
  = (λ p, p *ₙ Fin (1 / t)%Qc) <$> (Fin <$> ql).
Proof.
  intros Ht. revert acc. induction ql as [|x ql IH]; intros acc; [done|].
  rewrite !fmap_cons. cbn [cumsum_from]. rewrite fmap_cons.
  cbn [zip_with nadd]. f_equal.
  - cbn [ndiv]. rewrite decide_False by done. cbn [nsub nneg nadd nmul].
    f_equal. by field.
  - specialize (IH (acc + x)%Qc).
    destruct ql as [|y ql]; [done|].
    rewrite !fmap_cons in *. cbn [cumsum_from] in *.
    rewrite !fmap_cons in *.
    change (removelast (?a :: ?b :: ?l)) with (a :: removelast (b :: l)).
    cbn [ndiv nadd] in *. rewrite !decide_False in IH by done.
    rewrite !decide_False by done. exact IH.
Qed.

Lemma zip_fst_fmap_snd {A B C} (f : B → C) (l : list (A * B)) :
  zip l.*1 (f <$> l.*2) = prod_map id f <$> l.
Proof.
  induction l as [|[a b] l IH]; [done|].
  rewrite !fmap_cons. cbn [zip zip_with fst snd]. by rewrite <-IH.
Qed.

Lemma dict_update_list_to_map (l : list (Qc * num)) :
  NoDup l.*1 → dict_update ∅ l = list_to_map l.
Proof.
  intros Hnd. apply map_eq. intros k. rewrite dict_update_lookup by done.
  rewrite lookup_empty. by destruct (list_to_map l !! k).
Qed.

(** X29.  [MakeCdf] followed by [Cdf.MakePmf] normalizes.  For a [Hist] or
    [Pmf] with finite weights whose total is not zero, both calls return,
    the [Pmf] that comes back has the same values, and every weight is the
    original one divided by the total; so a [Pmf] that sums to 1 comes back
    with the weights it had.  For an object without items the [Cdf] is
    made, and [MakePmf] on it raises [IndexError]. *)
Theorem MakeCdf_MakePmf_round_trip w q lbl lbl' :
  d w = Fin <$> q →
  (qtotal q ≠ 0%Qc →
     ∃ c pmf, MakeCdf w lbl = Ok c ∧ Cdf_MakePmf c lbl' = Ok pmf ∧
              cls pmf = KPmf ∧
              d pmf = Fin <$> qscale (1 / qtotal q) q ∧
              (qtotal q = 1%Qc → d pmf = d w)) ∧
  (q = ∅ →
     ∃ c, MakeCdf w lbl = Ok c ∧ Cdf_MakePmf c lbl' = Raise IndexError).
Proof.
  intros Hd. unfold MakeCdf.
  destruct (Cdf_of_wrapper w (Some (default (label w) lbl)))
    as (c & Hc & Hxs & Hemp & Hps).
  split.
  - intros Ht. exists c.
    assert (Hsize : size (d w) ≠ 0%nat).
    { intros Hs%map_size_empty_inv. rewrite Hd in Hs.
      apply fmap_empty_inv in Hs. subst q. by apply Ht. }
    destruct (Hps Hsize) as (total & Hlast & Hpc). clear Hps Hemp.
    assert (Hne : (sorted_items w).*2 ≠ []).
    { intros Hnil%length_zero_iff_nil.
      by rewrite length_fmap, sorted_items_length in Hnil. }
    unfold cumsum in Hlast. rewrite last_cumsum_from in Hlast by done.
    fold (pysum (sorted_items w).*2) in Hlast.
    rewrite Total_sorted_items, (Total_fin w q Hd) in Hlast.
    injection Hlast as <-.
    destruct (all_fin_fmap (sorted_items w).*2) as [ql Hql].
    { apply Forall_fmap, Forall_forall. intros [k v] Hkv%sorted_items_elem.
      rewrite Hd, lookup_fmap in Hkv. cbn.
      destruct (q !! k); cbn in Hkv; [|done]. by injection Hkv as <-. }
    assert (Hitems : Cdf_Items c
                     = Ok (prod_map id (λ p, p *ₙ Fin (1 / qtotal q)%Qc)
                             <$> sorted_items w)).
    { unfold Cdf_Items. rewrite Hpc, Hxs. unfold cumsum. rewrite Hql.
      destruct ql as [|x ql]; [by destruct (sorted_items w)|].
      rewrite fmap_cons. cbn [cumsum_from]. rewrite fmap_cons. cbv zeta.
      f_equal. rewrite <-zip_fst_fmap_snd, Hql. f_equal.
      rewrite <-(cumsum_steps (qtotal q) 0%Qc (x :: ql) Ht).
      rewrite fmap_cons. cbn [cumsum_from]. rewrite fmap_cons.
      assert (H0 : num_zero = Fin (0 / qtotal q)%Qc)
        by (unfold num_zero; f_equal; unfold Qcdiv; ring).
      by rewrite <-H0. }
    set (items := prod_map id (λ p, p *ₙ Fin (1 / qtotal q)%Qc)
                    <$> sorted_items w) in *.
    assert (Hcopy : d (init_copy KPmf (SrcCdf c)
                         (Some (default (clabel c) lbl')) items)
                    = Fin <$> qscale (1 / qtotal q) q).
    { unfold init_copy. cbn [d]. rewrite dict_update_list_to_map.
      - unfold items. rewrite list_to_map_fmap.
        rewrite (list_to_map_proper _ (Items w)).
        + unfold Items. by rewrite list_to_map_to_list, Hd, fin_qscale.
        + rewrite sorted_items_perm. apply NoDup_fst_map_to_list.
        + apply sorted_items_perm.
      - assert (Hk : items.*1 = (sorted_items w).*1).
        { unfold items. rewrite <-list_fmap_compose.
          apply list_fmap_ext. by intros ? []. }
        rewrite Hk, sorted_items_perm. apply NoDup_fst_map_to_list. }
    assert (Htot : qtotal (qscale (1 / qtotal q) q) = 1%Qc).
    { rewrite qtotal_qscale. by field. }
    unfold Cdf_MakePmf. rewrite (init_unfold KPmf (SrcCdf c) _ items Hitems).
    rewrite bool_decide_eq_true_2.
    2:{ unfold len. rewrite Hcopy, map_size_fmap. unfold qscale.
        rewrite map_size_fmap, <-(map_size_fmap Fin), <-Hd. lia. }
    cbn [andb is_Pmf].
    rewrite (Normalize_fin _ _ Hcopy) by done.
    rewrite decide_False
      by (rewrite Htot; intros Hz; apply (f_equal this) in Hz;
          by vm_compute in Hz).
    cbn [mbind result_bind fst]. eexists. split; [done|]. split; [done|].
    split; [done|]. cbn [d with_d].
    assert (Hq : qscale (1 / qtotal (qscale (1 / qtotal q) q))
                   (qscale (1 / qtotal q) q)
                 = qscale (1 / qtotal q) q).
    { apply qscale_1. rewrite Htot. by field. }
    rewrite Hq. split; [done|].
    intros H1. rewrite Hd. f_equal. apply qscale_1. rewrite H1. by field.
  - intros ->. exists c. split; [done|].
    rewrite fmap_empty in Hd.
    assert (Hs : size (d w) = 0%nat) by (by rewrite Hd).
    unfold Cdf_MakePmf, init. cbn [source_items]. unfold Cdf_Items.
    by rewrite (Hemp Hs).
Qed.

End cdf_round_trip.

Lemma MakeCdf_MakePmf_round_trip_witness :
  ∃ c pmf, MakeCdf pmf_1_3 None = Ok c ∧ Cdf_MakePmf c None = Ok pmf ∧
           d pmf = Fin <$> qscale (1 / qtotal
                             {[ Qc_of_Z 1 := Qc_of_Z 1;
                                Qc_of_Z 2 := Qc_of_Z 3 ]})
                     {[ Qc_of_Z 1 := Qc_of_Z 1; Qc_of_Z 2 := Qc_of_Z 3 ]}.
Proof.
  destruct (proj1 (MakeCdf_MakePmf_round_trip pmf_1_3
                     {[ Qc_of_Z 1 := Qc_of_Z 1; Qc_of_Z 2 := Qc_of_Z 3 ]}
                     None None
                     ltac:(unfold pmf_1_3; cbn [d];
                           by rewrite fmap_insert, map_fmap_singleton)))
    as (c & pmf & Hc & Hp & _ & Hd & _).
  - intros Hz. apply (f_equal this) in Hz. by vm_compute in Hz.
  - by exists c, pmf.
Defined.

(** ** [MakeSurvival] and [MakeHazardFunction] undo each other *)

Section hazard_survival.
Implicit Types (ql sl : list Qc) (p : Qc) (tsl : list Qc).

Local Abbreviation one_minus l := ((λ lam, num_one -ₙ lam) <$> l).

(** As long as no divisor is zero the loop fills the series in the order
    of its index, whatever the kind of the scalars. *)
Lemma survival_hazard_loop_values (k : scalars) tsl (vals : list num)
    (prev : num) (filled : Series) :
  NoDup (filled.*1 ++ tsl) → length tsl = length vals →
  Forall (λ v, neqb v num_zero = false) (removelast (prev :: vals)) →
  survival_hazard_loop k (zip tsl vals) prev (filled ++ Series_new tsl)
  = Ok (filled ++ zip tsl (hazard_values prev vals)).
Proof.
  revert vals prev filled.
  induction tsl as [|t tsl IH]; intros [|s vals] prev filled Hnd Hlen Hnz;
    try done.
  cbn [zip zip_with survival_hazard_loop hazard_values].
  change (removelast (prev :: s :: vals))
    with (prev :: removelast (s :: vals)) in Hnz.
  apply Forall_cons in Hnz as [Hprev Hnz].
  assert (Hdiv : scalar_div k (prev -ₙ s) prev = Ok ((prev -ₙ s) /ₙ prev)).
  { destruct k; [by apply pydiv_ok|done]. }
  rewrite Hdiv. cbn [mbind result_bind].
  change (Series_new (t :: tsl)) with ((t, NaN) :: Series_new tsl).
  apply NoDup_app in Hnd as (Hf & Hdisj & Htl).
  apply NoDup_cons in Htl as [Ht Htl].
  rewrite Series_set_mid.
  - rewrite (cons_middle _ filled), app_assoc, IH.
    + by rewrite <-app_assoc.
    + rewrite fmap_app. cbn [fmap list_fmap fst]. rewrite <-app_assoc.
      cbn [app]. apply NoDup_app. split; [done|]. split.
      * intros x Hx. apply Hdisj. done.
      * by apply NoDup_cons.
    + cbn [length] in Hlen. lia.
    + done.
  - intros Hin. by apply (Hdisj t Hin); left.
  - by rewrite Series_new_index.
Qed.

(** With Python floats the loop stops at the first divisor that is zero. *)
Lemma survival_hazard_loop_raises tsl (vals : list num) (prev : num)
    (lams : Series) :
  length tsl = length vals →
  Exists (λ v, v = num_zero) (removelast (prev :: vals)) →
  survival_hazard_loop PyFloats (zip tsl vals) prev lams
  = Raise ZeroDivisionError.
Proof.
  revert vals prev lams.
  induction tsl as [|t tsl IH]; intros [|s vals] prev lams Hlen Hex;
    try done.
  - by apply Exists_nil in Hex.
  - cbn [zip zip_with survival_hazard_loop scalar_div].
    change (removelast (prev :: s :: vals))
      with (prev :: removelast (s :: vals)) in Hex.
    apply Exists_cons in Hex as [->|Hex]; [done|].
    unfold pydiv. destruct (neqb prev num_zero); [done|].
    cbn [mbind result_bind]. apply IH; [|done]. cbn [length] in Hlen. lia.
Qed.

Lemma hazard_values_length (prev : num) (vals : list num) :
  length (hazard_values prev vals) = length vals.
Proof.
  revert prev. induction vals as [|s vals IH]; intros prev; [done|].
  cbn [hazard_values length]. by rewrite IH.
Qed.

Lemma hazard_values_alive p ql :
  p ≠ 0%Qc → Forall (λ lam, lam ≠ 1%Qc) (removelast ql) →
  hazard_values (Fin p) (cumprod_from (Fin p) (one_minus (Fin <$> ql)))
  = Fin <$> ql.
Proof.
  revert p. induction ql as [|lam ql IH]; intros p Hp Hall; [done|].
  rewrite !fmap_cons.
  change (num_one -ₙ Fin lam) with (Fin (1 + - lam)%Qc).
  cbn [nsub nneg nadd cumprod_from nmul hazard_values].
  rewrite ndiv_fin by done. f_equal; [f_equal; by field|].
  destruct ql as [|lam' ql]; [done|].
  change (removelast (lam :: lam' :: ql))
    with (lam :: removelast (lam' :: ql)) in Hall.
  apply Forall_cons in Hall as [Hlam Hall].
  apply IH; [|done].
  intros [Hz|Hz]%Qcmult_integral; [done|]. apply Hlam.
  replace lam with (1 - (1 + - lam))%Qc by ring. rewrite Hz. ring.
Qed.

(** The running products of what is left of the survival at each step are
    the survival values. *)
Lemma cumprod_hazard_values p sl :
  p ≠ 0%Qc → Forall (λ s, s ≠ 0%Qc) (removelast sl) →
  cumprod_from (Fin p) (one_minus (hazard_values (Fin p) (Fin <$> sl)))
  = Fin <$> sl.
Proof.
  revert p. induction sl as [|s sl IH]; intros p Hp Hall; [done|].
  rewrite fmap_cons. cbn [hazard_values]. rewrite fmap_cons.
  cbn [nsub nneg nadd]. rewrite ndiv_fin by done.
  change (num_one -ₙ Fin ((p + - s) / p)%Qc)
    with (Fin (1 + - ((p + - s) / p))%Qc).
  cbn [cumprod_from nmul].
  assert (Hs : (p * (1 + - ((p + - s) / p)))%Qc = s) by by field.
  rewrite Hs. f_equal.
  destruct sl as [|s' sl]; [done|].
  change (removelast (s :: s' :: sl))
    with (s :: removelast (s' :: sl)) in Hall.
  apply Forall_cons in Hall as [Hne Hall]. by apply IH.
Qed.

Lemma zip_fst_snd_eq {A B} (l : list (A * B)) : zip l.*1 l.*2 = l.
Proof.
  induction l as [|[a b] l IH]; [done|].
  rewrite !fmap_cons. cbn [zip zip_with fst snd]. by rewrite <-IH at 3.
Qed.

Lemma one_ne_zero : 1%Qc ≠ 0%Qc.
Proof. intros Hz. apply (f_equal this) in Hz. by vm_compute in Hz. Qed.

(** The survival values of finite hazards are finite, and none but the
    last is zero when no hazard but the last is 1. *)
Lemma cumprod_alive p ql :
  p ≠ 0%Qc → Forall (λ lam, lam ≠ 1%Qc) (removelast ql) →
  Forall (λ v, neqb v num_zero = false)
    (removelast (Fin p :: cumprod_from (Fin p) (one_minus (Fin <$> ql)))).
Proof.
  revert p. induction ql as [|lam ql IH]; intros p Hp Hall; [constructor|].
  rewrite !fmap_cons.
  change (num_one -ₙ Fin lam) with (Fin (1 + - lam)%Qc).
  cbn [cumprod_from nmul].
  change (removelast (?a :: ?b :: ?l)) with (a :: removelast (b :: l)).
  apply Forall_cons. split; [by apply bool_decide_eq_false|].
  destruct ql as [|lam' ql]; [constructor|].
  change (removelast (lam :: lam' :: ql))
    with (lam :: removelast (lam' :: ql)) in Hall.
  apply Forall_cons in Hall as [Hlam Hall].
  apply IH; [|done].
  intros [Hz|Hz]%Qcmult_integral; [done|]. apply Hlam.
  replace lam with (1 - (1 + - lam))%Qc by ring. rewrite Hz. ring.
Qed.

(** After a hazard of 1 that is not the last, a survival value other than
    the last is zero. *)
Lemma cumprod_dead p (pre post : list Qc) :
  post ≠ [] →
  Exists (λ v, v = num_zero)
    (removelast
       (Fin p :: cumprod_from (Fin p)
                   (one_minus (Fin <$> pre ++ 1%Qc :: post)))).
Proof.
  intros Hpost. revert p. induction pre as [|lam pre IH]; intros p.
  - cbn [app]. rewrite !fmap_cons.
    change (num_one -ₙ Fin 1%Qc) with (Fin (1 + - 1)%Qc).
    cbn [cumprod_from nmul].
    destruct post as [|lam post]; [done|]. rewrite !fmap_cons.
    change (num_one -ₙ Fin lam) with (Fin (1 + - lam)%Qc).
    cbn [cumprod_from nmul].
    change (removelast (?a :: ?b :: ?c :: ?l))
      with (a :: b :: removelast (c :: l)).
    apply Exists_cons_tl, Exists_cons_hd. unfold num_zero. f_equal. ring.
  - cbn [app]. rewrite !fmap_cons.
    change (num_one -ₙ Fin lam) with (Fin (1 + - lam)%Qc).
    cbn [cumprod_from nmul].
    change (removelast (?a :: ?b :: ?l)) with (a :: removelast (b :: l)).
    apply Exists_cons_tl, IH.
Qed.

(** X30.  [HazardFunction.MakeSurvival] and
    [SurvivalFunction.MakeHazardFunction] undo each other as long as the
    survival has not reached 0.  For finite hazards over distinct times: if
    no hazard but the last is 1, the hazard function of the survival
    function is the hazard function again; if a hazard that is not the last
    is 1, the survival reaches 0 before the end and [MakeHazardFunction]
    raises [ZeroDivisionError] at the next time (the survival values are
    those of a [Series]).  For finite survival values over as many distinct
    times, of either kind: if no value but the last is 0,
    [MakeHazardFunction] returns and the survival function of its result is
    the survival function again. *)
Theorem MakeSurvival_MakeHazardFunction_inverse :
  (∀ (hf : HazardFunction) ql lbl lbl',
     NoDup (series hf).*1 → (series hf).*2 = Fin <$> ql →
     (Forall (λ lam, lam ≠ 1%Qc) (removelast ql) →
        MakeHazardFunction PyFloats (MakeSurvival hf lbl) lbl'
        = Ok {| series := series hf; hlabel := lbl' |}) ∧
     (∀ pre post, ql = pre ++ 1%Qc :: post → post ≠ [] →
        MakeHazardFunction PyFloats (MakeSurvival hf lbl) lbl'
        = Raise ZeroDivisionError)) ∧
  (∀ (k : scalars) (sf : SurvivalFunction) sl lbl lbl',
     NoDup (ts sf) → ss sf = Fin <$> sl → length (ts sf) = length sl →
     Forall (λ s, s ≠ 0%Qc) (removelast sl) →
     ∃ hf, MakeHazardFunction k sf lbl = Ok hf ∧
           hlabel hf = lbl ∧
           MakeSurvival hf lbl'
           = {| ts := ts sf; ss := ss sf; slabel := lbl' |}).
Proof.
  split.
  - intros hf ql lbl lbl' Hnd Hql.
    assert (Hlen : length (series hf).*1
                   = length (cumprod_from num_one (one_minus (Fin <$> ql)))).
    { by rewrite cumprod_from_length, !length_fmap, <-(length_fmap Fin),
        <-Hql, length_fmap. }
    split.
    + intros Hall. unfold MakeHazardFunction, MakeSurvival, cumprod.
      cbn [ts ss]. rewrite Hql.
      pose proof (survival_hazard_loop_values PyFloats (series hf).*1
                    (cumprod_from num_one (one_minus (Fin <$> ql)))
                    num_one []) as Hloop.
      cbn [app fmap list_fmap] in Hloop. rewrite Hloop; [|done|done|].
      * cbn [mbind result_bind]. do 2 f_equal. unfold num_one.
        rewrite hazard_values_alive by (done || apply one_ne_zero).
        rewrite <-Hql. apply zip_fst_snd_eq.
      * unfold num_one. apply cumprod_alive; [apply one_ne_zero|done].
    + intros pre post -> Hpost.
      unfold MakeHazardFunction, MakeSurvival, cumprod. cbn [ts ss].
      rewrite Hql, survival_hazard_loop_raises; [done|done|].
      unfold num_one. by apply cumprod_dead.
  - intros k sf sl lbl lbl' Hnd Hss Hlen Hall.
    unfold MakeHazardFunction.
    pose proof (survival_hazard_loop_values k (ts sf) (ss sf) num_one [])
      as Hloop.
    cbn [app fmap list_fmap] in Hloop.
    rewrite Hloop; [|done|by rewrite Hss, length_fmap|].
    2:{ rewrite Hss. clear -Hall. unfold num_one.
        assert (H1 : 1%Qc ≠ 0%Qc) by apply one_ne_zero.
        revert H1. generalize 1%Qc. intros p Hp.
        revert p Hp. induction sl as [|s sl IH]; intros p Hp; [constructor|].
        rewrite fmap_cons.
        change (removelast (?a :: ?b :: ?l)) with (a :: removelast (b :: l)).
        apply Forall_cons. split; [by apply bool_decide_eq_false|].
        destruct sl as [|s' sl]; [constructor|].
        change (removelast (s :: s' :: sl))
          with (s :: removelast (s' :: sl)) in Hall.
        apply Forall_cons in Hall as [Hs Hall]. by apply IH. }
    clear Hloop. cbn [mbind result_bind]. eexists. split; [done|].
    split; [done|]. unfold MakeSurvival. cbn [series].
    assert (Hl : length (ts sf)
                 = length (hazard_values num_one (ss sf))).
    { by rewrite hazard_values_length, Hss, length_fmap. }
    f_equal.
    + by apply fst_zip; lia.
    + rewrite snd_zip by lia. rewrite Hss. unfold cumprod, num_one.
      by rewrite cumprod_hazard_values by (done || apply one_ne_zero).
Qed.

End hazard_survival.

Lemma MakeSurvival_MakeHazardFunction_inverse_witness :
  MakeHazardFunction PyFloats
    (MakeSurvival
       {| series := [(Qc_of_Z 1, Fin (Qc_of_Z 1 / Qc_of_Z 2)%Qc);
                     (Qc_of_Z 2, Fin (Qc_of_Z 1))];
          hlabel := "hazard" |} "survival") "back"
  = Ok {| series := [(Qc_of_Z 1, Fin (Qc_of_Z 1 / Qc_of_Z 2)%Qc);
                     (Qc_of_Z 2, Fin (Qc_of_Z 1))];
          hlabel := "back" |} ∧
  MakeHazardFunction PyFloats
    (MakeSurvival
       {| series := [(Qc_of_Z 1, Fin 1%Qc);
                     (Qc_of_Z 2, Fin (Qc_of_Z 1 / Qc_of_Z 2)%Qc)];
          hlabel := "hazard" |} "survival") "back"
  = Raise ZeroDivisionError.
Proof.
  split.
  - apply (proj1 (proj1 MakeSurvival_MakeHazardFunction_inverse
                    {| series := [(Qc_of_Z 1, Fin (Qc_of_Z 1 / Qc_of_Z 2)%Qc);
                                  (Qc_of_Z 2, Fin (Qc_of_Z 1))];
                       hlabel := "hazard" |}
                    [(Qc_of_Z 1 / Qc_of_Z 2)%Qc; Qc_of_Z 1] "survival" "back"
                    ltac:(apply (bool_decide_unpack _); by vm_compute)
                    ltac:(done))).
    apply Forall_cons. split; [|constructor].
    intros Hz. apply (f_equal this) in Hz. by vm_compute in Hz.
  - apply (proj2 (proj1 MakeSurvival_MakeHazardFunction_inverse
                    {| series := [(Qc_of_Z 1, Fin 1%Qc);
                                  (Qc_of_Z 2, Fin (Qc_of_Z 1 / Qc_of_Z 2)%Qc)];
                       hlabel := "hazard" |}
                    [1%Qc; (Qc_of_Z 1 / Qc_of_Z 2)%Qc] "survival" "back"
                    ltac:(apply (bool_decide_unpack _); by vm_compute)
                    ltac:(done))
             [] [(Qc_of_Z 1 / Qc_of_Z 2)%Qc]); [reflexivity|discriminate].
Defined.
